(** * Peer scoring and IWANT-promise tracking of quorum-gossipsub

    A shallow embedding of [src/ts/tracer.ts]: the [IWantTracer] class and
    the [PeerScore] engine, with the properties of the specification proved
    (or refuted) over it.

    Conventions of the embedding:
    - a JS [Map<string, V>] or object used as a map is a [gmap string V],
      a [Set<string>] is a [gset string], a [string[]] is a [list string];
    - a timestamp ([Date.now()], milliseconds) and a duration are in [Z];
      the clock is an explicit argument [now] of every method that reads it;
    - a counter (a JS number) is an exact rational in [Q]; values are
      compared with [Qlt_le_dec], and equations between computed counters
      are stated with [==]; where the rounding of binary64 decides a
      property (the decay law), the step of the code is given on
      binary64 numbers as well, in [Binary64];
    - a method that can throw a [TypeError] (reading a field of
      [params.topics[topic]] when that is [undefined]) returns an [option],
      [None] standing for the exception;
    - the asynchronous message-id function is a function [msgId] from
      messages to id strings. *)

From Stdlib Require Import QArith Qminmax Qpower Lqa Floats.
From stdpp Require Import base option list strings gmap fin_maps fin_sets.

Local Open Scope Z_scope.

(** ** Messages and rejection reasons *)

(** [InMessage] of libp2p-interfaces: the engine reads [receivedFrom] and
    [topicIDs]; [data] stands for the fields only [msgId] looks at. *)
Record InMessage := mkInMessage {
  receivedFrom : string;
  topicIDs : list string;
  data : string
}.

(** The codes of [pubsubErrors.codes] (libp2p-interfaces). *)
Definition ERR_INVALID_SIGNATURE : string := "ERR_INVALID_SIGNATURE".
Definition ERR_MISSING_SIGNATURE : string := "ERR_MISSING_SIGNATURE".

(** Modelled from the spec: the constant [ERR_TOPIC_VALIDATOR_IGNORE] of
    [./constants], one of the "bit-exact string constants" of section 6. *)
Definition ERR_TOPIC_VALIDATOR_IGNORE : string := "ERR_TOPIC_VALIDATOR_IGNORE".

(** Modelled from the spec: [ERR_TOPIC_VALIDATOR_REJECT] of [./constants]
    (section 6); the engine treats it like any other reason. *)
Definition ERR_TOPIC_VALIDATOR_REJECT : string := "ERR_TOPIC_VALIDATOR_REJECT".

(** [switch (reason) { case ERR_INVALID_SIGNATURE: case ERR_MISSING_SIGNATURE: }] *)
Definition isSignatureError (reason : string) : bool :=
  bool_decide (reason = ERR_INVALID_SIGNATURE) ||
  bool_decide (reason = ERR_MISSING_SIGNATURE).

(** ** The promise tracker *)

Module IWantTracer.

(** [promises: Map<string, Map<string, number>>]: per message id, per
    peer, the expiration time of the promise. *)
Record t := mk {
  promises : gmap string (gmap string Z)
}.

Definition create : t := mk ∅.

Section Methods.
(** [getMsgId] followed by [messageIdToString]. *)
Variable getMsgId : InMessage → string.
(** Modelled from the spec: the constant [GossipsubIWantFollowupTime] of
    [./constants] ("expireAt = now + IWantFollowupTime"). *)
Variable GossipsubIWantFollowupTime : Z.

(** [addPromise(p, msgIds)]; [ix] is the index drawn by
    [Math.floor(Math.random() * msgIds.length)]. With an empty list the
    source converts [undefined] to a string and fails. *)
Definition addPromise (now : Z) (ix : nat) (p : string)
    (msgIds : list string) (tr : t) : option t :=
  msgIdStr ← msgIds !! ix;
  let peers := default ∅ (promises tr !! msgIdStr) in
  let peers' :=
    match peers !! p with
    | Some _ => peers
    | None => <[p := now + GossipsubIWantFollowupTime]> peers
    end in
  Some (mk (<[msgIdStr := peers']> (promises tr))).

(** The callback of [peers.forEach] in [getBrokenPromises]: a promise
    that expired is counted for its peer in [result] and deleted from
    [peers]; the pair is ([result], [peers]). *)
Definition brokenPeer (now : Z) (p : string) (expire : Z)
    (acc : gmap string nat * gmap string Z) : gmap string nat * gmap string Z :=
  if bool_decide (expire < now)
  then (<[p := (default 0 (acc.1 !! p) + 1)%nat]> acc.1, delete p acc.2)
  else acc.

(** The callback of [this.promises.forEach] in [getBrokenPromises]: run
    the inner loop on the promises of [msgId], then drop the entry of
    [msgId] when no promise is left; the pair is ([result],
    [this.promises]). *)
Definition brokenMsg (now : Z) (msgId : string) (peers : gmap string Z)
    (acc : gmap string nat * gmap string (gmap string Z))
    : gmap string nat * gmap string (gmap string Z) :=
  let '(result, peers') := map_fold (brokenPeer now) (acc.1, peers) peers in
  (result,
   if decide (size peers' = 0%nat) then delete msgId acc.2
   else <[msgId := peers']> acc.2).

(** [getBrokenPromises()]: the returned map and the tracer after the
    call. *)
Definition getBrokenPromises (now : Z) (tr : t) : gmap string nat * t :=
  let '(result, proms) :=
    map_fold (brokenMsg now) (∅, promises tr) (promises tr) in
  (result, mk proms).

(** [deliverMessage(msg)]: [this.promises.delete(msgIdStr)]. *)
Definition deliverMessage (msg : InMessage) (tr : t) : t :=
  mk (delete (getMsgId msg) (promises tr)).

(** [rejectMessage(msg, reason)]. *)
Definition rejectMessage (msg : InMessage) (reason : string) (tr : t) : t :=
  if isSignatureError reason then tr
  else mk (delete (getMsgId msg) (promises tr)).

(** [clear()]. *)
Definition clear (tr : t) : t := mk ∅.
End Methods.

End IWantTracer.

(** ** Parameters *)

(** Modelled from the spec: the per-topic options of [./peer-score-params]
    (section 4.1); the source reads them as [this.params.topics[topic].x].
    Weights, decays, caps and the threshold are numbers, the window and
    the activation are durations. *)
Record TopicScoreParams := mkTopicScoreParams {
  topicWeight : Q;
  timeInMeshWeight : Q;
  timeInMeshQuantum : Z;
  timeInMeshCap : Q;
  firstMessageDeliveriesWeight : Q;
  firstMessageDeliveriesDecay : Q;
  firstMessageDeliveriesCap : Q;
  meshMessageDeliveriesWeight : Q;
  meshMessageDeliveriesDecay : Q;
  meshMessageDeliveriesCap : Q;
  meshMessageDeliveriesThreshold : Q;
  meshMessageDeliveriesWindow : Z;
  meshMessageDeliveriesActivation : Z;
  meshFailurePenaltyWeight : Q;
  meshFailurePenaltyDecay : Q;
  invalidMessageDeliveriesWeight : Q;
  invalidMessageDeliveriesDecay : Q
}.

(** Modelled from the spec: the global options of [./peer-score-params]
    (section 4.1). The field [topics] of the source is [topicParams] here,
    [topics] being the field of [PeerStats]. *)
Record PeerScoreParams := mkPeerScoreParams {
  topicParams : gmap string TopicScoreParams;
  topicScoreCap : Q;
  appSpecificScore : string → Q;
  appSpecificWeight : Q;
  IPColocationFactorWeight : Q;
  IPColocationFactorThreshold : Q;
  IPColocationFactorWhitelist : gset string;
  behaviourPenaltyWeight : Q;
  behaviourPenaltyThreshold : Q;
  behaviourPenaltyDecay : Q;
  decayInterval : Z;
  decayToZero : Q;
  retainScore : Z
}.

(** ** Per-peer statistics *)

(** Modelled from the spec: [TopicStats] of [./peer-stats] (section 3). *)
Record TopicStats := mkTopicStats {
  inMesh : bool;
  graftTime : Z;
  meshTime : Z;
  firstMessageDeliveries : Q;
  meshMessageDeliveries : Q;
  meshMessageDeliveriesActive : bool;
  meshFailurePenalty : Q;
  invalidMessageDeliveries : Q
}.

(** Modelled from the spec: [PeerStats] of [./peer-stats] (section 3). *)
Record PeerStats := mkPeerStats {
  connected : bool;
  expire : Z;
  topics : gmap string TopicStats;
  behaviourPenalty : Q;
  ips : list string
}.

(** Modelled from the spec: [createTopicStats] of [./peer-stats]: the
    lazily created entry, out of the mesh and with every counter at 0. *)
Definition createTopicStats : TopicStats :=
  mkTopicStats false 0 0 0%Q 0%Q false 0%Q 0%Q.

(** Modelled from the spec: [createPeerStats({connected})] of
    [./peer-stats]: no topic, no penalty, no address. *)
Definition createPeerStats (conn : bool) : PeerStats :=
  mkPeerStats conn 0 ∅ 0%Q [].

(** Field assignments on the two records. *)
Definition set_inMesh (b : bool) (ts : TopicStats) : TopicStats :=
  mkTopicStats b (graftTime ts) (meshTime ts) (firstMessageDeliveries ts)
    (meshMessageDeliveries ts) (meshMessageDeliveriesActive ts)
    (meshFailurePenalty ts) (invalidMessageDeliveries ts).
Definition set_graftTime (z : Z) (ts : TopicStats) : TopicStats :=
  mkTopicStats (inMesh ts) z (meshTime ts) (firstMessageDeliveries ts)
    (meshMessageDeliveries ts) (meshMessageDeliveriesActive ts)
    (meshFailurePenalty ts) (invalidMessageDeliveries ts).
Definition set_meshTime (z : Z) (ts : TopicStats) : TopicStats :=
  mkTopicStats (inMesh ts) (graftTime ts) z (firstMessageDeliveries ts)
    (meshMessageDeliveries ts) (meshMessageDeliveriesActive ts)
    (meshFailurePenalty ts) (invalidMessageDeliveries ts).
Definition set_firstMessageDeliveries (x : Q) (ts : TopicStats) : TopicStats :=
  mkTopicStats (inMesh ts) (graftTime ts) (meshTime ts) x
    (meshMessageDeliveries ts) (meshMessageDeliveriesActive ts)
    (meshFailurePenalty ts) (invalidMessageDeliveries ts).
Definition set_meshMessageDeliveries (x : Q) (ts : TopicStats) : TopicStats :=
  mkTopicStats (inMesh ts) (graftTime ts) (meshTime ts)
    (firstMessageDeliveries ts) x (meshMessageDeliveriesActive ts)
    (meshFailurePenalty ts) (invalidMessageDeliveries ts).
Definition set_meshMessageDeliveriesActive (b : bool) (ts : TopicStats)
    : TopicStats :=
  mkTopicStats (inMesh ts) (graftTime ts) (meshTime ts)
    (firstMessageDeliveries ts) (meshMessageDeliveries ts) b
    (meshFailurePenalty ts) (invalidMessageDeliveries ts).
Definition set_meshFailurePenalty (x : Q) (ts : TopicStats) : TopicStats :=
  mkTopicStats (inMesh ts) (graftTime ts) (meshTime ts)
    (firstMessageDeliveries ts) (meshMessageDeliveries ts)
    (meshMessageDeliveriesActive ts) x (invalidMessageDeliveries ts).
Definition set_invalidMessageDeliveries (x : Q) (ts : TopicStats)
    : TopicStats :=
  mkTopicStats (inMesh ts) (graftTime ts) (meshTime ts)
    (firstMessageDeliveries ts) (meshMessageDeliveries ts)
    (meshMessageDeliveriesActive ts) (meshFailurePenalty ts) x.

Definition set_connected (b : bool) (ps : PeerStats) : PeerStats :=
  mkPeerStats b (expire ps) (topics ps) (behaviourPenalty ps) (ips ps).
Definition set_expire (z : Z) (ps : PeerStats) : PeerStats :=
  mkPeerStats (connected ps) z (topics ps) (behaviourPenalty ps) (ips ps).
Definition set_topics (m : gmap string TopicStats) (ps : PeerStats)
    : PeerStats :=
  mkPeerStats (connected ps) (expire ps) m (behaviourPenalty ps) (ips ps).
Definition set_behaviourPenalty (x : Q) (ps : PeerStats) : PeerStats :=
  mkPeerStats (connected ps) (expire ps) (topics ps) x (ips ps).
Definition set_ips (l : list string) (ps : PeerStats) : PeerStats :=
  mkPeerStats (connected ps) (expire ps) (topics ps) (behaviourPenalty ps) l.

(** ** Delivery records *)

(** Modelled from the spec: [DeliveryRecordStatus] of
    [./message-deliveries] (section 3). *)
Inductive DeliveryRecordStatus := unknown | valid | invalid | ignored.

Global Instance DeliveryRecordStatus_eq_dec : EqDecision DeliveryRecordStatus.
Proof. solve_decision. Defined.

(** Modelled from the spec: [DeliveryRecord] of [./message-deliveries]
    (section 3); its expiry time is kept in the queue entry. *)
Record DeliveryRecord := mkDeliveryRecord {
  status : DeliveryRecordStatus;
  firstSeen : Z;
  validated : Z;
  peers : gset string
}.

Definition set_status (s : DeliveryRecordStatus) (r : DeliveryRecord)
    : DeliveryRecord :=
  mkDeliveryRecord s (firstSeen r) (validated r) (peers r).
Definition set_validated (z : Z) (r : DeliveryRecord) : DeliveryRecord :=
  mkDeliveryRecord (status r) (firstSeen r) z (peers r).
Definition set_peers (s : gset string) (r : DeliveryRecord) : DeliveryRecord :=
  mkDeliveryRecord (status r) (firstSeen r) (validated r) s.

Module MessageDeliveries.

(** Modelled from the spec: the class [MessageDeliveries] of
    [./message-deliveries] (section 4.2): a map of records by message id
    and a FIFO queue of (message id, expiry) entries. *)
Record t := mk {
  records : gmap string DeliveryRecord;
  queue : list (string * Z)
}.

Definition create : t := mk ∅ [].

Section Methods.
(** Modelled from the spec: the constant [TimeCacheDuration]
    ("expire = now + TimeCacheDuration"). *)
Variable TimeCacheDuration : Z.

(** Modelled from the spec: [ensureRecord] of [./message-deliveries]:
    "returns the existing record or creates one in Unknown with
    firstSeen = now, expire = now + TimeCacheDuration, and pushes it on
    the FIFO queue". *)
Definition ensureRecord (now : Z) (msgId : string) (md : t)
    : DeliveryRecord * t :=
  match records md !! msgId with
  | Some drec => (drec, md)
  | None =>
      let drec := mkDeliveryRecord unknown now 0 ∅ in
      (drec, mk (<[msgId := drec]> (records md))
                (queue md ++ [(msgId, now + TimeCacheDuration)]))
  end.

(** The caller of [ensureRecord] holds a reference to the record and
    assigns to its fields: the write goes to the record of the map. *)
Definition putRecord (msgId : string) (drec : DeliveryRecord) (md : t) : t :=
  mk (<[msgId := drec]> (records md)) (queue md).

(** Modelled from the spec: [gc] of [./message-deliveries]: "pops from
    the front of the queue while front.expire <= now, removing each
    from the map". *)
Fixpoint gc_queue (now : Z) (q : list (string * Z))
    (recs : gmap string DeliveryRecord)
    : list (string * Z) * gmap string DeliveryRecord :=
  match q with
  | [] => ([], recs)
  | (msgId, e) :: q' =>
      if bool_decide (e ≤ now) then gc_queue now q' (delete msgId recs)
      else (q, recs)
  end.

Definition gc (now : Z) (md : t) : t :=
  let '(q, recs) := gc_queue now (queue md) (records md) in mk recs q.

(** Modelled from the spec: [clear] of [./message-deliveries]. *)
Definition clear (md : t) : t := mk ∅ [].
End Methods.

End MessageDeliveries.

(** ** Score computation *)

Definition Qsquare (x : Q) : Q := (x * x)%Q.

(** [this.peerIPs.get(ip)] with an absent bucket read as the empty set. *)
Definition peersOfIP (idx : gmap string (gset string)) (ip : string)
    : gset string :=
  default ∅ (idx !! ip).

Section ComputeScore.
Variable params : PeerScoreParams.
Local Open Scope Q_scope.

(** Modelled from the spec: the contribution of one topic to the score
    (section 4.4, "Per-topic"). *)
Definition topicScore (tp : TopicScoreParams) (ts : TopicStats) : Q :=
  let p1 :=
    if inMesh ts
    then Qmin (inject_Z (meshTime ts) / inject_Z (timeInMeshQuantum tp))
              (timeInMeshCap tp)
    else 0 in
  let p2 := firstMessageDeliveries ts in
  let p3 :=
    if meshMessageDeliveriesActive ts
    then if Qlt_le_dec (meshMessageDeliveries ts)
                       (meshMessageDeliveriesThreshold tp)
         then Qsquare (meshMessageDeliveriesThreshold tp
                       - meshMessageDeliveries ts)
         else 0
    else 0 in
  let p3b := meshFailurePenalty ts in
  let p4 := Qsquare (invalidMessageDeliveries ts) in
  topicWeight tp *
    (p1 * timeInMeshWeight tp + p2 * firstMessageDeliveriesWeight tp
     + p3 * meshMessageDeliveriesWeight tp
     + p3b * meshFailurePenaltyWeight tp
     + p4 * invalidMessageDeliveriesWeight tp).

(** Modelled from the spec: [computeScore] of [./compute-score]
    (section 4.4, "Score computation"): the capped sum of the topic
    contributions, the application score, the IP colocation penalty and
    the behaviour penalty. *)
Definition computeScore (id : string) (pstats : PeerStats)
    (peerIPs : gmap string (gset string)) : Q :=
  let topicTotal :=
    map_fold (λ topic ts acc,
                match topicParams params !! topic with
                | Some tp => acc + topicScore tp ts
                | None => acc
                end) 0 (topics pstats) in
  let topicTotal :=
    if Qlt_le_dec 0 (topicScoreCap params)
    then if Qlt_le_dec (topicScoreCap params) topicTotal
         then topicScoreCap params else topicTotal
    else topicTotal in
  let p5 := appSpecificScore params id * appSpecificWeight params in
  let p6 :=
    foldl (λ acc ip,
             if bool_decide (ip ∈ IPColocationFactorWhitelist params)
             then acc
             else
               let n := inject_Z (Z.of_nat (size (peersOfIP peerIPs ip))) in
               if Qlt_le_dec (IPColocationFactorThreshold params) n
               then acc + IPColocationFactorWeight params
                          * Qsquare (n - IPColocationFactorThreshold params)
               else acc) 0 (ips pstats) in
  let excess :=
    Qmax 0 (behaviourPenalty pstats - behaviourPenaltyThreshold params) in
  topicTotal + p5 + p6 + behaviourPenaltyWeight params * Qsquare excess.
End ComputeScore.

(** ** The score engine *)

(** [NodeJS.Timeout]: the handle returned by [setInterval]. *)
Definition Timeout := nat.

(** The fields of the class [PeerScore] that change; [params], [msgId] and
    the connection manager are arguments of the methods below. *)
Record PeerScore := mkPeerScore {
  peerStats : gmap string PeerStats;
  peerIPs : gmap string (gset string);
  deliveryRecords : MessageDeliveries.t;
  _backgroundInterval : option Timeout
}.

Definition set_peerStats (m : gmap string PeerStats) (st : PeerScore)
    : PeerScore :=
  mkPeerScore m (peerIPs st) (deliveryRecords st) (_backgroundInterval st).
Definition set_peerIPs (m : gmap string (gset string)) (st : PeerScore)
    : PeerScore :=
  mkPeerScore (peerStats st) m (deliveryRecords st) (_backgroundInterval st).
Definition set_deliveryRecords (md : MessageDeliveries.t) (st : PeerScore)
    : PeerScore :=
  mkPeerScore (peerStats st) (peerIPs st) md (_backgroundInterval st).
Definition set_backgroundInterval (h : option Timeout) (st : PeerScore)
    : PeerScore :=
  mkPeerScore (peerStats st) (peerIPs st) (deliveryRecords st) h.

(** [this.peerStats.set(id, pstats)], also the write-back of a mutation of
    the [pstats] object the map holds for [id]. *)
Definition putPeer (id : string) (ps : PeerStats) (st : PeerScore) : PeerScore :=
  set_peerStats (<[id := ps]> (peerStats st)) st.

(** The write-back of a mutation of the [tstats] object held by
    [pstats.topics[topic]]. *)
Definition putTopicStats (topic : string) (ts : TopicStats) (ps : PeerStats)
    : PeerStats :=
  set_topics (<[topic := ts]> (topics ps)) ps.

(** [x < y] on numbers, as a boolean. *)
Definition Qltb (x y : Q) : bool :=
  if Qlt_le_dec x y then true else false.

(** [x += 1; if (x > cap) x = cap]. *)
Definition incrCapped (cap x : Q) : Q :=
  let x' := (x + 1)%Q in
  if Qlt_le_dec cap x' then cap else x'.

(** [x *= decay; if (x < decayToZero) x = 0]. *)
Definition decayCounter (decayToZero decay x : Q) : Q :=
  let x' := (x * decay)%Q in
  if Qlt_le_dec x' decayToZero then 0%Q else x'.

(** The decay step on the numbers JS computes with: binary64
    floating-point numbers, each product rounded to the nearest. *)
Module Binary64.

(** [x *= decay; if (x < decayToZero) x = 0]. *)
Definition decayCounter (decayToZero decay x : float) : float :=
  let x' := (x * decay)%float in
  if (x' <? decayToZero)%float then 0%float else x'.


End Binary64.

(** [message.topicIDs.forEach(f)] where the callback mutates [pstats] and
    may throw. *)
Fixpoint forEachTopic (f : string → PeerStats → option PeerStats)
    (l : list string) (ps : PeerStats) : option PeerStats :=
  match l with
  | [] => Some ps
  | topic :: l' => ps' ← f topic ps; forEachTopic f l' ps'
  end.

(** [drec.peers.forEach(f)] where the callback mutates the engine and may
    throw; [forEachPeer f (elements s)] runs it over a set [s]. The
    callbacks of the source touch the statistics of the peer they are
    called with only, so the order of the elements does not matter. *)
Fixpoint forEachPeer (f : string → PeerScore → option PeerScore)
    (l : list string) (st : PeerScore) : option PeerScore :=
  match l with
  | [] => Some st
  | p :: l' => st' ← f p st; forEachPeer f l' st'
  end.

(** [Object.entries(pstats.topics).forEach(([topic, tstats]) => ...)] where
    the callback mutates [tstats] only and may throw: every entry is
    updated by the callback, and the loop fails if the callback fails on
    an entry. *)
Definition forEachEntry (f : string → TopicStats → option TopicStats)
    (m : gmap string TopicStats) : option (gmap string TopicStats) :=
  if decide (map_Forall (λ topic ts, is_Some (f topic ts)) m)
  then Some (map_imap f m) else None.

(** One step of the loop of [_removeIPs] (and of the second loop of
    [_setIPs]): drop [id] from the bucket of [ip], and the bucket with it
    when it becomes empty. *)
Definition removeIP (id ip : string) (idx : gmap string (gset string))
    : gmap string (gset string) :=
  match idx !! ip with
  | None => idx
  | Some ps =>
      let ps' := ps ∖ {[id]} in
      if decide (size ps' = 0%nat) then delete ip idx else <[ip := ps']> idx
  end.

(** One step of the first loop of [_setIPs]: add [id] to the bucket of
    [ip], creating the bucket when absent. *)
Definition addIP (id ip : string) (idx : gmap string (gset string))
    : gmap string (gset string) :=
  <[ip := peersOfIP idx ip ∪ {[id]}]> idx.

(** [_setIPs(id, newIPs, oldIPs)]. *)
Definition _setIPs (id : string) (newIPs oldIPs : list string)
    (idx : gmap string (gset string)) : gmap string (gset string) :=
  let idx1 :=
    foldl (λ idx ip, if bool_decide (ip ∈ oldIPs) then idx else addIP id ip idx)
          idx newIPs in
  foldl (λ idx ip, if bool_decide (ip ∈ newIPs) then idx else removeIP id ip idx)
        idx1 oldIPs.

(** [_removeIPs(id, ips)]. *)
Definition _removeIPs (id : string) (ips : list string)
    (idx : gmap string (gset string)) : gmap string (gset string) :=
  foldl (λ idx ip, removeIP id ip idx) idx ips.

Section Engine.
Variable params : PeerScoreParams.
Variable msgId : InMessage → string.
Variable TimeCacheDuration : Z.

(** The state the constructor builds. *)
Definition create : PeerScore :=
  mkPeerScore ∅ ∅ MessageDeliveries.create None.

(** [start()]; [h] is the handle [setInterval] returns. *)
Definition start (h : Timeout) (st : PeerScore) : PeerScore :=
  match _backgroundInterval st with
  | Some _ => st
  | None => set_backgroundInterval (Some h) st
  end.

(** [stop()]. *)
Definition stop (st : PeerScore) : PeerScore :=
  match _backgroundInterval st with
  | None => st
  | Some _ =>
      mkPeerScore ∅ ∅ (MessageDeliveries.clear (deliveryRecords st)) None
  end.

(** Modelled from the spec: [ensureTopicStats] of [./peer-stats]: the
    entry of [pstats.topics] for the topic, created when the topic is
    scored ("A TopicStats exists for (peer, topic) only if topic is in
    params.topics"); [None] is the [undefined] the callers test with
    [if (!tstats) return], not an exception. The second component is
    [pstats] after the call. *)
Definition ensureTopicStats (topic : string) (ps : PeerStats)
    : option (TopicStats * PeerStats) :=
  match topics ps !! topic with
  | Some ts => Some (ts, ps)
  | None =>
      match topicParams params !! topic with
      | Some _ => Some (createTopicStats,
                        putTopicStats topic createTopicStats ps)
      | None => None
      end
  end.

(** The body of the per-topic loop of [_refreshScores]. *)
Definition refreshTopic (now : Z) (topic : string) (ts : TopicStats)
    : TopicStats :=
  match topicParams params !! topic with
  | None => ts
  | Some tp =>
      let dtz := decayToZero params in
      let ts := set_firstMessageDeliveries
                  (decayCounter dtz (firstMessageDeliveriesDecay tp)
                     (firstMessageDeliveries ts)) ts in
      let ts := set_meshMessageDeliveries
                  (decayCounter dtz (meshMessageDeliveriesDecay tp)
                     (meshMessageDeliveries ts)) ts in
      let ts := set_meshFailurePenalty
                  (decayCounter dtz (meshFailurePenaltyDecay tp)
                     (meshFailurePenalty ts)) ts in
      let ts := set_invalidMessageDeliveries
                  (decayCounter dtz (invalidMessageDeliveriesDecay tp)
                     (invalidMessageDeliveries ts)) ts in
      if inMesh ts then
        let ts := set_meshTime (now - graftTime ts) ts in
        if bool_decide (meshMessageDeliveriesActivation tp < meshTime ts)
        then set_meshMessageDeliveriesActive true ts else ts
      else ts
  end.

(** What [_refreshScores] does to the stats of a connected peer. *)
Definition decayPeer (now : Z) (ps : PeerStats) : PeerStats :=
  let ps := set_topics
              (map_imap (λ topic ts, Some (refreshTopic now topic ts))
                 (topics ps)) ps in
  set_behaviourPenalty
    (decayCounter (decayToZero params) (behaviourPenaltyDecay params)
       (behaviourPenalty ps)) ps.

(** The callback of [this.peerStats.forEach] in [_refreshScores]. *)
Definition refreshPeer (now : Z) (id : string) (pstats : PeerStats)
    (st : PeerScore) : PeerScore :=
  if negb (connected pstats) then
    if bool_decide (expire pstats < now) then
      set_peerStats (delete id (peerStats st))
        (set_peerIPs (_removeIPs id (ips pstats) (peerIPs st)) st)
    else st
  else putPeer id (decayPeer now pstats) st.

(** [_refreshScores()]. Each callback writes the entry of its own peer and
    takes that peer out of buckets, so the order in which the entries are
    visited does not matter. *)
Definition _refreshScores (now : Z) (st : PeerScore) : PeerScore :=
  map_fold (refreshPeer now) st (peerStats st).

(** [score(id)]. *)
Definition score (id : string) (st : PeerScore) : Q :=
  match peerStats st !! id with
  | None => 0%Q
  | Some pstats => computeScore params id pstats (peerIPs st)
  end.

(** [addPenalty(id, penalty)]. *)
Definition addPenalty (id : string) (penalty : Q) (st : PeerScore)
    : PeerScore :=
  match peerStats st !! id with
  | None => st
  | Some pstats =>
      putPeer id
        (set_behaviourPenalty (behaviourPenalty pstats + penalty)%Q pstats) st
  end.

(** [addPeer(id)]; [cm id] is what [_getIPs(id)] reads from the
    connection manager. *)
Definition addPeer (cm : string → list string) (id : string)
    (st : PeerScore) : PeerScore :=
  let pstats := createPeerStats true in
  let st := putPeer id pstats st in
  let ips' := cm id in
  let st := set_peerIPs (_setIPs id ips' (ips pstats) (peerIPs st)) st in
  putPeer id (set_ips ips' pstats) st.

(** The callback of the loop of [removePeer]; [None] when
    [this.params.topics[topic]] is [undefined]. *)
Definition removePeerTopic (topic : string) (ts : TopicStats)
    : option TopicStats :=
  let ts := set_firstMessageDeliveries 0%Q ts in
  tp ← topicParams params !! topic;
  let threshold := meshMessageDeliveriesThreshold tp in
  let ts :=
    if inMesh ts && meshMessageDeliveriesActive ts
       && Qltb (meshMessageDeliveries ts) threshold
    then
      let deficit := (threshold - meshMessageDeliveries ts)%Q in
      set_meshFailurePenalty (meshFailurePenalty ts + deficit * deficit)%Q ts
    else ts in
  Some (set_inMesh false ts).

(** [removePeer(id)]. *)
Definition removePeer (now : Z) (id : string) (st : PeerScore)
    : option PeerScore :=
  match peerStats st !! id with
  | None => Some st
  | Some pstats =>
      if Qlt_le_dec 0 (score id st) then
        Some (set_peerStats (delete id (peerStats st))
                (set_peerIPs (_removeIPs id (ips pstats) (peerIPs st)) st))
      else
        topics' ← forEachEntry removePeerTopic (topics pstats);
        let pstats := set_topics topics' pstats in
        let pstats := set_connected false pstats in
        let pstats := set_expire (now + retainScore params) pstats in
        Some (putPeer id pstats st)
  end.

(** [graft(id, topic)]. *)
Definition graft (now : Z) (id topic : string) (st : PeerScore)
    : PeerScore :=
  match peerStats st !! id with
  | None => st
  | Some pstats =>
      match ensureTopicStats topic pstats with
      | None => st
      | Some (ts, pstats) =>
          let ts := set_inMesh true ts in
          let ts := set_graftTime now ts in
          let ts := set_meshTime 0 ts in
          let ts := set_meshMessageDeliveriesActive false ts in
          putPeer id (putTopicStats topic ts pstats) st
      end
  end.

(** [prune(id, topic)]. *)
Definition prune (id topic : string) (st : PeerScore) : option PeerScore :=
  match peerStats st !! id with
  | None => Some st
  | Some pstats =>
      match ensureTopicStats topic pstats with
      | None => Some st
      | Some (ts, pstats) =>
          tp ← topicParams params !! topic;
          let threshold := meshMessageDeliveriesThreshold tp in
          let ts :=
            if meshMessageDeliveriesActive ts
               && Qltb (meshMessageDeliveries ts) threshold
            then
              let deficit := (threshold - meshMessageDeliveries ts)%Q in
              set_meshFailurePenalty
                (meshFailurePenalty ts + deficit * deficit)%Q ts
            else ts in
          Some (putPeer id (putTopicStats topic (set_inMesh false ts) pstats) st)
      end
  end.

(** [validateMessage(message)]. *)
Definition validateMessage (now : Z) (message : InMessage) (st : PeerScore)
    : PeerScore :=
  let '(_, md) := MessageDeliveries.ensureRecord TimeCacheDuration now
                    (msgId message) (deliveryRecords st) in
  set_deliveryRecords md st.

(** The callback of the loop of [_markInvalidMessageDelivery]. *)
Definition markInvalidTopic (topic : string) (pstats : PeerStats)
    : PeerStats :=
  match ensureTopicStats topic pstats with
  | None => pstats
  | Some (ts, pstats) =>
      putTopicStats topic
        (set_invalidMessageDeliveries (invalidMessageDeliveries ts + 1)%Q ts)
        pstats
  end.

(** [_markInvalidMessageDelivery(id, message)]. *)
Definition _markInvalidMessageDelivery (id : string) (message : InMessage)
    (st : PeerScore) : PeerScore :=
  match peerStats st !! id with
  | None => st
  | Some pstats =>
      putPeer id
        (foldl (λ ps topic, markInvalidTopic topic ps) pstats
           (topicIDs message)) st
  end.

(** The callback of the loop of [_markFirstMessageDelivery]; [None] when
    [this.params.topics[topic]] is [undefined]. *)
Definition markFirstTopic (topic : string) (pstats : PeerStats)
    : option PeerStats :=
  match ensureTopicStats topic pstats with
  | None => Some pstats
  | Some (ts, pstats) =>
      tp ← topicParams params !! topic;
      let ts := set_firstMessageDeliveries
                  (incrCapped (firstMessageDeliveriesCap tp)
                     (firstMessageDeliveries ts)) ts in
      if negb (inMesh ts) then Some (putTopicStats topic ts pstats)
      else
        let ts := set_meshMessageDeliveries
                    (incrCapped (meshMessageDeliveriesCap tp)
                       (meshMessageDeliveries ts)) ts in
        Some (putTopicStats topic ts pstats)
  end.

(** [_markFirstMessageDelivery(id, message)]. *)
Definition _markFirstMessageDelivery (id : string) (message : InMessage)
    (st : PeerScore) : option PeerScore :=
  match peerStats st !! id with
  | None => Some st
  | Some pstats =>
      pstats' ← forEachTopic markFirstTopic (topicIDs message) pstats;
      Some (putPeer id pstats' st)
  end.

(** The callback of the loop of [_markDuplicateMessageDelivery]; [now] is
    the local constant of the method, [0] when [validatedTime] is [0].
    An in-mesh topic without parameters makes it throw, at the window
    or at the cap. *)
Definition markDuplicateTopic (now validatedTime : Z) (topic : string)
    (pstats : PeerStats) : option PeerStats :=
  match ensureTopicStats topic pstats with
  | None => Some pstats
  | Some (ts, pstats) =>
      if negb (inMesh ts) then Some pstats
      else
        tparams ← topicParams params !! topic;
        if bool_decide (validatedTime ≠ 0)
           && bool_decide
                (validatedTime + meshMessageDeliveriesWindow tparams < now)
        then Some pstats
        else
          let ts := set_meshMessageDeliveries
                      (incrCapped (meshMessageDeliveriesCap tparams)
                         (meshMessageDeliveries ts)) ts in
          Some (putTopicStats topic ts pstats)
  end.

(** [_markDuplicateMessageDelivery(id, message, validatedTime = 0)];
    [clock] is what [Date.now()] returns. *)
Definition _markDuplicateMessageDelivery (clock : Z) (id : string)
    (message : InMessage) (validatedTime : Z) (st : PeerScore)
    : option PeerScore :=
  match peerStats st !! id with
  | None => Some st
  | Some pstats =>
      let now := if bool_decide (validatedTime ≠ 0) then clock else 0 in
      pstats' ← forEachTopic (markDuplicateTopic now validatedTime)
                  (topicIDs message) pstats;
      Some (putPeer id pstats' st)
  end.

(** [deliverMessage(message)]. *)
Definition deliverMessage (now : Z) (message : InMessage) (st : PeerScore)
    : option PeerScore :=
  let id := receivedFrom message in
  st ← _markFirstMessageDelivery id message st;
  let '(drec, md) := MessageDeliveries.ensureRecord TimeCacheDuration now
                       (msgId message) (deliveryRecords st) in
  let st := set_deliveryRecords md st in
  if bool_decide (status drec ≠ unknown) then Some st
  else
    let drec := set_status valid drec in
    let drec := set_validated now drec in
    let st := set_deliveryRecords
                (MessageDeliveries.putRecord (msgId message) drec md) st in
    forEachPeer
      (λ p st, if bool_decide (p ≠ id)
               then _markDuplicateMessageDelivery now p message 0 st
               else Some st)
      (elements (peers drec)) st.

(** [rejectMessage(message, reason)]. *)
Definition rejectMessage (now : Z) (message : InMessage) (reason : string)
    (st : PeerScore) : PeerScore :=
  let id := receivedFrom message in
  if isSignatureError reason then _markInvalidMessageDelivery id message st
  else
    let '(drec, md) := MessageDeliveries.ensureRecord TimeCacheDuration now
                         (msgId message) (deliveryRecords st) in
    let st := set_deliveryRecords md st in
    if bool_decide (status drec ≠ unknown) then st
    else if bool_decide (reason = ERR_TOPIC_VALIDATOR_IGNORE) then
      set_deliveryRecords
        (MessageDeliveries.putRecord (msgId message)
           (set_status ignored drec) md) st
    else
      let drec := set_status invalid drec in
      let st := set_deliveryRecords
                  (MessageDeliveries.putRecord (msgId message) drec md) st in
      let st := _markInvalidMessageDelivery id message st in
      foldl (λ st p, _markInvalidMessageDelivery p message st) st
        (elements (peers drec)).

(** [duplicateMessage(message)]. *)
Definition duplicateMessage (now : Z) (message : InMessage) (st : PeerScore)
    : option PeerScore :=
  let id := receivedFrom message in
  let '(drec, md) := MessageDeliveries.ensureRecord TimeCacheDuration now
                       (msgId message) (deliveryRecords st) in
  let st := set_deliveryRecords md st in
  if bool_decide (id ∈ peers drec) then Some st
  else
    match status drec with
    | unknown =>
        Some (set_deliveryRecords
                (MessageDeliveries.putRecord (msgId message)
                   (set_peers (peers drec ∪ {[id]}) drec) md) st)
    | valid =>
        let drec := set_peers (peers drec ∪ {[id]}) drec in
        let st := set_deliveryRecords
                    (MessageDeliveries.putRecord (msgId message) drec md)
                    st in
        _markDuplicateMessageDelivery now id message (validated drec) st
    | invalid => Some (_markInvalidMessageDelivery id message st)
    | ignored => Some st
    end.

(** The callback of [this.peerStats.forEach] in [_updateIPs]. *)
Definition updatePeerIPs (cm : string → list string) (id : string)
    (pstats : PeerStats) (st : PeerScore) : PeerScore :=
  let newIPs := cm id in
  let st := set_peerIPs (_setIPs id newIPs (ips pstats) (peerIPs st)) st in
  putPeer id (set_ips newIPs pstats) st.

(** [_updateIPs()]; here too each callback works on its own peer. *)
Definition _updateIPs (cm : string → list string) (st : PeerScore)
    : PeerScore :=
  map_fold (updatePeerIPs cm) st (peerStats st).

(** [background()]. *)
Definition background (now : Z) (cm : string → list string)
    (st : PeerScore) : PeerScore :=
  let st := _refreshScores now st in
  let st := _updateIPs cm st in
  set_deliveryRecords (MessageDeliveries.gc now (deliveryRecords st)) st.

(** ** Sequences of calls *)

(** A call of the engine with its arguments, the clock reading and, for
    the calls that ask the connection manager, its answer. *)
Inductive Call :=
| AddPeer (cm : string → list string) (id : string)
| RemovePeer (now : Z) (id : string)
| Graft (now : Z) (id topic : string)
| Prune (id topic : string)
| ValidateMessage (now : Z) (message : InMessage)
| DeliverMessage (now : Z) (message : InMessage)
| RejectMessage (now : Z) (message : InMessage) (reason : string)
| DuplicateMessage (now : Z) (message : InMessage)
| AddPenalty (id : string) (penalty : Q)
| RefreshScores (now : Z)
| UpdateIPs (cm : string → list string).

Definition call (c : Call) (st : PeerScore) : option PeerScore :=
  match c with
  | AddPeer cm id => Some (addPeer cm id st)
  | RemovePeer now id => removePeer now id st
  | Graft now id topic => Some (graft now id topic st)
  | Prune id topic => prune id topic st
  | ValidateMessage now m => Some (validateMessage now m st)
  | DeliverMessage now m => deliverMessage now m st
  | RejectMessage now m reason => Some (rejectMessage now m reason st)
  | DuplicateMessage now m => duplicateMessage now m st
  | AddPenalty id penalty => Some (addPenalty id penalty st)
  | RefreshScores now => Some (_refreshScores now st)
  | UpdateIPs cm => Some (_updateIPs cm st)
  end.

Fixpoint calls (cs : list Call) (st : PeerScore) : option PeerScore :=
  match cs with
  | [] => Some st
  | c :: cs' => st' ← call c st; calls cs' st'
  end.


End Engine.

(** ** Observations and predicates used by the statements *)

(** The statistics of [pstats] on [topic]: those of the entry when there
    is one, those of a fresh entry ([createTopicStats]) otherwise. *)
Definition statsOn (ps : PeerStats) (topic : string) : TopicStats :=
  default createTopicStats (topics ps !! topic).

(** The statistics the engine holds for peer [p] on [topic]; those of a
    fresh entry when the peer or the entry is absent. *)
Definition topicStatsOf (st : PeerScore) (p topic : string) : TopicStats :=
  from_option (λ ps, statsOn ps topic) createTopicStats (peerStats st !! p).

(** What the three marking loops do to the statistics of a scored topic,
    once per occurrence of the topic in [message.topicIDs]. *)
Definition creditInvalid (ts : TopicStats) : TopicStats :=
  set_invalidMessageDeliveries (invalidMessageDeliveries ts + 1)%Q ts.

Definition creditFirst (tp : TopicScoreParams) (ts : TopicStats) : TopicStats :=
  let ts := set_firstMessageDeliveries
              (incrCapped (firstMessageDeliveriesCap tp)
                 (firstMessageDeliveries ts)) ts in
  if inMesh ts
  then set_meshMessageDeliveries
         (incrCapped (meshMessageDeliveriesCap tp) (meshMessageDeliveries ts))
         ts
  else ts.

Definition creditDuplicate (tp : TopicScoreParams) (now validatedTime : Z)
    (ts : TopicStats) : TopicStats :=
  if inMesh ts
  then if bool_decide (validatedTime ≠ 0)
          && bool_decide (validatedTime + meshMessageDeliveriesWindow tp < now)
       then ts
       else set_meshMessageDeliveries
              (incrCapped (meshMessageDeliveriesCap tp)
                 (meshMessageDeliveries ts)) ts
  else ts.

(** The frame of the marking loops on [pstats]: everything but [topics]
    is kept. *)
Definition same_peer (ps ps' : PeerStats) : Prop :=
  connected ps' = connected ps ∧ expire ps' = expire ps
  ∧ behaviourPenalty ps' = behaviourPenalty ps ∧ ips ps' = ips ps.

(** The shape the three marking methods share: look the peer up, return
    when it is unknown, run the loop on its [pstats] otherwise. *)
Definition withPeer (id : string) (loop : PeerStats → option PeerStats)
    (st : PeerScore) : option PeerScore :=
  match peerStats st !! id with
  | None => Some st
  | Some pstats => pstats' ← loop pstats; Some (putPeer id pstats' st)
  end.

(** The delivery record of a message id, if any. *)
Definition recordOf (st : PeerScore) (mid : string) : option DeliveryRecord :=
  MessageDeliveries.records (deliveryRecords st) !! mid.

(** The number of times [topic] occurs in a list of topic ids. *)
Fixpoint occurrences (topic : string) (l : list string) : nat :=
  match l with
  | [] => 0%nat
  | t :: l' =>
      ((if bool_decide (t = topic) then 1 else 0) + occurrences topic l')%nat
  end.

Section Predicates.
Variable params : PeerScoreParams.
Local Open Scope Q_scope.

(** Every entry of [pstats.topics] is for a scored topic: the invariant
    [ensureTopicStats] maintains, under which no method throws. *)
Definition topics_scored (ps : PeerStats) : Prop :=
  map_Forall (λ topic _, is_Some (topicParams params !! topic)) (topics ps).

Definition well_formed (st : PeerScore) : Prop :=
  map_Forall (λ _ ps, topics_scored ps) (peerStats st).

Global Instance topics_scored_dec ps : Decision (topics_scored ps).
Proof. unfold topics_scored. apply _. Defined.

Global Instance well_formed_dec st : Decision (well_formed st).
Proof. unfold well_formed. apply _. Defined.

(** The bounds of the counters of one topic. *)
Definition topic_bounded (tp : TopicScoreParams) (ts : TopicStats) : Prop :=
  0 <= firstMessageDeliveries ts
  ∧ firstMessageDeliveries ts <= firstMessageDeliveriesCap tp
  ∧ 0 <= meshMessageDeliveries ts
  ∧ meshMessageDeliveries ts <= meshMessageDeliveriesCap tp
  ∧ 0 <= meshFailurePenalty ts
  ∧ 0 <= invalidMessageDeliveries ts.

Definition peer_bounded (ps : PeerStats) : Prop :=
  0 <= behaviourPenalty ps
  ∧ ∀ topic ts, topics ps !! topic = Some ts →
      ∃ tp, topicParams params !! topic = Some tp ∧ topic_bounded tp ts.

(** The counter bounds of the specification, for every peer and topic. *)
Definition counters_bounded (st : PeerScore) : Prop :=
  ∀ p ps, peerStats st !! p = Some ps → peer_bounded ps.

(** The bounds on the parameters the counter bounds rest on: caps that
    are not negative, decay factors of the capped counters that are at
    most 1, a [decayToZero] that is not negative. *)
Definition params_bounds : Prop :=
  0 <= decayToZero params
  ∧ ∀ topic tp, topicParams params !! topic = Some tp →
      0 <= firstMessageDeliveriesCap tp
      ∧ 0 <= meshMessageDeliveriesCap tp
      ∧ firstMessageDeliveriesDecay tp <= 1
      ∧ meshMessageDeliveriesDecay tp <= 1.

(** The penalty of an [AddPenalty] call is not negative. *)
Definition penalty_nonneg (c : Call) : Prop :=
  match c with
  | AddPenalty _ penalty => 0 <= penalty
  | _ => True
  end.
End Predicates.

(** What one run of [_refreshScores] at time [now] does to the entry of a
    peer: a connected peer is decayed, a disconnected one is dropped once
    [now > expire] and kept as it is until then. *)
Definition refreshEntry (params : PeerScoreParams) (now : Z) (ps : PeerStats)
    : option PeerStats :=
  if connected ps then Some (decayPeer params now ps)
  else if bool_decide (expire ps < now) then None else Some ps.

(** ** The decay law, as the specification words it *)

Section DecayLaw.
Local Open Scope Q_scope.

(** Whether the decayed value [x * decay^k] falls below [decayToZero] at
    one of the runs [1..n]. *)
Fixpoint fellBelow (decayToZero decay x : Q) (n : nat) : bool :=
  match n with
  | O => false
  | S k => fellBelow decayToZero decay x k
           || Qltb (x * decay ^ Z.of_nat (S k)) decayToZero
  end.

(** "initial × decay^n, clamped to 0 at decayToZero": the value is 0
    from the first run at which the decayed value falls below
    [decayToZero]. *)
Definition decayLaw (decayToZero decay x : Q) (n : nat) : Q :=
  if fellBelow decayToZero decay x n then 0 else x * decay ^ Z.of_nat n.
End DecayLaw.

(** ** Promises *)

(** The expiry of the promise of peer [p] for message [mid], if any. *)
Definition promiseOf (tr : IWantTracer.t) (mid p : string) : option Z :=
  IWantTracer.promises tr !! mid ≫= (.!! p).

(** Whether [p] has, among the promises [peers] for one message, a
    promise that expired before [now]. *)
Definition expiredFor (now : Z) (p : string) (peers : gmap string Z) : bool :=
  from_option (λ e, bool_decide (e < now)) false (peers !! p).

(** The number of message ids for which [p] has a promise that expired
    before [now]. *)
Definition brokenCount (now : Z) (proms : gmap string (gmap string Z))
    (p : string) : nat :=
  size (filter (λ kv, expiredFor now p kv.2) proms).

(** The promises of one message that have not expired before [now]. *)
Definition unexpired (now : Z) (peers : gmap string Z) : gmap string Z :=
  filter (λ kv, ¬ kv.2 < now) peers.

(** ** The IP index *)

(** The consistency of the IP index with the per-peer address lists. *)
Definition ip_index_consistent (st : PeerScore) : Prop :=
  (∀ ip p, p ∈ peersOfIP (peerIPs st) ip
           ↔ ∃ ps, peerStats st !! p = Some ps ∧ ip ∈ ips ps)
  ∧ (∀ ip, peerIPs st !! ip ≠ Some ∅).

(** A sequence of [addPeer], [removePeer] and [_updateIPs] calls in which
    [addPeer] is only called with an id the engine has no entry for. *)
Fixpoint adds_fresh (run : Call → PeerScore → option PeerScore)
    (cs : list Call) (st : PeerScore) : Prop :=
  match cs with
  | [] => True
  | c :: cs' =>
      match c with
      | AddPeer _ id => peerStats st !! id = None
      | RemovePeer _ _ | UpdateIPs _ => True
      | _ => False
      end
      ∧ ∀ st', run c st = Some st' → adds_fresh run cs' st'
  end.

(** The state [stop] must leave: no ticker, and the three maps empty. *)
Definition stopped (st : PeerScore) : Prop :=
  _backgroundInterval st = None
  ∧ peerStats st = ∅
  ∧ peerIPs st = ∅
  ∧ MessageDeliveries.records (deliveryRecords st) = ∅.

(** A sequence of calls in which [addPeer] is only called with an id the
    engine has no entry for; the other calls are not restricted. *)
Fixpoint adds_new (run : Call → PeerScore → option PeerScore)
    (cs : list Call) (st : PeerScore) : Prop :=
  match cs with
  | [] => True
  | c :: cs' =>
      match c with
      | AddPeer _ id => peerStats st !! id = None
      | _ => True
      end
      ∧ ∀ st', run c st = Some st' → adds_new run cs' st'
  end.

(** A call that leaves the IP index and the address list of every peer
    as they are. *)
Definition ips_frame (st st' : PeerScore) : Prop :=
  peerIPs st' = peerIPs st
  ∧ ∀ p, ips <$> peerStats st' !! p = ips <$> peerStats st !! p.

(** ** Concrete parameters, peers and messages *)

Module Ex.
(** One scored topic ["T"], with the parameters of the mesh-delivery
    scenario of the test suite. *)
Definition tparams : TopicScoreParams :=
  mkTopicScoreParams 1 0 1 3600 1 (9#10) 50 (-1) (9#10) 100 20 10 1000
    (-1) (9#10) (-1) (9#10).

Definition params : PeerScoreParams :=
  mkPeerScoreParams {[ "T" := tparams ]} 1000 (λ _, 0%Q) 1 (-1) 1 ∅ (-1) 0
    (99#100) 1000 (1#100) 800.

Definition msgId (m : InMessage) : string := data m.
Definition TimeCacheDuration : Z := 120000.

(** A connection manager without connections, and two with one. *)
Definition cm0 (id : string) : list string := [].
Definition cm1 (id : string) : list string := ["1.2.3.4"].
Definition cm2 (id : string) : list string := ["5.6.7.8"].

Definition msgA : InMessage := mkInMessage "A" ["T"] "m1".
Definition msgB : InMessage := mkInMessage "B" ["T"] "m1".

(** The state after a sequence of calls on a new engine (the new engine
    itself if a call throws). *)
Definition after (cs : list Call) : PeerScore :=
  default create (calls params msgId TimeCacheDuration cs create).
End Ex.

(** ** The scenarios of the test suite *)

Module Scenario.
(** Topic parameters with every weight at 0, to be overridden. *)
Definition tparams0 : TopicScoreParams :=
  mkTopicScoreParams 1 0 1 3600 0 (9#10) 50 0 (9#10) 100 20 10 1000
    0 (9#10) 0 (9#10).

(** Global parameters with every weight at 0 and one scored topic. *)
Definition params0 (tp : TopicScoreParams) : PeerScoreParams :=
  mkPeerScoreParams {[ "T" := tp ]} 0 (λ _, 0%Q) 0 0 1 ∅ 0 0 (99#100) 1000
    (1#100) 800.

(** Distinct messages on topic ["T"]: the [n]th has an id of length [n]. *)
Fixpoint tag (n : nat) : string :=
  match n with
  | O => EmptyString
  | S k => "m" +:+ tag k
  end.

Definition message (from : string) (n : nat) : InMessage :=
  mkInMessage from ["T"] (tag n).

(** [n] messages validated and delivered first by [from]. *)
Fixpoint deliveries (from : string) (n : nat) : list Call :=
  match n with
  | O => []
  | S k => deliveries from k
           ++ [ValidateMessage 5 (message from n);
               DeliverMessage 5 (message from n)]
  end.

(** [n] messages from [from] rejected by the topic validator. *)
Fixpoint rejections (from : string) (n : nat) : list Call :=
  match n with
  | O => []
  | S k => rejections from k
           ++ [RejectMessage 5 (message from n) ERR_TOPIC_VALIDATOR_REJECT]
  end.

(** [n] messages delivered first by ["A"], with a duplicate from ["B"] at
    once and one from ["C"] 15 ms later; the [n]th message arrives at
    [1000 + 20 * n]. *)
Fixpoint meshRounds (n : nat) : list Call :=
  match n with
  | O => []
  | S k =>
      let t := 1000 + 20 * Z.of_nat n in
      meshRounds k
      ++ [ValidateMessage t (message "A" n); DeliverMessage t (message "A" n);
          DuplicateMessage t (message "B" n);
          DuplicateMessage (t + 15) (message "C" n)]
  end.

(** The score of [id] after a sequence of calls on a new engine. *)
Definition scoreAfter (params : PeerScoreParams) (cs : list Call)
    (id : string) : option Q :=
  score params id <$> calls params Ex.msgId Ex.TimeCacheDuration cs create.

(** "should cap first message deliveries score" *)
Definition firstDeliveries : PeerScoreParams :=
  params0 (mkTopicScoreParams 1 0 1 3600 1 (9#10) 50 0 (9#10) 100 20 10 1000
             0 (9#10) 0 (9#10)).

(** "should score mesh message deliveries" *)
Definition meshDeliveries : PeerScoreParams :=
  params0 (mkTopicScoreParams 1 0 1 3600 0 (9#10) 50 (-1) (9#10) 100 20 10
             1000 0 (9#10) 0 (9#10)).

(** "should score mesh message failures" *)
Definition meshFailures : PeerScoreParams :=
  params0 (mkTopicScoreParams 1 0 1 3600 0 (9#10) 50 0 (9#10) 100 20 10 1000
             (-1) (9#10) 0 (9#10)).

(** "should score invalid message deliveries" *)
Definition invalidDeliveries : PeerScoreParams :=
  params0 (mkTopicScoreParams 1 0 1 3600 0 (9#10) 50 0 (9#10) 100 20 10 1000
             0 (9#10) (-1) (9#10)).

(** "should score w/ IP colocation" *)
Definition colocation : PeerScoreParams :=
  mkPeerScoreParams ∅ 0 (λ _, 0%Q) 0 (-1) 1 ∅ 0 0 (99#100) 1000 (1#100) 800.

Definition colocated (id : string) : list string :=
  if bool_decide (id = "A") then ["1.2.3.4"]
  else if bool_decide (id = "C") then ["2.3.4.5"; "3.4.5.6"]
  else ["2.3.4.5"].

(** "should score w/ behavior penalty" *)
Definition behaviour : PeerScoreParams :=
  mkPeerScoreParams ∅ 0 (λ _, 0%Q) 0 0 1 ∅ (-1) 0 (99#100) 1000 (1#100) 800.

(** "should handle score retention" *)
Definition retained : PeerScoreParams :=
  mkPeerScoreParams ∅ 0 (λ _, (-1000)%Q) 1 0 1 ∅ 0 0 (99#100) 1000 (1#100) 800.

(** Equality of an optional score with a number, up to [==]. *)
Definition scoreIs (o : option Q) (x : Q) : Prop :=
  match o with
  | Some y => (y == x)%Q
  | None => False
  end.
End Scenario.

(** * Properties *)

(** ** Arithmetic of the counters *)

Section CounterArith.
Local Open Scope Q_scope.

Lemma Qltb_true x y : Qltb x y = true ↔ x < y.
Proof.
  unfold Qltb. destruct (Qlt_le_dec x y); split; try done.
  intros H. exfalso. apply (Qlt_irrefl x). eapply Qlt_le_trans; eassumption.
Qed.

Lemma Qltb_false x y : Qltb x y = false ↔ y <= x.
Proof.
  unfold Qltb. destruct (Qlt_le_dec x y); split; try done.
  intros H. exfalso. apply (Qlt_irrefl x). eapply Qlt_le_trans; eassumption.
Qed.

Lemma incrCapped_bounds cap x :
  0 <= cap → 0 <= x → 0 <= incrCapped cap x ∧ incrCapped cap x <= cap.
Proof.
  intros Hc Hx. unfold incrCapped.
  destruct (Qlt_le_dec cap (x + 1)); split; lra.
Qed.

Lemma incrCapped_ge cap x : x <= cap → x <= incrCapped cap x.
Proof. intros H. unfold incrCapped. destruct (Qlt_le_dec cap (x + 1)); lra. Qed.

Lemma incrCapped_gt cap x : x < cap → x < incrCapped cap x.
Proof. intros H. unfold incrCapped. destruct (Qlt_le_dec cap (x + 1)); lra. Qed.

Lemma incrCapped_le_cap cap x : x <= cap → incrCapped cap x <= cap.
Proof. intros H. unfold incrCapped. destruct (Qlt_le_dec cap (x + 1)); lra. Qed.

Lemma decayCounter_nonneg dtz d x : 0 <= dtz → 0 <= decayCounter dtz d x.
Proof.
  intros H. unfold decayCounter. destruct (Qlt_le_dec (x * d) dtz); lra.
Qed.

Lemma decayCounter_le_cap dtz d x cap :
  0 <= cap → d <= 1 → 0 <= x → x <= cap → decayCounter dtz d x <= cap.
Proof.
  intros Hc Hd Hx Hxc. unfold decayCounter.
  destruct (Qlt_le_dec (x * d) dtz); [lra |]. nra.
Qed.

Lemma decayCounter_proper dtz d x y :
  x == y → decayCounter dtz d x == decayCounter dtz d y.
Proof.
  intros H. unfold decayCounter.
  destruct (Qlt_le_dec (x * d) dtz), (Qlt_le_dec (y * d) dtz);
    try reflexivity; nra.
Qed.
End CounterArith.

(** ** The decay law *)

Section DecayLawFacts.
Local Open Scope Q_scope.

Lemma Qpower_succ_nat d (n : nat) : d ^ Z.of_nat (S n) == d ^ Z.of_nat n * d.
Proof.
  rewrite Nat2Z.inj_succ. unfold Z.succ.
  rewrite Qpower_plus' by lia. by rewrite Qpower_1_r.
Qed.

(** [n] runs of the decay step of the code follow the law of the
    specification. *)
Lemma iter_decayCounter_law dtz d x n :
  Nat.iter n (decayCounter dtz d) x == decayLaw dtz d x n.
Proof.
  induction n as [|n IH].
  - change (x == x * 1). lra.
  - rewrite Nat.iter_succ. rewrite (decayCounter_proper _ _ _ _ IH).
    unfold decayLaw in *. cbn [fellBelow].
    destruct (fellBelow dtz d x n) eqn:Hfb; cbn [orb].
    + unfold decayCounter. destruct (Qlt_le_dec (0 * d) dtz); lra.
    + unfold decayCounter.
      pose proof (Qpower_succ_nat d n) as Hp.
      destruct (Qlt_le_dec (x * d ^ Z.of_nat n * d) dtz) as [Hlt | Hge].
      * assert (Qltb (x * d ^ Z.of_nat (S n)) dtz = true) as ->.
        { apply Qltb_true. rewrite Hp. lra. }
        reflexivity.
      * assert (Qltb (x * d ^ Z.of_nat (S n)) dtz = false) as ->.
        { apply Qltb_false. rewrite Hp. lra. }
        rewrite Hp. lra.
Qed.
End DecayLawFacts.

(** ** Per-topic statistics *)

Lemma statsOn_putTopicStats t ts ps T :
  statsOn (putTopicStats t ts ps) T
  = if decide (t = T) then ts else statsOn ps T.
Proof.
  unfold statsOn, putTopicStats. cbn.
  case_decide as Ht; [subst; by rewrite lookup_insert_eq |].
  by rewrite lookup_insert_ne.
Qed.

Lemma occurrences_elem_of T l : T ∈ l → (0 < occurrences T l)%nat.
Proof.
  induction l as [| t l IH]; [by intros ?%elem_of_nil |].
  intros [-> | Hin]%elem_of_cons; cbn.
  - rewrite bool_decide_eq_true_2 by done. lia.
  - specialize (IH Hin). lia.
Qed.

Lemma occurrences_not_elem_of T l : T ∉ l → occurrences T l = 0%nat.
Proof.
  induction l as [| u l IH]; [done |].
  intros [Hne Hni]%not_elem_of_cons. cbn.
  rewrite bool_decide_eq_false_2 by done. by rewrite IH.
Qed.

Lemma occurrences_NoDup T l : NoDup l → T ∈ l → occurrences T l = 1%nat.
Proof.
  induction 1 as [| t l Hni _ IH]; [by intros ?%elem_of_nil |].
  intros [-> | Hin]%elem_of_cons; cbn.
  - rewrite bool_decide_eq_true_2 by done.
    by rewrite occurrences_not_elem_of.
  - rewrite bool_decide_eq_false_2; [by rewrite IH |].
    intros ->. done.
Qed.

Section TopicFacts.
Variable params : PeerScoreParams.

Lemma ensureTopicStats_Some t ps ts ps1 :
  ensureTopicStats params t ps = Some (ts, ps1) →
  ts = statsOn ps t
  ∧ topics ps1 = <[t := ts]> (topics ps)
  ∧ connected ps1 = connected ps ∧ expire ps1 = expire ps
  ∧ behaviourPenalty ps1 = behaviourPenalty ps ∧ ips ps1 = ips ps
  ∧ (is_Some (topics ps !! t) ∨ is_Some (topicParams params !! t)).
Proof.
  unfold ensureTopicStats, statsOn.
  destruct (topics ps !! t) as [ts0|] eqn:Ht.
  - intros [= <- <-]. cbn. rewrite insert_id by done. eauto 10.
  - destruct (topicParams params !! t) eqn:Hp; [| done].
    intros [= <- <-]. cbn. eauto 10.
Qed.

Lemma ensureTopicStats_None t ps :
  ensureTopicStats params t ps = None →
  topics ps !! t = None ∧ topicParams params !! t = None.
Proof.
  unfold ensureTopicStats.
  destruct (topics ps !! t); [done |].
  by destruct (topicParams params !! t).
Qed.

Lemma ensureTopicStats_statsOn t ps ts ps1 T :
  ensureTopicStats params t ps = Some (ts, ps1) → statsOn ps1 T = statsOn ps T.
Proof.
  intros (-> & Htop & _)%ensureTopicStats_Some.
  unfold statsOn at 1. rewrite Htop.
  destruct (decide (t = T)) as [-> |];
    [by rewrite lookup_insert_eq | by rewrite lookup_insert_ne].
Qed.

(** The entries stay within the scored topics. *)
Lemma topics_scored_ensure t ps ts ps1 :
  ensureTopicStats params t ps = Some (ts, ps1) →
  topics_scored params ps → ∀ ts', topics_scored params (putTopicStats t ts' ps1).
Proof.
  intros Hens Hsc ts'.
  destruct (ensureTopicStats_Some _ _ _ _ Hens) as (_ & Htop & _ & _ & _ & _ & Hor).
  unfold topics_scored, putTopicStats. cbn. rewrite Htop, insert_insert_eq.
  apply map_Forall_insert_2; [| done].
  destruct Hor as [[ts0 Hts0] | Hp]; [by eapply Hsc | done].
Qed.

Lemma topics_scored_ensure_same t ps ts ps1 :
  ensureTopicStats params t ps = Some (ts, ps1) →
  topics_scored params ps → topics_scored params ps1.
Proof.
  intros Hens Hsc.
  pose proof (topics_scored_ensure _ _ _ _ Hens Hsc ts) as H.
  destruct (ensureTopicStats_Some _ _ _ _ Hens) as (_ & Htop & _).
  unfold topics_scored, putTopicStats in *. cbn in H.
  by rewrite Htop, insert_insert_eq, <- Htop in H.
Qed.

Lemma ensureTopicStats_params t ps ts ps1 :
  ensureTopicStats params t ps = Some (ts, ps1) →
  topics_scored params ps → is_Some (topicParams params !! t).
Proof.
  intros (_ & _ & _ & _ & _ & _ & [[ts0 H] | H])%ensureTopicStats_Some Hsc;
    [by eapply Hsc | done].
Qed.

Lemma same_peer_refl ps : same_peer ps ps.
Proof. by unfold same_peer. Qed.

Lemma same_peer_trans ps1 ps2 ps3 :
  same_peer ps1 ps2 → same_peer ps2 ps3 → same_peer ps1 ps3.
Proof. unfold same_peer. intuition congruence. Qed.

Lemma same_peer_ensure_put t ps ts ps1 ts' :
  ensureTopicStats params t ps = Some (ts, ps1) →
  same_peer ps (putTopicStats t ts' ps1).
Proof.
  intros (_ & _ & ? & ? & ? & ? & _)%ensureTopicStats_Some.
  by unfold same_peer, putTopicStats.
Qed.

Lemma same_peer_ensure t ps ts ps1 :
  ensureTopicStats params t ps = Some (ts, ps1) → same_peer ps ps1.
Proof. intros (_ & _ & ? & ? & ? & ? & _)%ensureTopicStats_Some. done. Qed.

Lemma statsOn_ensure_put t ps ts ps1 ts' T :
  ensureTopicStats params t ps = Some (ts, ps1) →
  statsOn (putTopicStats t ts' ps1) T
  = if decide (t = T) then ts' else statsOn ps T.
Proof.
  intros Hens. rewrite statsOn_putTopicStats.
  case_decide; [done |]. by eapply ensureTopicStats_statsOn.
Qed.
End TopicFacts.

(** ** The marking loops over [message.topicIDs] *)

Section MarkingLoop.
Variable params : PeerScoreParams.
(** A callback [f] of a marking loop and what it does to the statistics
    of a scored topic, [g]. *)
Variable f : string → PeerStats → option PeerStats.
Variable g : TopicScoreParams → TopicStats → TopicStats.

Hypothesis f_frame : ∀ t ps ps', f t ps = Some ps' → same_peer ps ps'.
Hypothesis f_scored : ∀ t ps ps',
  f t ps = Some ps' → topics_scored params ps → topics_scored params ps'.
Hypothesis f_stats : ∀ t ps ps' T tp,
  f t ps = Some ps' → topicParams params !! T = Some tp →
  statsOn ps' T = if decide (t = T) then g tp (statsOn ps T) else statsOn ps T.
Hypothesis f_total : ∀ t ps, topics_scored params ps → is_Some (f t ps).

Lemma forEachTopic_frame l : ∀ ps ps',
  forEachTopic f l ps = Some ps' → same_peer ps ps'.
Proof.
  induction l as [| t l IH]; intros ps ps'; cbn.
  - intros [= <-]. apply same_peer_refl.
  - destruct (f t ps) as [ps1|] eqn:Hf; [cbn | done].
    intros H. eapply same_peer_trans; eauto.
Qed.

Lemma forEachTopic_scored l : ∀ ps ps',
  forEachTopic f l ps = Some ps' →
  topics_scored params ps → topics_scored params ps'.
Proof.
  induction l as [| t l IH]; intros ps ps'; cbn.
  - by intros [= <-].
  - destruct (f t ps) as [ps1|] eqn:Hf; [cbn | done]. eauto.
Qed.

Lemma forEachTopic_stats l : ∀ ps ps' T tp,
  forEachTopic f l ps = Some ps' → topicParams params !! T = Some tp →
  statsOn ps' T = Nat.iter (occurrences T l) (g tp) (statsOn ps T).
Proof.
  induction l as [| t l IH]; intros ps ps' T tp; cbn [forEachTopic occurrences].
  - by intros [= <-].
  - destruct (f t ps) as [ps1|] eqn:Hf; [cbn | done].
    intros Hl Htp. rewrite (IH _ _ _ _ Hl Htp), (f_stats _ _ _ _ _ Hf Htp).
    case_decide as Ht.
    + rewrite bool_decide_eq_true_2 by done.
      by rewrite Nat.add_1_l, Nat.iter_succ_r.
    + by rewrite bool_decide_eq_false_2.
Qed.

Lemma forEachTopic_total l : ∀ ps,
  topics_scored params ps → is_Some (forEachTopic f l ps).
Proof.
  induction l as [| t l IH]; intros ps Hsc; cbn; [done |].
  destruct (f_total t ps Hsc) as [ps1 Hf]. rewrite Hf. cbn. eauto.
Qed.
End MarkingLoop.

Lemma forEachTopic_foldl (h : string → PeerStats → PeerStats) l : ∀ ps,
  forEachTopic (λ t ps, Some (h t ps)) l ps
  = Some (foldl (λ ps t, h t ps) ps l).
Proof. induction l as [| t l IH]; intros ps; cbn; [done | apply IH]. Qed.

Section MarkingCallbacks.
Variable params : PeerScoreParams.

Ltac ensure_cases t ps :=
  let Hens := fresh "Hens" in
  destruct (ensureTopicStats params t ps) as [[? ?] |] eqn:Hens.

(** [markInvalidTopic] *)
Lemma markInvalidTopic_frame t ps : same_peer ps (markInvalidTopic params t ps).
Proof.
  unfold markInvalidTopic. ensure_cases t ps.
  - by eapply same_peer_ensure_put.
  - apply same_peer_refl.
Qed.

Lemma markInvalidTopic_scored t ps :
  topics_scored params ps → topics_scored params (markInvalidTopic params t ps).
Proof.
  unfold markInvalidTopic. ensure_cases t ps; [| done].
  intros. by eapply topics_scored_ensure.
Qed.

Lemma markInvalidTopic_stats t ps T tp :
  topicParams params !! T = Some tp →
  statsOn (markInvalidTopic params t ps) T
  = if decide (t = T) then creditInvalid (statsOn ps T) else statsOn ps T.
Proof.
  intros Htp. unfold markInvalidTopic. ensure_cases t ps.
  - rewrite (statsOn_ensure_put _ _ _ _ _ _ _ Hens).
    case_decide; [subst | done].
    by destruct (ensureTopicStats_Some _ _ _ _ _ Hens) as (-> & _).
  - apply ensureTopicStats_None in Hens as [_ Hnone].
    case_decide; [subst; congruence | done].
Qed.

(** [markFirstTopic] *)
Lemma markFirstTopic_frame t ps ps' :
  markFirstTopic params t ps = Some ps' → same_peer ps ps'.
Proof.
  unfold markFirstTopic. ensure_cases t ps.
  - destruct (topicParams params !! t) as [tp|]; [cbn | done].
    destruct (negb _); intros [= <-]; by eapply same_peer_ensure_put.
  - intros [= <-]. apply same_peer_refl.
Qed.

Lemma markFirstTopic_scored t ps ps' :
  markFirstTopic params t ps = Some ps' →
  topics_scored params ps → topics_scored params ps'.
Proof.
  unfold markFirstTopic. ensure_cases t ps.
  - destruct (topicParams params !! t) as [tp|]; [cbn | done].
    destruct (negb _); intros [= <-] ?; by eapply topics_scored_ensure.
  - by intros [= <-].
Qed.

Lemma markFirstTopic_stats t ps ps' T tp :
  markFirstTopic params t ps = Some ps' →
  topicParams params !! T = Some tp →
  statsOn ps' T
  = if decide (t = T) then creditFirst tp (statsOn ps T) else statsOn ps T.
Proof.
  intros Hm Htp. unfold markFirstTopic in Hm. ensure_cases t ps.
  - destruct (ensureTopicStats_Some _ _ _ _ _ Hens) as (-> & _).
    destruct (topicParams params !! t) as [tp'|] eqn:Htp'; [cbn in Hm | done].
    unfold creditFirst. cbn.
    destruct (inMesh (statsOn ps t)) eqn:Hmesh; cbn in Hm;
      injection Hm as <-; rewrite (statsOn_ensure_put _ _ _ _ _ _ _ Hens);
      case_decide; subst; try done; rewrite ?Hmesh; congruence.
  - injection Hm as <-.
    apply ensureTopicStats_None in Hens as [_ Hnone].
    case_decide; [subst; congruence | done].
Qed.

Lemma markFirstTopic_total t ps :
  topics_scored params ps → is_Some (markFirstTopic params t ps).
Proof.
  intros Hsc. unfold markFirstTopic. ensure_cases t ps; [| done].
  destruct (ensureTopicStats_params _ _ _ _ _ Hens Hsc) as [tp ->]. cbn.
  by destruct (negb _).
Qed.

(** [markDuplicateTopic] *)
Lemma markDuplicateTopic_frame now v t ps ps' :
  markDuplicateTopic params now v t ps = Some ps' → same_peer ps ps'.
Proof.
  unfold markDuplicateTopic. ensure_cases t ps.
  - destruct (negb _).
    { intros [= <-]. by eapply same_peer_ensure. }
    destruct (topicParams params !! t) as [tp|]; [cbn | done].
    destruct (_ && _); intros [= <-];
      [by eapply same_peer_ensure | by eapply same_peer_ensure_put].
  - intros [= <-]. apply same_peer_refl.
Qed.

Lemma markDuplicateTopic_scored now v t ps ps' :
  markDuplicateTopic params now v t ps = Some ps' →
  topics_scored params ps → topics_scored params ps'.
Proof.
  unfold markDuplicateTopic. ensure_cases t ps.
  - destruct (negb _).
    { intros [= <-] ?. by eapply topics_scored_ensure_same. }
    destruct (topicParams params !! t) as [tp|]; [cbn | done].
    destruct (_ && _); intros [= <-] ?;
      [by eapply topics_scored_ensure_same | by eapply topics_scored_ensure].
  - by intros [= <-].
Qed.

Lemma markDuplicateTopic_stats now v t ps ps' T tp :
  markDuplicateTopic params now v t ps = Some ps' →
  topicParams params !! T = Some tp →
  statsOn ps' T
  = if decide (t = T) then creditDuplicate tp now v (statsOn ps T)
    else statsOn ps T.
Proof.
  intros Hm Htp. unfold markDuplicateTopic in Hm. ensure_cases t ps.
  - destruct (ensureTopicStats_Some _ _ _ _ _ Hens) as (-> & _).
    destruct (inMesh (statsOn ps t)) eqn:Hmesh; cbn in Hm.
    + destruct (topicParams params !! t) as [tp'|] eqn:Htp'; [cbn in Hm | done].
      destruct (_ && _) eqn:Hwin in Hm; injection Hm as <-.
      * rewrite (ensureTopicStats_statsOn _ _ _ _ _ T Hens).
        destruct (decide (t = T)); [subst | done]. unfold creditDuplicate.
        rewrite Hmesh. replace tp with tp' by congruence. by rewrite Hwin.
      * rewrite (statsOn_ensure_put _ _ _ _ _ _ _ Hens).
        destruct (decide (t = T)); [subst | done]. unfold creditDuplicate.
        rewrite Hmesh. replace tp with tp' by congruence. by rewrite Hwin.
    + injection Hm as <-.
      rewrite (ensureTopicStats_statsOn _ _ _ _ _ T Hens).
      destruct (decide (t = T)); [subst | done]. unfold creditDuplicate. by rewrite Hmesh.
  - injection Hm as <-.
    apply ensureTopicStats_None in Hens as [_ Hnone].
    destruct (decide (t = T)); [subst; congruence | done].
Qed.

Lemma markDuplicateTopic_total now v t ps :
  topics_scored params ps → is_Some (markDuplicateTopic params now v t ps).
Proof.
  intros Hsc. unfold markDuplicateTopic. ensure_cases t ps; [| done].
  destruct (negb _); [done |].
  destruct (ensureTopicStats_params _ _ _ _ _ Hens Hsc) as [tp ->]. cbn.
  by destruct (_ && _).
Qed.
End MarkingCallbacks.

(** ** The marking methods on the engine *)

Lemma withPeer_unknown id loop st :
  peerStats st !! id = None → withPeer id loop st = Some st.
Proof. intros H. unfold withPeer. by rewrite H. Qed.

Lemma withPeer_Some id loop st st' :
  withPeer id loop st = Some st' →
  (peerStats st !! id = None ∧ st' = st)
  ∨ (∃ ps ps', peerStats st !! id = Some ps ∧ loop ps = Some ps'
               ∧ st' = putPeer id ps' st).
Proof.
  unfold withPeer. destruct (peerStats st !! id) as [ps|] eqn:Hid.
  - destruct (loop ps) as [ps'|] eqn:Hl; [cbn | done].
    intros [= <-]. right. eauto.
  - intros [= <-]. by left.
Qed.

Lemma withPeer_total id loop st :
  (∀ ps, peerStats st !! id = Some ps → is_Some (loop ps)) →
  is_Some (withPeer id loop st).
Proof.
  intros H. unfold withPeer. destruct (peerStats st !! id) as [ps|]; [| done].
  destruct (H ps eq_refl) as [ps' ->]. done.
Qed.

(** A marking method touches the statistics of its peer only. *)
Lemma withPeer_frame id loop st st' :
  withPeer id loop st = Some st' →
  peerIPs st' = peerIPs st
  ∧ deliveryRecords st' = deliveryRecords st
  ∧ _backgroundInterval st' = _backgroundInterval st
  ∧ (∀ q, q ≠ id → peerStats st' !! q = peerStats st !! q)
  ∧ (∀ q, peerStats st' !! q = None ↔ peerStats st !! q = None).
Proof.
  intros [[Hid ->] | (ps & ps' & Hid & Hl & ->)]%withPeer_Some; [done |].
  cbn. repeat split; try done.
  - intros q Hq. by rewrite lookup_insert_ne.
  - destruct (decide (id = q)) as [<- |];
      [rewrite lookup_insert_eq; congruence | by rewrite lookup_insert_ne].
  - destruct (decide (id = q)) as [<- |];
      [rewrite lookup_insert_eq; congruence | by rewrite lookup_insert_ne].
Qed.

Lemma forEachPeer_invariant (I : PeerScore → Prop)
    (f : string → PeerScore → option PeerScore) l :
  (∀ p st st', f p st = Some st' → I st → I st') →
  ∀ st st', forEachPeer f l st = Some st' → I st → I st'.
Proof.
  intros Hf. induction l as [| p l IH]; intros st st'; cbn.
  - by intros [= <-].
  - destruct (f p st) as [st1|] eqn:Hp; [cbn | done]. eauto.
Qed.

Lemma forEachPeer_total (I : PeerScore → Prop)
    (f : string → PeerScore → option PeerScore) l :
  (∀ p st st', f p st = Some st' → I st → I st') →
  (∀ p st, I st → is_Some (f p st)) →
  ∀ st, I st → is_Some (forEachPeer f l st).
Proof.
  intros Hf Ht. induction l as [| p l IH]; intros st HI; cbn; [done |].
  destruct (Ht p st HI) as [st1 Hp]. rewrite Hp. cbn. eauto.
Qed.

Lemma foldl_invariant {A B} (I : A → Prop) (f : A → B → A) l :
  (∀ a b, I a → I (f a b)) → ∀ a, I a → I (foldl f a l).
Proof. intros Hf. induction l as [| b l IH]; intros a Ha; cbn; eauto. Qed.

Section MarkingMethods.
Variable params : PeerScoreParams.

Lemma markInvalid_withPeer id msg st :
  Some (_markInvalidMessageDelivery params id msg st)
  = withPeer id (forEachTopic (λ t ps, Some (markInvalidTopic params t ps))
                   (topicIDs msg)) st.
Proof.
  unfold _markInvalidMessageDelivery, withPeer.
  destruct (peerStats st !! id); [| done].
  by rewrite forEachTopic_foldl.
Qed.

Lemma markFirst_withPeer id msg st :
  _markFirstMessageDelivery params id msg st
  = withPeer id (forEachTopic (markFirstTopic params) (topicIDs msg)) st.
Proof. reflexivity. Qed.

Lemma markDuplicate_withPeer clock id msg v st :
  _markDuplicateMessageDelivery params clock id msg v st
  = withPeer id
      (forEachTopic
         (markDuplicateTopic params
            (if bool_decide (v ≠ 0) then clock else 0) v)
         (topicIDs msg)) st.
Proof. reflexivity. Qed.

Lemma well_formed_putPeer id ps st :
  topics_scored params ps → well_formed params st →
  well_formed params (putPeer id ps st).
Proof. intros Hps Hst. unfold well_formed. cbn. by apply map_Forall_insert_2. Qed.

(** The three marking loops keep the entries within the scored topics
    and, on such statistics, do not throw. *)
Lemma markInvalid_loop_scored l ps ps' :
  forEachTopic (λ t ps, Some (markInvalidTopic params t ps)) l ps = Some ps' →
  topics_scored params ps → topics_scored params ps'.
Proof.
  apply forEachTopic_scored. intros t p p' [= <-].
  apply markInvalidTopic_scored.
Qed.

Lemma markFirst_loop_scored l ps ps' :
  forEachTopic (markFirstTopic params) l ps = Some ps' →
  topics_scored params ps → topics_scored params ps'.
Proof. apply forEachTopic_scored, markFirstTopic_scored. Qed.

Lemma markDuplicate_loop_scored now v l ps ps' :
  forEachTopic (markDuplicateTopic params now v) l ps = Some ps' →
  topics_scored params ps → topics_scored params ps'.
Proof. apply forEachTopic_scored, markDuplicateTopic_scored. Qed.

Lemma markFirst_loop_total l ps :
  topics_scored params ps →
  is_Some (forEachTopic (markFirstTopic params) l ps).
Proof.
  apply forEachTopic_total;
    [apply markFirstTopic_scored | apply markFirstTopic_total].
Qed.

Lemma markDuplicate_loop_total now v l ps :
  topics_scored params ps →
  is_Some (forEachTopic (markDuplicateTopic params now v) l ps).
Proof.
  apply forEachTopic_total;
    [apply markDuplicateTopic_scored | apply markDuplicateTopic_total].
Qed.

(** On the engine: well-formedness is kept, and no marking method throws
    on a well-formed engine. *)
Lemma withPeer_well_formed id loop st st' :
  (∀ ps ps', loop ps = Some ps' →
             topics_scored params ps → topics_scored params ps') →
  withPeer id loop st = Some st' →
  well_formed params st → well_formed params st'.
Proof.
  intros Hloop [[_ ->] | (ps & ps' & Hid & Hl & ->)]%withPeer_Some Hwf;
    [done |].
  apply well_formed_putPeer; [| done].
  eapply Hloop; [done |]. by eapply Hwf.
Qed.

Lemma markInvalid_well_formed id msg st :
  well_formed params st →
  well_formed params (_markInvalidMessageDelivery params id msg st).
Proof.
  intros Hwf. eapply withPeer_well_formed; [| symmetry; apply markInvalid_withPeer | done].
  apply markInvalid_loop_scored.
Qed.

Lemma markFirst_well_formed id msg st st' :
  _markFirstMessageDelivery params id msg st = Some st' →
  well_formed params st → well_formed params st'.
Proof. apply withPeer_well_formed, markFirst_loop_scored. Qed.

Lemma markDuplicate_well_formed clock id msg v st st' :
  _markDuplicateMessageDelivery params clock id msg v st = Some st' →
  well_formed params st → well_formed params st'.
Proof. apply withPeer_well_formed, markDuplicate_loop_scored. Qed.

Lemma markFirst_total id msg st :
  (∀ ps, peerStats st !! id = Some ps → topics_scored params ps) →
  is_Some (_markFirstMessageDelivery params id msg st).
Proof.
  intros H. apply withPeer_total. intros ps Hps.
  by apply markFirst_loop_total, H.
Qed.

Lemma markDuplicate_total clock id msg v st :
  (∀ ps, peerStats st !! id = Some ps → topics_scored params ps) →
  is_Some (_markDuplicateMessageDelivery params clock id msg v st).
Proof.
  intros H. apply withPeer_total. intros ps Hps.
  by apply markDuplicate_loop_total, H.
Qed.
End MarkingMethods.

Section MarkInvalidFrame.
Variable params : PeerScoreParams.

Lemma markInvalid_frame id msg st :
  let st' := _markInvalidMessageDelivery params id msg st in
  peerIPs st' = peerIPs st
  ∧ deliveryRecords st' = deliveryRecords st
  ∧ _backgroundInterval st' = _backgroundInterval st
  ∧ (∀ q, q ≠ id → peerStats st' !! q = peerStats st !! q)
  ∧ (∀ q, peerStats st' !! q = None ↔ peerStats st !! q = None).
Proof.
  intros st'. eapply withPeer_frame. symmetry. apply markInvalid_withPeer.
Qed.

Lemma markInvalid_unknown id msg st :
  peerStats st !! id = None →
  _markInvalidMessageDelivery params id msg st = st.
Proof. intros H. unfold _markInvalidMessageDelivery. by rewrite H. Qed.
End MarkInvalidFrame.

(** ** Delivery records *)

Lemma set_deliveryRecords_same st :
  set_deliveryRecords (deliveryRecords st) st = st.
Proof. by destruct st. Qed.

Lemma ensureRecord_existing tcd now mid md drec :
  MessageDeliveries.records md !! mid = Some drec →
  MessageDeliveries.ensureRecord tcd now mid md = (drec, md).
Proof. intros H. unfold MessageDeliveries.ensureRecord. by rewrite H. Qed.

(** ** Repeated credits *)

Section Credits.
Local Open Scope Q_scope.

Lemma iter_creditInvalid n ts :
  invalidMessageDeliveries (Nat.iter n creditInvalid ts)
  == invalidMessageDeliveries ts + inject_Z (Z.of_nat n).
Proof.
  induction n as [| n IH].
  - change (invalidMessageDeliveries ts == invalidMessageDeliveries ts + 0).
    lra.
  - rewrite Nat.iter_succ. cbn [creditInvalid invalidMessageDeliveries
                                 set_invalidMessageDeliveries].
    rewrite IH, Nat2Z.inj_succ. unfold Z.succ. rewrite inject_Z_plus.
    change (inject_Z 1) with 1. lra.
Qed.

Lemma iter_creditDuplicate_skip tp now v n ts :
  inMesh ts = false
  ∨ (v ≠ 0 ∧ v + meshMessageDeliveriesWindow tp < now)%Z →
  Nat.iter n (creditDuplicate tp now v) ts = ts.
Proof.
  intros H. induction n as [| n IH]; [done |].
  rewrite Nat.iter_succ, IH. unfold creditDuplicate.
  destruct (inMesh ts); [| done].
  destruct H as [? | [? ?]]; [done |].
  by rewrite !bool_decide_eq_true_2.
Qed.

Lemma iter_creditDuplicate_count tp now v n ts :
  inMesh ts = true →
  (v = 0 ∨ now ≤ v + meshMessageDeliveriesWindow tp)%Z →
  Nat.iter n (creditDuplicate tp now v) ts
  = set_meshMessageDeliveries
      (Nat.iter n (incrCapped (meshMessageDeliveriesCap tp))
         (meshMessageDeliveries ts)) ts.
Proof.
  intros Hmesh Hwin. induction n as [| n IH].
  - by destruct ts.
  - rewrite !Nat.iter_succ, IH. unfold creditDuplicate. cbn.
    rewrite Hmesh.
    assert (bool_decide (v ≠ 0%Z)
            && bool_decide (v + meshMessageDeliveriesWindow tp < now)%Z
            = false) as ->; [| done].
    destruct Hwin as [-> | Hle].
    + by rewrite bool_decide_eq_false_2 by (intros H; by apply H).
    + rewrite (bool_decide_eq_false_2 (_ < _)%Z) by lia.
      apply andb_false_r.
Qed.

Lemma iter_incrCapped_range cap n x :
  x <= cap →
  x <= Nat.iter n (incrCapped cap) x ∧ Nat.iter n (incrCapped cap) x <= cap.
Proof.
  intros Hx. induction n as [| n [IH1 IH2]]; [cbn; lra |].
  rewrite Nat.iter_succ. split.
  - pose proof (incrCapped_ge cap _ IH2). lra.
  - by apply incrCapped_le_cap.
Qed.

Lemma iter_incrCapped_gt cap n x :
  (0 < n)%nat → x < cap → x < Nat.iter n (incrCapped cap) x.
Proof.
  intros Hn Hx. destruct n as [| n]; [lia |].
  rewrite Nat.iter_succ_r.
  pose proof (incrCapped_gt cap x Hx) as Hgt.
  assert (incrCapped cap x <= cap) as Hle by (apply incrCapped_le_cap; lra).
  destruct (iter_incrCapped_range cap n _ Hle) as [H _]. lra.
Qed.
End Credits.

(** ** The IP index *)

Lemma peersOfIP_insert idx ip s ip' :
  peersOfIP (<[ip := s]> idx) ip' = if decide (ip = ip') then s else peersOfIP idx ip'.
Proof.
  unfold peersOfIP. case_decide; [subst; by rewrite lookup_insert_eq |].
  by rewrite lookup_insert_ne.
Qed.

Lemma peersOfIP_delete idx ip ip' :
  peersOfIP (delete ip idx) ip' = if decide (ip = ip') then ∅ else peersOfIP idx ip'.
Proof.
  unfold peersOfIP. case_decide; [subst; by rewrite lookup_delete_eq |].
  by rewrite lookup_delete_ne.
Qed.

Lemma removeIP_elem id ip idx ip' q :
  q ∈ peersOfIP (removeIP id ip idx) ip'
  ↔ q ∈ peersOfIP idx ip' ∧ ¬ (q = id ∧ ip' = ip).
Proof.
  unfold removeIP. destruct (idx !! ip) as [s|] eqn:Hip.
  - case_decide as Hsz.
    + apply size_empty_inv in Hsz. rewrite peersOfIP_delete.
      case_decide; [subst ip' | set_solver].
      unfold peersOfIP. rewrite Hip. cbn. set_solver.
    + rewrite peersOfIP_insert. case_decide; [subst ip' | set_solver].
      unfold peersOfIP. rewrite Hip. cbn. set_solver.
  - split; [| by intros [? _]]. intros Hq. split; [done |].
    intros [-> ->]. unfold peersOfIP in Hq. rewrite Hip in Hq. set_solver.
Qed.

Lemma removeIP_nonempty id ip idx :
  (∀ ip', idx !! ip' ≠ Some ∅) → ∀ ip', removeIP id ip idx !! ip' ≠ Some ∅.
Proof.
  intros Hne ip'. unfold removeIP. destruct (idx !! ip) as [s|] eqn:Hip; [| done].
  case_decide as Hsz.
  - destruct (decide (ip = ip')) as [<- |];
      [by rewrite lookup_delete_eq | by rewrite lookup_delete_ne].
  - destruct (decide (ip = ip')) as [<- |]; [| by rewrite lookup_insert_ne].
    rewrite lookup_insert_eq. intros [= Hemp]. rewrite Hemp in Hsz.
    by rewrite size_empty in Hsz.
Qed.

Lemma _removeIPs_elem id l : ∀ idx ip' q,
  q ∈ peersOfIP (_removeIPs id l idx) ip'
  ↔ q ∈ peersOfIP idx ip' ∧ ¬ (q = id ∧ ip' ∈ l).
Proof.
  unfold _removeIPs. induction l as [| ip l IH]; intros idx ip' q; cbn.
  - set_solver.
  - rewrite IH, removeIP_elem. set_solver.
Qed.

Lemma _removeIPs_nonempty id l : ∀ idx,
  (∀ ip', idx !! ip' ≠ Some ∅) → ∀ ip', _removeIPs id l idx !! ip' ≠ Some ∅.
Proof.
  unfold _removeIPs. induction l as [| ip l IH]; intros idx Hne; cbn; [done |].
  by apply IH, removeIP_nonempty.
Qed.

(** ** [_refreshScores], entry by entry *)

Section Refresh.
Variable params : PeerScoreParams.

Lemma refreshPeer_fold now (m : gmap string PeerStats) (st0 : PeerScore) :
  m ⊆ peerStats st0 →
  let acc := map_fold (refreshPeer params now) st0 m in
  (∀ p, peerStats acc !! p
        = match m !! p with
          | Some ps => refreshEntry params now ps
          | None => peerStats st0 !! p
          end)
  ∧ deliveryRecords acc = deliveryRecords st0
  ∧ _backgroundInterval acc = _backgroundInterval st0
  ∧ (∀ ip q, q ∈ peersOfIP (peerIPs acc) ip
             ↔ q ∈ peersOfIP (peerIPs st0) ip
               ∧ ¬ (∃ ps, m !! q = Some ps ∧ connected ps = false
                          ∧ expire ps < now ∧ ip ∈ ips ps))
  ∧ ((∀ ip, peerIPs st0 !! ip ≠ Some ∅) → ∀ ip, peerIPs acc !! ip ≠ Some ∅).
Proof.
  cbn. apply (map_fold_weak_ind (λ acc m,
    m ⊆ peerStats st0 →
    (∀ p, peerStats acc !! p
          = match m !! p with
            | Some ps => refreshEntry params now ps
            | None => peerStats st0 !! p
            end)
    ∧ deliveryRecords acc = deliveryRecords st0
    ∧ _backgroundInterval acc = _backgroundInterval st0
    ∧ (∀ ip q, q ∈ peersOfIP (peerIPs acc) ip
               ↔ q ∈ peersOfIP (peerIPs st0) ip
                 ∧ ¬ (∃ ps, m !! q = Some ps ∧ connected ps = false
                            ∧ expire ps < now ∧ ip ∈ ips ps))
    ∧ ((∀ ip, peerIPs st0 !! ip ≠ Some ∅) →
       ∀ ip, peerIPs acc !! ip ≠ Some ∅))); clear m.
  - intros _.
    split; [done |]. split; [done |]. split; [done |]. split; [| done].
    intros ip q. split; [| by intros [? _]].
    intros Hq. split; [done |]. intros (ps & Hps & _).
    by rewrite lookup_empty in Hps.
  - intros id x m r Hid IH Hsub.
    assert (peerStats st0 !! id = Some x) as Hidx.
    { eapply lookup_weaken; [| exact Hsub]. apply lookup_insert_eq. }
    destruct IH as (Hstats & Hrecs & Hint & Hips & Hne).
    { etrans; [| exact Hsub]. by apply insert_subseteq. }
    unfold refreshPeer.
    assert (∀ p, p ≠ id →
              match <[id := x]> m !! p with
              | Some ps => refreshEntry params now ps
              | None => peerStats st0 !! p
              end = peerStats r !! p) as Hother.
    { intros p Hp. by rewrite lookup_insert_ne, Hstats. }
    assert (∀ ip q (extra : Prop),
              (extra ↔ q = id ∧ connected x = false ∧ expire x < now
                       ∧ ip ∈ ips x) →
              (q ∈ peersOfIP (peerIPs r) ip ∧ ¬ extra
               ↔ q ∈ peersOfIP (peerIPs st0) ip
                 ∧ ¬ (∃ ps, <[id := x]> m !! q = Some ps
                            ∧ connected ps = false
                            ∧ expire ps < now ∧ ip ∈ ips ps))) as Hbucket.
    { intros ip q extra Hextra. rewrite Hips, Hextra. split.
      - intros [[Hq Hno] Hnx]. split; [done |].
        intros (ps & Hps & Hc & He & Hin).
        destruct (decide (id = q)) as [<- |].
        + rewrite lookup_insert_eq in Hps. injection Hps as <-. by apply Hnx.
        + rewrite lookup_insert_ne in Hps by done. apply Hno. eauto.
      - intros [Hq Hno]. split; [split; [done |] |].
        + intros (ps & Hps & Hc & He & Hin). apply Hno. exists ps.
          rewrite lookup_insert_ne; [done |]. congruence.
        + intros (-> & Hc & He & Hin). apply Hno. exists x.
          by rewrite lookup_insert_eq. }
    destruct (connected x) eqn:Hconn; cbn [negb].
    + (* a connected peer is decayed *)
      split; [| split; [done | split; [done | split; [| done]]]].
      * intros p. destruct (decide (p = id)) as [-> |].
        -- cbn. rewrite !lookup_insert_eq. unfold refreshEntry.
           by rewrite Hconn.
        -- cbn. rewrite (lookup_insert_ne (peerStats r)) by done.
           symmetry. by apply Hother.
      * intros ip q. cbn. rewrite <- (Hbucket ip q False); [tauto |].
        split; [done |]. intros (_ & ? & _). done.
    + case_bool_decide as Hexp.
      * (* an expired peer is dropped, with its addresses *)
        split; [| split; [done | split; [done | split]]].
        -- intros p. destruct (decide (p = id)) as [-> |].
           ++ cbn. rewrite lookup_delete_eq, lookup_insert_eq.
              unfold refreshEntry.
              by rewrite Hconn, bool_decide_eq_true_2.
           ++ cbn. rewrite lookup_delete_ne by done.
              symmetry. by apply Hother.
        -- intros ip q. cbn. rewrite _removeIPs_elem.
           apply Hbucket. tauto.
        -- intros Hne0. cbn. by apply _removeIPs_nonempty, Hne.
      * (* a retained peer is kept as it is *)
        split; [| split; [done | split; [done | split; [| done]]]].
        -- intros p. destruct (decide (p = id)) as [-> |].
           ++ rewrite lookup_insert_eq. unfold refreshEntry.
              rewrite Hconn, bool_decide_eq_false_2 by done.
              by rewrite Hstats, Hid.
           ++ symmetry. by apply Hother.
        -- intros ip q. rewrite <- (Hbucket ip q False); [tauto |].
           split; [done |]. intros (_ & _ & ? & _). done.
Qed.

(** What a run of [_refreshScores] does, entry by entry. *)
Lemma refresh_lookup now st p :
  peerStats (_refreshScores params now st) !! p
  = peerStats st !! p ≫= refreshEntry params now.
Proof.
  destruct (refreshPeer_fold now (peerStats st) st) as (H & _); [done |].
  unfold _refreshScores. rewrite H. by destruct (peerStats st !! p).
Qed.

Lemma refresh_frame now st :
  deliveryRecords (_refreshScores params now st) = deliveryRecords st
  ∧ _backgroundInterval (_refreshScores params now st)
    = _backgroundInterval st.
Proof.
  destruct (refreshPeer_fold now (peerStats st) st) as (_ & ? & ? & _); done.
Qed.

Lemma refresh_peerIPs now st ip q :
  q ∈ peersOfIP (peerIPs (_refreshScores params now st)) ip
  ↔ q ∈ peersOfIP (peerIPs st) ip
    ∧ ¬ (∃ ps, peerStats st !! q = Some ps ∧ connected ps = false
               ∧ expire ps < now ∧ ip ∈ ips ps).
Proof.
  destruct (refreshPeer_fold now (peerStats st) st) as (_ & _ & _ & H & _);
    [done |].
  apply H.
Qed.

Lemma refresh_nonempty now st :
  (∀ ip, peerIPs st !! ip ≠ Some ∅) →
  ∀ ip, peerIPs (_refreshScores params now st) !! ip ≠ Some ∅.
Proof.
  destruct (refreshPeer_fold now (peerStats st) st) as (_ & _ & _ & _ & H);
    [done |].
  apply H.
Qed.
End Refresh.

(** ** Loops over the entries of [pstats.topics] *)

Lemma forEachEntry_Some f m :
  map_Forall (λ topic ts, is_Some (f topic ts)) m →
  forEachEntry f m = Some (map_imap f m).
Proof. intros H. unfold forEachEntry. by rewrite decide_True. Qed.

Lemma forEachEntry_inv f m m' :
  forEachEntry f m = Some m' →
  m' = map_imap f m ∧ map_Forall (λ topic ts, is_Some (f topic ts)) m.
Proof. unfold forEachEntry. case_decide; [by intros [= <-] | done]. Qed.

Section RemovePeerFacts.
Variable params : PeerScoreParams.

Lemma removePeerTopic_total ps :
  topics_scored params ps →
  map_Forall (λ topic ts, is_Some (removePeerTopic params topic ts))
    (topics ps).
Proof.
  intros Hsc topic ts Hts. destruct (Hsc topic ts Hts) as [tp Htp].
  unfold removePeerTopic. rewrite Htp. cbn. by eexists.
Qed.

(** [removePeer] on a peer whose score is not positive. *)
Lemma removePeer_retained now id st ps :
  peerStats st !! id = Some ps →
  topics_scored params ps →
  (score params id st <= 0)%Q →
  removePeer params now id st
  = Some (putPeer id
            (set_expire (now + retainScore params)
               (set_connected false
                  (set_topics (map_imap (removePeerTopic params) (topics ps))
                     ps))) st).
Proof.
  intros Hps Hsc Hscore. unfold removePeer. rewrite Hps.
  destruct (Qlt_le_dec 0 (score params id st)) as [Hpos | _]; [lra |].
  rewrite forEachEntry_Some by by apply removePeerTopic_total.
  done.
Qed.
End RemovePeerFacts.

(** ** Decay of a connected peer *)

Section DecayFacts.
Variable params : PeerScoreParams.

Lemma decayPeer_topics now ps T :
  topics (decayPeer params now ps) !! T
  = refreshTopic params now T <$> topics ps !! T.
Proof.
  unfold decayPeer. cbn. rewrite map_lookup_imap.
  by destruct (topics ps !! T).
Qed.

Lemma refreshTopic_counters now T tp ts :
  topicParams params !! T = Some tp →
  let dtz := decayToZero params in
  let ts' := refreshTopic params now T ts in
  firstMessageDeliveries ts'
  = decayCounter dtz (firstMessageDeliveriesDecay tp)
      (firstMessageDeliveries ts)
  ∧ meshMessageDeliveries ts'
    = decayCounter dtz (meshMessageDeliveriesDecay tp)
        (meshMessageDeliveries ts)
  ∧ meshFailurePenalty ts'
    = decayCounter dtz (meshFailurePenaltyDecay tp) (meshFailurePenalty ts)
  ∧ invalidMessageDeliveries ts'
    = decayCounter dtz (invalidMessageDeliveriesDecay tp)
        (invalidMessageDeliveries ts).
Proof.
  intros Htp. cbn. unfold refreshTopic. rewrite Htp. cbn.
  destruct (inMesh ts); [| done]. by case_bool_decide.
Qed.

Lemma refresh_connected now st p ps :
  peerStats st !! p = Some ps → connected ps = true →
  peerStats (_refreshScores params now st) !! p
  = Some (decayPeer params now ps).
Proof.
  intros Hps Hc. rewrite refresh_lookup, Hps. cbn.
  unfold refreshEntry. by rewrite Hc.
Qed.

End DecayFacts.

(** ** The counter bounds, method by method *)

Lemma forEachTopic_invariant (I : PeerStats → Prop)
    (f : string → PeerStats → option PeerStats) l :
  (∀ t ps ps', f t ps = Some ps' → I ps → I ps') →
  ∀ ps ps', forEachTopic f l ps = Some ps' → I ps → I ps'.
Proof.
  intros Hf. induction l as [| t l IH]; intros ps ps'; cbn.
  - by intros [= <-].
  - destruct (f t ps) as [ps1|] eqn:Ht; [cbn | done]. eauto.
Qed.

Section Bounds.
Variable params : PeerScoreParams.
Hypothesis Hparams : params_bounds params.
Local Open Scope Q_scope.

Lemma peer_bounded_scored ps : peer_bounded params ps → topics_scored params ps.
Proof.
  intros [_ H] topic ts Hts. destruct (H topic ts Hts) as (tp & -> & _). done.
Qed.

Lemma counters_bounded_well_formed st :
  counters_bounded params st → well_formed params st.
Proof. intros H p ps Hps. by eapply peer_bounded_scored, H. Qed.

Lemma topic_bounded_fresh topic tp :
  topicParams params !! topic = Some tp → topic_bounded tp createTopicStats.
Proof.
  intros Htp. destruct Hparams as [_ H].
  destruct (H topic tp Htp) as (? & ? & _).
  unfold topic_bounded. cbn. repeat split; lra.
Qed.

Lemma peer_bounded_fresh b l : peer_bounded params (set_ips l (createPeerStats b)).
Proof. split; cbn; [lra |]. intros topic ts. by rewrite lookup_empty. Qed.

Lemma counters_bounded_putPeer id ps st :
  peer_bounded params ps → counters_bounded params st →
  counters_bounded params (putPeer id ps st).
Proof.
  intros Hps Hst p ps'. cbn.
  destruct (decide (id = p)) as [<- |].
  - rewrite lookup_insert_eq. by intros [= <-].
  - rewrite lookup_insert_ne by done. apply Hst.
Qed.

Lemma counters_bounded_delete id st m :
  counters_bounded params st →
  counters_bounded params
    (set_peerStats (delete id (peerStats st)) (set_peerIPs m st)).
Proof.
  intros Hst p ps. cbn. intros [_ Hps]%lookup_delete_Some. by eapply Hst.
Qed.

(** After [ensureTopicStats]: the entry is within its bounds, and
    writing bounded statistics back keeps the peer bounded. *)
Lemma bounded_ensure t ps ts ps1 :
  ensureTopicStats params t ps = Some (ts, ps1) →
  peer_bounded params ps →
  ∃ tp, topicParams params !! t = Some tp
    ∧ topic_bounded tp ts
    ∧ peer_bounded params ps1
    ∧ ∀ ts', topic_bounded tp ts' → peer_bounded params (putTopicStats t ts' ps1).
Proof.
  intros Hens [Hbp Htop].
  assert (∃ tp, topicParams params !! t = Some tp ∧ topic_bounded tp ts)
    as (tp & Htp & Hts).
  { unfold ensureTopicStats in Hens.
    destruct (topics ps !! t) as [ts0|] eqn:Ht.
    - injection Hens as <- <-. by apply Htop.
    - destruct (topicParams params !! t) as [tp|] eqn:Htp; [| done].
      injection Hens as <- <-. exists tp. split; [done |].
      by eapply topic_bounded_fresh. }
  destruct (ensureTopicStats_Some _ _ _ _ _ Hens)
    as (_ & Htopics & _ & _ & Hbp1 & _).
  assert (∀ ts', topic_bounded tp ts' →
            peer_bounded params (putTopicStats t ts' ps1)) as Hput.
  { intros ts' Hts'. split; cbn; [by rewrite Hbp1 |].
    intros T x. rewrite Htopics, insert_insert_eq.
    destruct (decide (t = T)) as [<- |].
    - rewrite lookup_insert_eq. intros [= <-]. eauto.
    - rewrite lookup_insert_ne by done. apply Htop. }
  exists tp. split; [done |]. split; [done |]. split; [| done].
  specialize (Hput ts Hts). unfold putTopicStats in Hput.
  rewrite Htopics, insert_insert_eq, <- Htopics in Hput. by destruct ps1.
Qed.

Lemma markInvalidTopic_bounded t ps :
  peer_bounded params ps → peer_bounded params (markInvalidTopic params t ps).
Proof.
  intros Hps. unfold markInvalidTopic.
  destruct (ensureTopicStats params t ps) as [[ts ps1]|] eqn:Hens; [| done].
  destruct (bounded_ensure _ _ _ _ Hens Hps) as (tp & _ & Hts & _ & Hput).
  apply Hput. unfold topic_bounded in *. cbn. intuition lra.
Qed.

Lemma markFirstTopic_bounded t ps ps' :
  markFirstTopic params t ps = Some ps' →
  peer_bounded params ps → peer_bounded params ps'.
Proof.
  unfold markFirstTopic. intros Hm Hps.
  destruct (ensureTopicStats params t ps) as [[ts ps1]|] eqn:Hens;
    [| by injection Hm as <-].
  destruct (bounded_ensure _ _ _ _ Hens Hps) as (tp & Htp & Hts & _ & Hput).
  rewrite Htp in Hm. cbn in Hm.
  destruct Hparams as [_ Hcaps]. destruct (Hcaps t tp Htp) as (Hc1 & Hc2 & _).
  destruct Hts as (? & ? & ? & ? & ? & ?).
  destruct (incrCapped_bounds (firstMessageDeliveriesCap tp)
              (firstMessageDeliveries ts)) as [? ?]; [done | done |].
  destruct (incrCapped_bounds (meshMessageDeliveriesCap tp)
              (meshMessageDeliveries ts)) as [? ?]; [done | done |].
  destruct (negb (inMesh ts)); injection Hm as <-; apply Hput;
    unfold topic_bounded; cbn; intuition.
Qed.

Lemma markDuplicateTopic_bounded now v t ps ps' :
  markDuplicateTopic params now v t ps = Some ps' →
  peer_bounded params ps → peer_bounded params ps'.
Proof.
  unfold markDuplicateTopic. intros Hm Hps.
  destruct (ensureTopicStats params t ps) as [[ts ps1]|] eqn:Hens;
    [| by injection Hm as <-].
  destruct (bounded_ensure _ _ _ _ Hens Hps) as (tp & Htp & Hts & Hps1 & Hput).
  destruct (negb (inMesh ts)); [by injection Hm as <- |].
  rewrite Htp in Hm. cbn in Hm.
  destruct (_ && _); injection Hm as <-; [done |].
  destruct Hparams as [_ Hcaps]. destruct (Hcaps t tp Htp) as (Hc1 & Hc2 & _).
  destruct Hts as (? & ? & ? & ? & ? & ?).
  destruct (incrCapped_bounds (meshMessageDeliveriesCap tp)
              (meshMessageDeliveries ts)) as [? ?]; [done | done |].
  apply Hput. unfold topic_bounded; cbn; intuition.
Qed.

(** The marking methods keep the bounds. *)
Lemma withPeer_bounded id loop st st' :
  (∀ ps ps', loop ps = Some ps' →
             peer_bounded params ps → peer_bounded params ps') →
  withPeer id loop st = Some st' →
  counters_bounded params st → counters_bounded params st'.
Proof.
  intros Hloop [[_ ->] | (ps & ps' & Hid & Hl & ->)]%withPeer_Some Hb;
    [done |].
  apply counters_bounded_putPeer; [| done]. eapply Hloop; [done |].
  by eapply Hb.
Qed.

Lemma markInvalid_bounded id msg st :
  counters_bounded params st →
  counters_bounded params (_markInvalidMessageDelivery params id msg st).
Proof.
  intros Hb.
  eapply withPeer_bounded; [| symmetry; apply markInvalid_withPeer | done].
  apply forEachTopic_invariant. intros t ps ps' [= <-].
  apply markInvalidTopic_bounded.
Qed.

Lemma markFirst_bounded id msg st st' :
  _markFirstMessageDelivery params id msg st = Some st' →
  counters_bounded params st → counters_bounded params st'.
Proof.
  apply withPeer_bounded, forEachTopic_invariant, markFirstTopic_bounded.
Qed.

Lemma markDuplicate_bounded clock id msg v st st' :
  _markDuplicateMessageDelivery params clock id msg v st = Some st' →
  counters_bounded params st → counters_bounded params st'.
Proof.
  apply withPeer_bounded, forEachTopic_invariant, markDuplicateTopic_bounded.
Qed.
End Bounds.

Section BoundsOfHooks.
Variable params : PeerScoreParams.
Variable msgId : InMessage → string.
Variable TimeCacheDuration : Z.
Hypothesis Hparams : params_bounds params.
Local Open Scope Q_scope.

Lemma updateIPs_lookup cm st p :
  peerStats (_updateIPs cm st) !! p = set_ips (cm p) <$> peerStats st !! p.
Proof.
  unfold _updateIPs.
  assert (∀ m : gmap string PeerStats,
            peerStats (map_fold (updatePeerIPs cm) st m) !! p
            = match m !! p with
              | Some ps => Some (set_ips (cm p) ps)
              | None => peerStats st !! p
              end) as H.
  { intros m.
    apply (map_fold_weak_ind (λ acc m,
             peerStats acc !! p
             = match m !! p with
               | Some ps => Some (set_ips (cm p) ps)
               | None => peerStats st !! p
               end)); [done |].
    intros id x m' r Hid IH. unfold updatePeerIPs. cbn.
    destruct (decide (id = p)) as [<- |];
      [by rewrite !lookup_insert_eq | by rewrite !lookup_insert_ne]. }
  rewrite H. by destruct (peerStats st !! p).
Qed.

Lemma addPenalty_bounded id x st :
  0 <= x → counters_bounded params st →
  counters_bounded params (addPenalty id x st).
Proof.
  intros Hx Hb. unfold addPenalty.
  destruct (peerStats st !! id) as [ps|] eqn:Hps; [| done].
  apply counters_bounded_putPeer; [| done].
  destruct (Hb id ps Hps) as [Hbp Htop]. split; cbn; [lra | done].
Qed.

Lemma addPeer_bounded cm id st :
  counters_bounded params st → counters_bounded params (addPeer cm id st).
Proof.
  intros Hb p ps. unfold addPeer. cbn. rewrite insert_insert_eq.
  destruct (decide (id = p)) as [<- |].
  - rewrite lookup_insert_eq. intros [= <-]. apply peer_bounded_fresh.
  - rewrite lookup_insert_ne by done. apply Hb.
Qed.

Lemma graft_bounded now id topic st :
  counters_bounded params st → counters_bounded params (graft params now id topic st).
Proof.
  intros Hb. unfold graft.
  destruct (peerStats st !! id) as [ps|] eqn:Hps; [| done].
  destruct (ensureTopicStats params topic ps) as [[ts ps1]|] eqn:Hens; [| done].
  destruct (bounded_ensure _ Hparams _ _ _ _ Hens (Hb id ps Hps))
    as (tp & _ & Hts & _ & Hput).
  apply counters_bounded_putPeer; [| done]. apply Hput. exact Hts.
Qed.

Lemma deficit_penalty_nonneg x threshold m :
  0 <= x → 0 <= x + (threshold - m) * (threshold - m).
Proof.
  intros Hx. pose proof (Qsqr_nonneg (threshold - m)) as Hsq.
  change ((threshold - m) ^ 2) with ((threshold - m) * (threshold - m))
    in Hsq.
  lra.
Qed.

Lemma prune_bounded id topic st :
  counters_bounded params st →
  ∃ st', prune params id topic st = Some st' ∧ counters_bounded params st'.
Proof.
  intros Hb. unfold prune.
  destruct (peerStats st !! id) as [ps|] eqn:Hps; [| by eexists].
  destruct (ensureTopicStats params topic ps) as [[ts ps1]|] eqn:Hens;
    [| by eexists].
  destruct (bounded_ensure _ Hparams _ _ _ _ Hens (Hb id ps Hps))
    as (tp & Htp & Hts & _ & Hput).
  rewrite Htp. cbn. eexists. split; [done |].
  apply counters_bounded_putPeer; [| done]. apply Hput.
  destruct Hts as (? & ? & ? & ? & ? & ?).
  destruct (_ && _); unfold topic_bounded; cbn; repeat split; try done.
  by apply deficit_penalty_nonneg.
Qed.

Lemma removePeerTopic_bounded topic tp ts ts' :
  topicParams params !! topic = Some tp →
  removePeerTopic params topic ts = Some ts' →
  topic_bounded tp ts → topic_bounded tp ts'.
Proof.
  intros Htp Hrm (? & ? & ? & ? & ? & ?). unfold removePeerTopic in Hrm.
  rewrite Htp in Hrm. cbn in Hrm. injection Hrm as <-.
  destruct Hparams as [_ Hcaps]. destruct (Hcaps topic tp Htp) as (? & _).
  destruct (_ && _); unfold topic_bounded; cbn; repeat split; try done;
    try lra.
  by apply deficit_penalty_nonneg.
Qed.

Lemma removePeer_bounded now id st :
  counters_bounded params st →
  ∃ st', removePeer params now id st = Some st' ∧ counters_bounded params st'.
Proof.
  intros Hb. unfold removePeer.
  destruct (peerStats st !! id) as [ps|] eqn:Hps; [| by eexists].
  destruct (Qlt_le_dec 0 (score params id st)).
  { eexists. split; [done |]. by apply counters_bounded_delete. }
  pose proof (Hb id ps Hps) as [Hbp Htop].
  rewrite forEachEntry_Some.
  2:{ apply removePeerTopic_total. by apply peer_bounded_scored, (Hb id). }
  cbn. eexists. split; [done |].
  apply counters_bounded_putPeer; [| done]. split; cbn; [done |].
  intros topic ts'. rewrite map_lookup_imap.
  destruct (topics ps !! topic) as [ts|] eqn:Hts; [cbn | done].
  intros Hrm. destruct (Htop topic ts Hts) as (tp & Htp & Hbts).
  exists tp. split; [done |]. by eapply removePeerTopic_bounded.
Qed.

Lemma refreshTopic_bounded now topic tp ts :
  topicParams params !! topic = Some tp →
  topic_bounded tp ts → topic_bounded tp (refreshTopic params now topic ts).
Proof.
  intros Htp (? & ? & ? & ? & ? & ?).
  destruct (refreshTopic_counters params now topic tp ts Htp)
    as (E1 & E2 & E3 & E4).
  destruct Hparams as [Hdtz Hcaps].
  destruct (Hcaps topic tp Htp) as (? & ? & ? & ?).
  unfold topic_bounded. rewrite E1, E2, E3, E4.
  repeat split; try (by apply decayCounter_nonneg);
    by apply decayCounter_le_cap.
Qed.

Lemma decayPeer_bounded now ps :
  peer_bounded params ps → peer_bounded params (decayPeer params now ps).
Proof.
  intros [Hbp Htop]. split.
  - cbn. apply decayCounter_nonneg. by destruct Hparams.
  - intros topic ts'. rewrite decayPeer_topics.
    destruct (topics ps !! topic) as [ts|] eqn:Hts; [cbn | done].
    intros [= <-]. destruct (Htop topic ts Hts) as (tp & Htp & Hbts).
    exists tp. split; [done |]. by apply refreshTopic_bounded.
Qed.

Lemma refresh_bounded now st :
  counters_bounded params st →
  counters_bounded params (_refreshScores params now st).
Proof.
  intros Hb p ps'. rewrite refresh_lookup.
  destruct (peerStats st !! p) as [ps|] eqn:Hps; [cbn | done].
  unfold refreshEntry. destruct (connected ps).
  - intros [= <-]. by apply decayPeer_bounded, (Hb p).
  - case_bool_decide; [done |]. intros [= <-]. by apply (Hb p).
Qed.

Lemma updateIPs_bounded cm st :
  counters_bounded params st → counters_bounded params (_updateIPs cm st).
Proof.
  intros Hb p ps'. rewrite updateIPs_lookup.
  destruct (peerStats st !! p) as [ps|] eqn:Hps; [cbn | done].
  intros [= <-]. destruct (Hb p ps Hps) as [? ?]. by split.
Qed.

Lemma deliver_bounded now msg st :
  counters_bounded params st →
  ∃ st', deliverMessage params msgId TimeCacheDuration now msg st = Some st'
         ∧ counters_bounded params st'.
Proof.
  intros Hb. unfold deliverMessage.
  destruct (markFirst_total params (receivedFrom msg) msg st) as [st1 Hm].
  { intros ps Hps. by apply peer_bounded_scored, (Hb (receivedFrom msg)). }
  rewrite Hm. cbn.
  pose proof (markFirst_bounded _ Hparams _ _ _ _ Hm Hb) as Hb1.
  destruct (MessageDeliveries.ensureRecord _ _ _ _) as [drec md].
  case_bool_decide; [by eexists |].
  match goal with |- ∃ st', forEachPeer ?f ?l ?s0 = _ ∧ _ =>
    assert (∀ p s s', f p s = Some s' →
              counters_bounded params s → counters_bounded params s')
      as Hpres;
    [| assert (∀ p s, counters_bounded params s → is_Some (f p s)) as Htot;
       [| destruct (forEachPeer_total _ f l Hpres Htot s0) as [st' Hst'];
          [done |];
          exists st'; split; [done |];
          by apply (forEachPeer_invariant _ f l Hpres _ _ Hst') ] ]
  end.
  - intros p s s'. cbn. case_bool_decide; [| by intros [= <-]].
    by apply markDuplicate_bounded.
  - intros p s Hs. cbn. case_bool_decide; [| done].
    apply markDuplicate_total. intros ps Hps.
    by apply peer_bounded_scored, (Hs p).
Qed.

Lemma reject_bounded now msg reason st :
  counters_bounded params st →
  counters_bounded params
    (rejectMessage params msgId TimeCacheDuration now msg reason st).
Proof.
  intros Hb. unfold rejectMessage.
  destruct (isSignatureError reason); [by apply markInvalid_bounded |].
  destruct (MessageDeliveries.ensureRecord _ _ _ _) as [drec md].
  case_bool_decide; [done |]. case_bool_decide; [done |].
  apply foldl_invariant.
  - intros s p Hs. by apply markInvalid_bounded.
  - by apply markInvalid_bounded.
Qed.

Lemma duplicate_bounded now msg st :
  counters_bounded params st →
  ∃ st', duplicateMessage params msgId TimeCacheDuration now msg st = Some st'
         ∧ counters_bounded params st'.
Proof.
  intros Hb. unfold duplicateMessage.
  destruct (MessageDeliveries.ensureRecord _ _ _ _) as [drec md].
  case_bool_decide; [by eexists |].
  destruct (status drec).
  - by eexists.
  - match goal with |- ∃ st', ?m = _ ∧ _ =>
      destruct m as [st'|] eqn:Hm
    end.
    + exists st'. split; [done |].
      eapply (markDuplicate_bounded _ Hparams); [exact Hm | exact Hb].
    + exfalso. eapply is_Some_None. rewrite <- Hm.
      apply markDuplicate_total. intros ps Hps.
      by apply peer_bounded_scored, (Hb (receivedFrom msg)).
  - eexists. split; [done |]. by apply markInvalid_bounded.
  - by eexists.
Qed.

(** Every call keeps the bounds and returns. *)
Lemma call_bounded c st :
  penalty_nonneg c → counters_bounded params st →
  ∃ st', call params msgId TimeCacheDuration c st = Some st'
         ∧ counters_bounded params st'.
Proof.
  intros Hc Hb. destruct c; cbn [call].
  - eexists. split; [done |]. by apply addPeer_bounded.
  - by apply removePeer_bounded.
  - eexists. split; [done |]. by apply graft_bounded.
  - by apply prune_bounded.
  - eexists. split; [done |]. unfold validateMessage.
    by destruct (MessageDeliveries.ensureRecord _ _ _ _).
  - by apply deliver_bounded.
  - eexists. split; [done |]. by apply reject_bounded.
  - by apply duplicate_bounded.
  - eexists. split; [done |]. by apply addPenalty_bounded.
  - eexists. split; [done |]. by apply refresh_bounded.
  - eexists. split; [done |]. by apply updateIPs_bounded.
Qed.
End BoundsOfHooks.

(** ** [_setIPs] and the consistency of the IP index *)

Lemma addIP_elem id ip idx ip' q :
  q ∈ peersOfIP (addIP id ip idx) ip'
  ↔ q ∈ peersOfIP idx ip' ∨ (q = id ∧ ip' = ip).
Proof.
  unfold addIP. rewrite peersOfIP_insert.
  case_decide; [subst ip' |]; set_solver.
Qed.

Lemma addIP_nonempty id ip idx :
  (∀ ip', idx !! ip' ≠ Some ∅) → ∀ ip', addIP id ip idx !! ip' ≠ Some ∅.
Proof.
  intros Hne ip'. unfold addIP.
  destruct (decide (ip = ip')) as [<- |]; [| by rewrite lookup_insert_ne].
  rewrite lookup_insert_eq. intros [= Hemp]. set_solver.
Qed.

Lemma setIPs_add_elem id (old l : list string) : ∀ idx ip' q,
  q ∈ peersOfIP
        (foldl (λ idx ip, if bool_decide (ip ∈ old) then idx
                          else addIP id ip idx) idx l) ip'
  ↔ q ∈ peersOfIP idx ip' ∨ (q = id ∧ ip' ∈ l ∧ ip' ∉ old).
Proof.
  induction l as [| ip l IH]; intros idx ip' q; cbn.
  - set_solver.
  - rewrite IH. case_bool_decide; [| rewrite addIP_elem]; set_solver.
Qed.

Lemma setIPs_add_nonempty id (old l : list string) : ∀ idx,
  (∀ ip', idx !! ip' ≠ Some ∅) →
  ∀ ip', foldl (λ idx ip, if bool_decide (ip ∈ old) then idx
                          else addIP id ip idx) idx l !! ip' ≠ Some ∅.
Proof.
  induction l as [| ip l IH]; intros idx Hne; cbn; [done |].
  apply IH. case_bool_decide; [done |]. by apply addIP_nonempty.
Qed.

Lemma setIPs_remove_elem id (new l : list string) : ∀ idx ip' q,
  q ∈ peersOfIP
        (foldl (λ idx ip, if bool_decide (ip ∈ new) then idx
                          else removeIP id ip idx) idx l) ip'
  ↔ q ∈ peersOfIP idx ip' ∧ ¬ (q = id ∧ ip' ∈ l ∧ ip' ∉ new).
Proof.
  induction l as [| ip l IH]; intros idx ip' q; cbn.
  - set_solver.
  - rewrite IH. case_bool_decide; [| rewrite removeIP_elem]; set_solver.
Qed.

Lemma setIPs_remove_nonempty id (new l : list string) : ∀ idx,
  (∀ ip', idx !! ip' ≠ Some ∅) →
  ∀ ip', foldl (λ idx ip, if bool_decide (ip ∈ new) then idx
                          else removeIP id ip idx) idx l !! ip' ≠ Some ∅.
Proof.
  induction l as [| ip l IH]; intros idx Hne; cbn; [done |].
  apply IH. case_bool_decide; [done |]. by apply removeIP_nonempty.
Qed.

Lemma _setIPs_elem id new old idx ip q :
  q ∈ peersOfIP (_setIPs id new old idx) ip
  ↔ (q ∈ peersOfIP idx ip ∨ (q = id ∧ ip ∈ new ∧ ip ∉ old))
    ∧ ¬ (q = id ∧ ip ∈ old ∧ ip ∉ new).
Proof. unfold _setIPs. by rewrite setIPs_remove_elem, setIPs_add_elem. Qed.

Lemma _setIPs_nonempty id new old idx :
  (∀ ip, idx !! ip ≠ Some ∅) → ∀ ip, _setIPs id new old idx !! ip ≠ Some ∅.
Proof.
  intros Hne. unfold _setIPs.
  by apply setIPs_remove_nonempty, setIPs_add_nonempty.
Qed.

(** Reconciling the addresses of a peer against the list the engine holds
    for it keeps the index consistent. *)
Lemma updatePeerIPs_consistent cm id ps st :
  peerStats st !! id = Some ps →
  ip_index_consistent st → ip_index_consistent (updatePeerIPs cm id ps st).
Proof.
  intros Hps [Hidx Hne]. unfold updatePeerIPs. split; cbn.
  - intros ip q. rewrite _setIPs_elem, Hidx.
    destruct (decide (q = id)) as [-> |].
    + rewrite lookup_insert_eq. split.
      * intros [[(ps' & Hps' & Hin) | (_ & Hin & _)] Hno].
        -- replace ps' with ps in * by congruence.
           exists (set_ips (cm id) ps). split; [done |]. cbn.
           destruct (decide (ip ∈ cm id)); [done |]. exfalso. by apply Hno.
        -- by exists (set_ips (cm id) ps).
      * intros (ps' & [= <-] & Hin). cbn in Hin. split.
        -- destruct (decide (ip ∈ ips ps)); [left; eauto | right; done].
        -- intros (_ & _ & ?). done.
    + rewrite lookup_insert_ne by done. split.
      * intros [[? | (? & _)] _]; done.
      * intros ?. split; [by left |]. intros (? & _). done.
  - by apply _setIPs_nonempty.
Qed.

Lemma addPeer_fresh_consistent cm id st :
  peerStats st !! id = None →
  ip_index_consistent st → ip_index_consistent (addPeer cm id st).
Proof.
  intros Hid Hc.
  assert (addPeer cm id st
          = updatePeerIPs cm id (createPeerStats true)
              (putPeer id (createPeerStats true) st)) as -> by done.
  apply updatePeerIPs_consistent; [cbn; by rewrite lookup_insert_eq |].
  destruct Hc as [Hidx Hne]. split; cbn; [| done].
  intros ip q. rewrite Hidx. destruct (decide (q = id)) as [-> |].
  - rewrite lookup_insert_eq, Hid. split.
    + intros (? & ? & _). done.
    + intros (ps & [= <-] & Hin). cbn in Hin. by apply elem_of_nil in Hin.
  - by rewrite lookup_insert_ne.
Qed.

Lemma updateIPs_consistent cm st :
  ip_index_consistent st → ip_index_consistent (_updateIPs cm st).
Proof.
  intros Hc. unfold _updateIPs.
  assert (∀ m : gmap string PeerStats,
            m ⊆ peerStats st →
            ip_index_consistent (map_fold (updatePeerIPs cm) st m)
            ∧ ∀ p, m !! p = None →
                peerStats (map_fold (updatePeerIPs cm) st m) !! p
                = peerStats st !! p) as H.
  { intros m.
    apply (map_fold_weak_ind (λ acc m,
             m ⊆ peerStats st →
             ip_index_consistent acc
             ∧ ∀ p, m !! p = None → peerStats acc !! p = peerStats st !! p));
      [done |].
    intros id x m' r Hid IH Hsub.
    assert (peerStats st !! id = Some x) as Hidx.
    { eapply lookup_weaken; [| exact Hsub]. apply lookup_insert_eq. }
    destruct IH as [Hr Hsame].
    { etrans; [| exact Hsub]. by apply insert_subseteq. }
    split.
    - apply updatePeerIPs_consistent; [| done]. by rewrite Hsame.
    - intros p [Hp Hm']%lookup_insert_None. cbn.
      rewrite lookup_insert_ne by done. by apply Hsame. }
  by apply H.
Qed.

Section RemovePeerIndex.
Variable params : PeerScoreParams.

Lemma removePeer_consistent now id st st' :
  removePeer params now id st = Some st' →
  ip_index_consistent st → ip_index_consistent st'.
Proof.
  unfold removePeer. intros Hrm [Hidx Hne].
  destruct (peerStats st !! id) as [ps|] eqn:Hps;
    [| by injection Hrm as <-].
  destruct (Qlt_le_dec 0 (score params id st)) as [Hpos | Hnpos].
  - injection Hrm as <-. split; cbn.
    + intros ip q. rewrite _removeIPs_elem, Hidx.
      destruct (decide (q = id)) as [-> |].
      * rewrite lookup_delete_eq. split.
        -- intros [(ps' & Hps' & Hin) Hno]. exfalso. apply Hno.
           split; [done |]. congruence.
        -- intros (? & ? & _). done.
      * rewrite lookup_delete_ne by done. split; [by intros [? _] |].
        intros ?. split; [done |]. by intros [? _].
    + by apply _removeIPs_nonempty.
  - destruct (forEachEntry _ _) as [topics'|]; [cbn in Hrm | done].
    injection Hrm as <-. split; cbn; [| done].
    intros ip q. rewrite Hidx. destruct (decide (q = id)) as [-> |].
    + rewrite lookup_insert_eq, Hps. split.
      * intros (ps' & [= <-] & Hin). eexists. split; [done |]. done.
      * intros (ps' & [= <-] & Hin). eexists. split; [done |]. done.
    + by rewrite lookup_insert_ne.
Qed.
End RemovePeerIndex.


(** ** No method throws on a reachable engine *)

Section WellFormed.
Variable params : PeerScoreParams.
Variable msgId : InMessage → string.
Variable TimeCacheDuration : Z.

Lemma well_formed_addPeer cm id st :
  well_formed params st → well_formed params (addPeer cm id st).
Proof.
  intros Hwf p ps. unfold addPeer. cbn. rewrite insert_insert_eq.
  destruct (decide (id = p)) as [<- |].
  - rewrite lookup_insert_eq. intros [= <-]. apply map_Forall_empty.
  - rewrite lookup_insert_ne by done. apply Hwf.
Qed.

Lemma well_formed_updateIPs cm st :
  well_formed params st → well_formed params (_updateIPs cm st).
Proof.
  intros Hwf p ps. rewrite updateIPs_lookup.
  destruct (peerStats st !! p) as [ps0|] eqn:Hps; [cbn | done].
  intros [= <-]. exact (Hwf p ps0 Hps).
Qed.

Lemma well_formed_removePeer now id st :
  well_formed params st →
  ∃ st', removePeer params now id st = Some st' ∧ well_formed params st'.
Proof.
  intros Hwf. unfold removePeer.
  destruct (peerStats st !! id) as [ps|] eqn:Hps; [| by eexists].
  destruct (Qlt_le_dec 0 (score params id st)) as [Hpos | Hnpos].
  - eexists. split; [done |]. intros p ps'. cbn.
    intros [_ Hp]%lookup_delete_Some. by apply (Hwf p).
  - rewrite forEachEntry_Some
      by (apply removePeerTopic_total; by apply (Hwf id)).
    cbn. eexists. split; [done |].
    apply well_formed_putPeer; [| done].
    intros topic ts'. cbn. rewrite map_lookup_imap.
    destruct (topics ps !! topic) as [ts|] eqn:Hts; [| done].
    intros _. by apply (Hwf id ps Hps topic ts).
Qed.

Lemma well_formed_addPenalty id x st :
  well_formed params st → well_formed params (addPenalty id x st).
Proof.
  intros Hwf. unfold addPenalty.
  destruct (peerStats st !! id) as [ps|] eqn:Hps; [| done].
  apply well_formed_putPeer; [| done]. exact (Hwf id ps Hps).
Qed.

Lemma well_formed_graft now id topic st :
  well_formed params st → well_formed params (graft params now id topic st).
Proof.
  intros Hwf. unfold graft.
  destruct (peerStats st !! id) as [ps|] eqn:Hps; [| done].
  destruct (ensureTopicStats params topic ps) as [[ts ps1]|] eqn:Hens; [| done].
  apply well_formed_putPeer; [| done].
  eapply topics_scored_ensure; [done |]. exact (Hwf id ps Hps).
Qed.

Lemma well_formed_prune id topic st :
  well_formed params st →
  ∃ st', prune params id topic st = Some st' ∧ well_formed params st'.
Proof.
  intros Hwf. unfold prune.
  destruct (peerStats st !! id) as [ps|] eqn:Hps; [| by eexists].
  destruct (ensureTopicStats params topic ps) as [[ts ps1]|] eqn:Hens;
    [| by eexists].
  destruct (ensureTopicStats_params _ _ _ _ _ Hens (Hwf id ps Hps))
    as [tp ->].
  cbn. eexists. split; [done |].
  apply well_formed_putPeer; [| done].
  eapply topics_scored_ensure; [done |]. exact (Hwf id ps Hps).
Qed.

Lemma well_formed_refresh now st :
  well_formed params st → well_formed params (_refreshScores params now st).
Proof.
  intros Hwf p ps'. rewrite refresh_lookup.
  destruct (peerStats st !! p) as [ps|] eqn:Hps; [cbn | done].
  unfold refreshEntry. destruct (connected ps).
  - intros [= <-] topic ts'. rewrite decayPeer_topics.
    destruct (topics ps !! topic) as [ts|] eqn:Hts; [| done].
    intros _. exact (Hwf p ps Hps topic ts Hts).
  - case_bool_decide; [done |]. intros [= <-]. exact (Hwf p ps Hps).
Qed.

Lemma well_formed_deliver now msg st :
  well_formed params st →
  ∃ st', deliverMessage params msgId TimeCacheDuration now msg st = Some st'
         ∧ well_formed params st'.
Proof.
  intros Hwf. unfold deliverMessage.
  destruct (markFirst_total params (receivedFrom msg) msg st) as [st1 Hm].
  { intros ps Hps. exact (Hwf _ ps Hps). }
  rewrite Hm. cbn.
  pose proof (markFirst_well_formed _ _ _ _ _ Hm Hwf) as Hwf1.
  destruct (MessageDeliveries.ensureRecord _ _ _ _) as [drec md].
  case_bool_decide; [by eexists |].
  match goal with |- ∃ st', forEachPeer ?f ?l ?s0 = _ ∧ _ =>
    assert (∀ p s s', f p s = Some s' →
              well_formed params s → well_formed params s') as Hpres;
    [| assert (∀ p s, well_formed params s → is_Some (f p s)) as Htot;
       [| destruct (forEachPeer_total _ f l Hpres Htot s0) as [st' Hst'];
          [done |];
          exists st'; split; [done |];
          by apply (forEachPeer_invariant _ f l Hpres _ _ Hst') ] ]
  end.
  - intros p s s'. cbn. case_bool_decide; [| by intros [= <-]].
    apply markDuplicate_well_formed.
  - intros p s Hs. cbn. case_bool_decide; [| done].
    apply markDuplicate_total. intros ps Hps. exact (Hs p ps Hps).
Qed.

Lemma well_formed_reject now msg reason st :
  well_formed params st →
  well_formed params
    (rejectMessage params msgId TimeCacheDuration now msg reason st).
Proof.
  intros Hwf. unfold rejectMessage.
  destruct (isSignatureError reason); [by apply markInvalid_well_formed |].
  destruct (MessageDeliveries.ensureRecord _ _ _ _) as [drec md].
  case_bool_decide; [done |]. case_bool_decide; [done |].
  apply foldl_invariant.
  - intros s p Hs. by apply markInvalid_well_formed.
  - by apply markInvalid_well_formed.
Qed.

Lemma well_formed_duplicate now msg st :
  well_formed params st →
  ∃ st', duplicateMessage params msgId TimeCacheDuration now msg st = Some st'
         ∧ well_formed params st'.
Proof.
  intros Hwf. unfold duplicateMessage.
  destruct (MessageDeliveries.ensureRecord _ _ _ _) as [drec md].
  case_bool_decide; [by eexists |].
  destruct (status drec).
  - by eexists.
  - match goal with |- ∃ st', ?m = _ ∧ _ =>
      destruct m as [st'|] eqn:Hm
    end.
    + exists st'. split; [done |].
      eapply markDuplicate_well_formed; [exact Hm | exact Hwf].
    + exfalso. eapply is_Some_None. rewrite <- Hm.
      apply markDuplicate_total. intros ps Hps. exact (Hwf _ ps Hps).
  - eexists. split; [done |]. by apply markInvalid_well_formed.
  - by eexists.
Qed.

(** A call on a well-formed engine returns a well-formed engine. *)
Lemma call_well_formed c st :
  well_formed params st →
  ∃ st', call params msgId TimeCacheDuration c st = Some st'
         ∧ well_formed params st'.
Proof.
  intros Hwf. destruct c; cbn [call].
  - eexists. split; [done |]. by apply well_formed_addPeer.
  - by apply well_formed_removePeer.
  - eexists. split; [done |]. by apply well_formed_graft.
  - by apply well_formed_prune.
  - eexists. split; [done |]. unfold validateMessage.
    by destruct (MessageDeliveries.ensureRecord _ _ _ _).
  - by apply well_formed_deliver.
  - eexists. split; [done |]. by apply well_formed_reject.
  - by apply well_formed_duplicate.
  - eexists. split; [done |]. by apply well_formed_addPenalty.
  - eexists. split; [done |]. by apply well_formed_refresh.
  - eexists. split; [done |]. by apply well_formed_updateIPs.
Qed.

(** Every sequence of calls on a new engine runs to the end, and the
    engine it reaches holds statistics for scored topics only: the
    hypothesis [topics_scored] (or [well_formed]) of the statements below
    holds in every state the engine can be in. *)
Lemma calls_well_formed cs :
  ∃ st, calls params msgId TimeCacheDuration cs create = Some st
        ∧ well_formed params st.
Proof.
  assert (∀ st, well_formed params st →
            ∃ st', calls params msgId TimeCacheDuration cs st = Some st'
                   ∧ well_formed params st') as H.
  { induction cs as [| c cs IH]; intros st Hwf; [by exists st |].
    destruct (call_well_formed c st Hwf) as (st1 & Hcall & Hwf1).
    cbn. rewrite Hcall. cbn. by apply IH. }
  apply H. unfold well_formed, create. cbn [peerStats].
  apply map_Forall_empty.
Qed.
End WellFormed.

(** ** The model on the scenarios of the test suite *)

(** Cap 50, decay 0.9: 100 first deliveries and a refresh give 45. *)
Example scenario_first_delivery_cap :
  Scenario.scoreIs
    (Scenario.scoreAfter Scenario.firstDeliveries
       ([AddPeer Ex.cm0 "A"; Graft 0 "A" "T"] ++ Scenario.deliveries "A" 100
        ++ [RefreshScores 10]) "A")
    45.
Proof. vm_compute. reflexivity. Qed.

(** Window 10, threshold 20, activation 1000: of three mesh peers, the one
    that delivers first and the one whose duplicates come at once are not
    penalised; the one whose duplicates come 15 ms late has no mesh
    delivery counted and gets -20² = -400. *)
Example scenario_mesh_deliveries :
  let cs := [AddPeer Ex.cm0 "A"; Graft 0 "A" "T"; AddPeer Ex.cm0 "B";
             Graft 0 "B" "T"; AddPeer Ex.cm0 "C"; Graft 0 "C" "T";
             RefreshScores 1]
            ++ Scenario.meshRounds 100 ++ [RefreshScores 3100] in
  Scenario.scoreIs (Scenario.scoreAfter Scenario.meshDeliveries cs "A") 0
  ∧ Scenario.scoreIs (Scenario.scoreAfter Scenario.meshDeliveries cs "B") 0
  ∧ Scenario.scoreIs (Scenario.scoreAfter Scenario.meshDeliveries cs "C")
      (-400).
Proof. vm_compute. repeat split. Qed.

(** Threshold 20, activation 1000: a peer pruned at 1010 without any
    delivery gets the penalty 20², decayed once: -360. *)
Example scenario_prune_failure_penalty :
  Scenario.scoreIs
    (Scenario.scoreAfter Scenario.meshFailures
       [AddPeer Ex.cm0 "B"; Graft 0 "B" "T"; RefreshScores 1010;
        Prune "B" "T"; RefreshScores 1011] "B")
    (-360).
Proof. vm_compute. reflexivity. Qed.

(** 100 rejected messages and a refresh: -(100 * 0.9)² = -8100. *)
Example scenario_invalid_deliveries :
  Scenario.scoreIs
    (Scenario.scoreAfter Scenario.invalidDeliveries
       ([AddPeer Ex.cm0 "A"; Graft 0 "A" "T"] ++ Scenario.rejections "A" 100
        ++ [RefreshScores 10]) "A")
    (-8100).
Proof. vm_compute. reflexivity. Qed.

(** Three peers on one address, threshold 1: -(3 - 1)² for each of them,
    0 for the peer alone on its address. *)
Example scenario_ip_colocation :
  let cs := [AddPeer Scenario.colocated "A"; AddPeer Scenario.colocated "B";
             AddPeer Scenario.colocated "C"; AddPeer Scenario.colocated "D";
             RefreshScores 10] in
  Scenario.scoreIs (Scenario.scoreAfter Scenario.colocation cs "A") 0
  ∧ Scenario.scoreIs (Scenario.scoreAfter Scenario.colocation cs "B") (-4)
  ∧ Scenario.scoreIs (Scenario.scoreAfter Scenario.colocation cs "C") (-4)
  ∧ Scenario.scoreIs (Scenario.scoreAfter Scenario.colocation cs "D") (-4).
Proof. vm_compute. repeat split. Qed.

(** Penalties 1 and 1, then a refresh with decay 0.99: -1, -4, -3.9204;
    a penalty for an unknown peer changes nothing. *)
Example scenario_behaviour_penalty :
  Scenario.scoreIs
    (Scenario.scoreAfter Scenario.behaviour [AddPenalty "A" 1] "A") 0
  ∧ Scenario.scoreIs
      (Scenario.scoreAfter Scenario.behaviour
         [AddPeer Ex.cm0 "A"; AddPenalty "A" 1] "A") (-1)
  ∧ Scenario.scoreIs
      (Scenario.scoreAfter Scenario.behaviour
         [AddPeer Ex.cm0 "A"; AddPenalty "A" 1; AddPenalty "A" 1] "A") (-4)
  ∧ Scenario.scoreIs
      (Scenario.scoreAfter Scenario.behaviour
         [AddPeer Ex.cm0 "A"; AddPenalty "A" 1; AddPenalty "A" 1;
          RefreshScores 10] "A") (-39204 # 10000).
Proof. vm_compute. repeat split. Qed.

(** Application score -1000, [retainScore] 800: the score is kept by a
    refresh 400 after the removal and is 0 after a refresh 805 after it. *)
Example scenario_retention :
  let cs := [AddPeer Ex.cm0 "A"; Graft 0 "A" "T"; RefreshScores 1;
             RemovePeer 2 "A"] in
  Scenario.scoreIs (Scenario.scoreAfter Scenario.retained cs "A") (-1000)
  ∧ Scenario.scoreIs
      (Scenario.scoreAfter Scenario.retained (cs ++ [RefreshScores 402]) "A")
      (-1000)
  ∧ Scenario.scoreIs
      (Scenario.scoreAfter Scenario.retained
         (cs ++ [RefreshScores 402; RefreshScores 807]) "A")
      0.
Proof. vm_compute. repeat split. Qed.

(** ** A second delivery of a message *)

(** The claim fails as stated: once [A]'s message is Valid, a further
    [deliverMessage] of it raises [A]'s [firstMessageDeliveries] from 1 to
    2. *)
Lemma deliver_twice_counterexample :
  let st := Ex.after [AddPeer Ex.cm1 "A"; ValidateMessage 1 Ex.msgA;
                      DeliverMessage 2 Ex.msgA] in
  status <$> recordOf st "m1" = Some valid
  ∧ firstMessageDeliveries (topicStatsOf st "A" "T") = 1%Q
  ∧ ∃ st', deliverMessage Ex.params Ex.msgId Ex.TimeCacheDuration 3 Ex.msgA st
           = Some st'
           ∧ firstMessageDeliveries (topicStatsOf st' "A" "T") = 2%Q.
Proof.
  split; [reflexivity |]. split; [reflexivity |].
  eexists. split; [vm_compute; reflexivity |]. reflexivity.
Qed.

Section SecondDelivery.
Variable params : PeerScoreParams.
Variable msgId : InMessage → string.
Variable TimeCacheDuration : Z.

(** C1 (amended): when the delivery record of a message already has a
    terminal status, a further [deliverMessage] does what
    [_markFirstMessageDelivery] does for [receivedFrom] and nothing
    else: it changes no delivery record, no IP bucket and no statistics
    of another peer, and nothing at all when [receivedFrom] is unknown;
    for a known [receivedFrom] it credits a first delivery on every
    scored topic of the message (once per occurrence of the topic). It
    returns whenever the statistics of [receivedFrom] are for scored
    topics only, as in every state a new engine can reach. *)
Theorem deliver_terminal (st : PeerScore) (now : Z) (msg : InMessage)
    (drec : DeliveryRecord) :
  recordOf st (msgId msg) = Some drec →
  status drec ≠ unknown →
  let id := receivedFrom msg in
  let result := deliverMessage params msgId TimeCacheDuration now msg st in
  result = _markFirstMessageDelivery params id msg st
  ∧ (peerStats st !! id = None → result = Some st)
  ∧ ((∀ ps, peerStats st !! id = Some ps → topics_scored params ps) →
     is_Some result)
  ∧ (∀ st', result = Some st' →
       deliveryRecords st' = deliveryRecords st
       ∧ peerIPs st' = peerIPs st
       ∧ _backgroundInterval st' = _backgroundInterval st
       ∧ (∀ q, q ≠ id → peerStats st' !! q = peerStats st !! q)
       ∧ (∀ ps, peerStats st !! id = Some ps →
            ∃ ps', peerStats st' !! id = Some ps'
                   ∧ same_peer ps ps'
                   ∧ ∀ T tp, topicParams params !! T = Some tp →
                       statsOn ps' T
                       = Nat.iter (occurrences T (topicIDs msg))
                           (creditFirst tp) (statsOn ps T))).
Proof.
  intros Hrec Hst id result.
  assert (result = _markFirstMessageDelivery params id msg st) as Heq.
  { subst result. unfold deliverMessage. fold id.
    destruct (_markFirstMessageDelivery params id msg st) as [st1|] eqn:Hm;
      [cbn | done].
    destruct (withPeer_frame _ _ _ _ Hm) as (_ & Hrecs & _).
    rewrite (ensureRecord_existing _ now _ _ drec)
      by (by rewrite Hrecs).
    rewrite bool_decide_eq_true_2 by done.
    by rewrite set_deliveryRecords_same. }
  split; [done |]. rewrite Heq. split; [| split].
  - intros Hid. by apply withPeer_unknown.
  - apply markFirst_total.
  - intros st' Hm.
    destruct (withPeer_frame _ _ _ _ Hm) as (Hips & Hrecs & Hint & Hoth & _).
    repeat split; try done.
    intros ps Hps.
    apply withPeer_Some in Hm
      as [[Hid _] | (ps0 & ps' & Hid & Hloop & ->)]; [congruence |].
    replace ps0 with ps in * by congruence.
    exists ps'. cbn. rewrite lookup_insert_eq. split; [done |]. split.
    + eapply (forEachTopic_frame (markFirstTopic params));
        [intros; by eapply markFirstTopic_frame | done].
    + intros T tp Htp.
      eapply (forEachTopic_stats params (markFirstTopic params) creditFirst);
        [| done | done].
      intros. by eapply markFirstTopic_stats.
Qed.
End SecondDelivery.

(** The hypotheses hold on the state of the counterexample. *)
Lemma deliver_terminal_witness :
  let st := Ex.after [AddPeer Ex.cm1 "A"; ValidateMessage 1 Ex.msgA;
                      DeliverMessage 2 Ex.msgA] in
  deliverMessage Ex.params Ex.msgId Ex.TimeCacheDuration 3 Ex.msgA st
  = _markFirstMessageDelivery Ex.params "A" Ex.msgA st.
Proof.
  intros st.
  refine (proj1 (deliver_terminal Ex.params Ex.msgId Ex.TimeCacheDuration st 3
                   Ex.msgA (mkDeliveryRecord valid 1 2 ∅) _ _)).
  - reflexivity.
  - discriminate.
Defined.

(** ** The counter bounds *)

(** The claim fails as stated: [addPenalty] adds whatever it is given, so
    a negative penalty leaves [behaviourPenalty] below 0. *)
Lemma counter_bounds_counterexample :
  let st := Ex.after [AddPeer Ex.cm1 "A"; AddPenalty "A" (-1)] in
  ∃ ps, peerStats st !! "A" = Some ps
    ∧ (behaviourPenalty ps < 0)%Q
    ∧ ¬ counters_bounded Ex.params st.
Proof.
  eexists. split; [vm_compute; reflexivity |]. split; [reflexivity |].
  intros H. destruct (H "A" _ eq_refl) as [Hbp _].
  vm_compute in Hbp. by apply Hbp.
Qed.

Section CounterBounds.
Variable params : PeerScoreParams.
Variable msgId : InMessage → string.
Variable TimeCacheDuration : Z.

(** The bounds are an invariant of the calls. *)
Lemma calls_bounded cs : ∀ st,
  params_bounds params →
  Forall penalty_nonneg cs →
  counters_bounded params st →
  ∃ st', calls params msgId TimeCacheDuration cs st = Some st'
         ∧ counters_bounded params st'.
Proof.
  induction cs as [| c cs IH]; intros st Hparams Hcs Hb; [by exists st |].
  apply Forall_cons in Hcs as [Hc Hcs].
  destruct (call_bounded params msgId TimeCacheDuration Hparams c st Hc Hb)
    as (st1 & Hcall & Hb1).
  cbn. rewrite Hcall. cbn. by apply IH.
Qed.

(** C2 (amended): when the caps of the scored topics and [decayToZero]
    are not negative, the decay factors of the two capped counters are
    at most 1, and every penalty passed to [addPenalty] is not negative,
    then any sequence of calls of the hooks and of [_refreshScores] on a
    new engine runs to the end, and after it, for every peer and every
    topic it has statistics for, the four decayed counters and
    [behaviourPenalty] are at least 0, [firstMessageDeliveries] is at
    most [firstMessageDeliveriesCap] and [meshMessageDeliveries] at most
    [meshMessageDeliveriesCap]. *)
Theorem counter_bounds (cs : list Call) :
  params_bounds params →
  Forall penalty_nonneg cs →
  ∃ st, calls params msgId TimeCacheDuration cs create = Some st
        ∧ counters_bounded params st.
Proof.
  intros Hparams Hcs. apply calls_bounded; [done | done |].
  intros p ps. unfold create. cbn. by rewrite lookup_empty.
Qed.
End CounterBounds.

(** The hypotheses hold for the parameters of the examples and a sequence
    that goes through most hooks. *)
Lemma counter_bounds_witness :
  ∃ st, calls Ex.params Ex.msgId Ex.TimeCacheDuration
          [AddPeer Ex.cm1 "A"; Graft 0 "A" "T"; ValidateMessage 1 Ex.msgA;
           DeliverMessage 2 Ex.msgA; AddPenalty "A" 2; RefreshScores 1000;
           Prune "A" "T"; RemovePeer 1500 "A"] create = Some st
        ∧ counters_bounded Ex.params st.
Proof.
  apply counter_bounds.
  - split; [vm_compute; discriminate |].
    intros topic tp Htp. cbn in Htp.
    apply lookup_singleton_Some in Htp as [_ <-].
    repeat split; vm_compute; discriminate.
  - repeat (apply Forall_cons_2; [first [exact I | vm_compute; discriminate] |]).
    apply Forall_nil_2.
Defined.

(** ** Duplicates of a valid message and the delivery window *)

(** The claim fails as stated: [B] is known and its duplicate arrives
    inside the window, but [B] is not in the mesh of the topic, and its
    [meshMessageDeliveries] stays as it is. *)
Lemma duplicate_window_counterexample :
  let st := Ex.after [AddPeer Ex.cm1 "A"; AddPeer Ex.cm1 "B";
                      Graft 0 "A" "T"; ValidateMessage 1 Ex.msgA;
                      DeliverMessage 2 Ex.msgA] in
  recordOf st "m1" = Some (mkDeliveryRecord valid 1 2 ∅)
  ∧ is_Some (peerStats st !! "B")
  ∧ is_Some (topicParams Ex.params !! "T")
  ∧ 5 ≤ 2 + meshMessageDeliveriesWindow Ex.tparams
  ∧ ∃ st', duplicateMessage Ex.params Ex.msgId Ex.TimeCacheDuration 5 Ex.msgB st
           = Some st'
           ∧ meshMessageDeliveries (topicStatsOf st' "B" "T")
             = meshMessageDeliveries (topicStatsOf st "B" "T").
Proof.
  split; [reflexivity |]. split; [by eexists |]. split; [by eexists |].
  split; [vm_compute; discriminate |].
  eexists. split; [vm_compute; reflexivity |]. reflexivity.
Qed.

Section DuplicateWindow.
Variable params : PeerScoreParams.
Variable msgId : InMessage → string.
Variable TimeCacheDuration : Z.
Local Open Scope Q_scope.

(** C3 (amended): let the record of a message be Valid since [t0 ≠ 0],
    and let a known peer [p] outside the record's peer set send a
    duplicate at time [t]. On a scored topic for which [p] is in the
    mesh, [p]'s [meshMessageDeliveries] is raised by 1 and capped at
    [meshMessageDeliveriesCap], once per occurrence of the topic in
    [topicIDs], when [t ≤ t0 + meshMessageDeliveriesWindow], and is left
    as it is otherwise; so, below the cap and on a topic of the message,
    the counter grows if and only if [t ≤ t0 + window]. On a scored topic
    for which [p] is not in the mesh nothing changes. (The statistics of
    [p] are for scored topics only, as in every state a new engine can
    reach.) *)
Theorem duplicate_window (st : PeerScore) (t : Z) (msg : InMessage)
    (drec : DeliveryRecord) (ps : PeerStats) :
  recordOf st (msgId msg) = Some drec →
  status drec = valid →
  validated drec ≠ 0%Z →
  receivedFrom msg ∉ peers drec →
  peerStats st !! receivedFrom msg = Some ps →
  topics_scored params ps →
  ∃ st',
    duplicateMessage params msgId TimeCacheDuration t msg st = Some st'
    ∧ ∀ T tp, topicParams params !! T = Some tp →
        let t0 := validated drec in
        let window := meshMessageDeliveriesWindow tp in
        let cap := meshMessageDeliveriesCap tp in
        let old := topicStatsOf st (receivedFrom msg) T in
        let new := topicStatsOf st' (receivedFrom msg) T in
        (inMesh old = false → new = old)
        ∧ (inMesh old = true → (t0 + window < t)%Z → new = old)
        ∧ (inMesh old = true → (t ≤ t0 + window)%Z →
             meshMessageDeliveries new
             = Nat.iter (occurrences T (topicIDs msg)) (incrCapped cap)
                 (meshMessageDeliveries old))
        ∧ (inMesh old = true → T ∈ topicIDs msg →
             meshMessageDeliveries old < cap →
             (meshMessageDeliveries old < meshMessageDeliveries new
              ↔ (t ≤ t0 + window)%Z)).
Proof.
  intros Hrec Hst Hv Hni Hps Hsc. unfold duplicateMessage.
  rewrite (ensureRecord_existing _ t _ _ drec) by done.
  rewrite bool_decide_eq_false_2 by done. rewrite Hst.
  rewrite markDuplicate_withPeer. cbn [validated set_peers].
  rewrite bool_decide_eq_true_2 by done.
  match goal with |- ∃ st', withPeer ?p ?loop ?s = _ ∧ _ =>
    destruct (withPeer_total p loop s) as [st' Hm]
  end.
  { cbn. intros ps0 Hps0. apply markDuplicate_loop_total.
    by replace ps0 with ps by congruence. }
  exists st'. split; [done |].
  apply withPeer_Some in Hm
    as [[Hid _] | (ps0 & ps' & Hid & Hloop & ->)];
    cbn in Hid; [congruence |].
  replace ps0 with ps in * by congruence. clear Hid.
  intros T tp Htp.
  set (t0 := validated drec). set (window := meshMessageDeliveriesWindow tp).
  set (cap := meshMessageDeliveriesCap tp).
  set (old := topicStatsOf st (receivedFrom msg) T).
  set (new := topicStatsOf _ (receivedFrom msg) T).
  assert (old = statsOn ps T) as Hold.
  { subst old. unfold topicStatsOf. by rewrite Hps. }
  assert (new = Nat.iter (occurrences T (topicIDs msg))
                  (creditDuplicate tp t t0) old) as Hnew.
  { subst new. unfold topicStatsOf. cbn. rewrite lookup_insert_eq. cbn.
    rewrite Hold.
    eapply (forEachTopic_stats params _ (λ tp, creditDuplicate tp t t0));
      [| done | done].
    intros. by eapply markDuplicateTopic_stats. }
  assert (inMesh old = true → (t ≤ t0 + window)%Z →
          meshMessageDeliveries new
          = Nat.iter (occurrences T (topicIDs msg)) (incrCapped cap)
              (meshMessageDeliveries old)) as Hin.
  { intros Hmesh Hle. rewrite Hnew.
    rewrite iter_creditDuplicate_count by (done || by right). done. }
  assert (inMesh old = true → (t0 + window < t)%Z → new = old) as Hout.
  { intros Hmesh Hlt. rewrite Hnew.
    apply iter_creditDuplicate_skip. right. done. }
  split; [| split; [| split]]; try done.
  - intros Hmesh. rewrite Hnew. apply iter_creditDuplicate_skip. by left.
  - intros Hmesh HT Hcap. split.
    + intros Hlt. destruct (Z_le_gt_dec t (t0 + window)) as [| Hgt]; [done |].
      rewrite Hout in Hlt by (done || lia). lra.
    + intros Hle. rewrite (Hin Hmesh Hle).
      apply iter_incrCapped_gt; [by apply occurrences_elem_of | done].
Qed.
End DuplicateWindow.

(** The hypotheses hold when [B] is grafted: its duplicate at time 5,
    inside the window of the record validated at time 2, is counted. *)
Lemma duplicate_window_witness :
  let st := Ex.after [AddPeer Ex.cm1 "A"; AddPeer Ex.cm1 "B";
                      Graft 0 "A" "T"; Graft 0 "B" "T";
                      ValidateMessage 1 Ex.msgA; DeliverMessage 2 Ex.msgA] in
  ∃ st',
    duplicateMessage Ex.params Ex.msgId Ex.TimeCacheDuration 5 Ex.msgB st
    = Some st'
    ∧ (meshMessageDeliveries (topicStatsOf st "B" "T")
       < meshMessageDeliveries (topicStatsOf st' "B" "T")
       ↔ 5 ≤ 2 + 10)%Q.
Proof.
  intros st.
  destruct (duplicate_window Ex.params Ex.msgId Ex.TimeCacheDuration st 5
              Ex.msgB (mkDeliveryRecord valid 1 2 ∅)
              (mkPeerStats true 0
                 {[ "T" := mkTopicStats true 0 0 0 0 false 0 0 ]} 0
                 ["1.2.3.4"]))
    as (st' & Hdup & Hstats).
  - reflexivity.
  - reflexivity.
  - discriminate.
  - apply not_elem_of_empty.
  - reflexivity.
  - refine (bool_decide_unpack _ _). vm_compute. exact I.
  - exists st'. split; [exact Hdup |].
    destruct (Hstats "T" Ex.tparams eq_refl) as (_ & _ & _ & Hiff).
    apply Hiff.
    + reflexivity.
    + apply list_elem_of_here.
    + reflexivity.
Defined.

(** ** Consistency of the IP index *)

Section IndexConsistency.
Variable params : PeerScoreParams.
Variable msgId : InMessage → string.
Variable TimeCacheDuration : Z.

(** Apart from [addPeer] on an id that already has an entry, the index
    is kept consistent: every sequence of [addPeer] on new ids,
    [removePeer] and [_updateIPs] runs to the end and leaves
    [peerIPs[ip]] holding exactly the peers whose [ips] contain [ip],
    with no empty bucket. *)
Lemma ip_index_consistent_fresh cs : ∀ st,
  well_formed params st →
  ip_index_consistent st →
  adds_fresh (call params msgId TimeCacheDuration) cs st →
  ∃ st', calls params msgId TimeCacheDuration cs st = Some st'
         ∧ ip_index_consistent st'.
Proof.
  induction cs as [| c cs IH]; intros st Hwf Hc Hfresh; [by exists st |].
  destruct Hfresh as [Hhead Htail].
  assert (∃ st1, call params msgId TimeCacheDuration c st = Some st1
                 ∧ well_formed params st1 ∧ ip_index_consistent st1)
    as (st1 & Hcall & Hwf1 & Hc1).
  { destruct c; try done; cbn [call].
    - eexists. split; [done |]. split.
      + by apply well_formed_addPeer.
      + by apply addPeer_fresh_consistent.
    - destruct (well_formed_removePeer params now id st Hwf)
  as (st1 & Hrm & Hwf1).
      exists st1. split; [done |]. split; [done |].
      by eapply removePeer_consistent.
    - eexists. split; [done |]. split.
      + by apply well_formed_updateIPs.
      + by apply updateIPs_consistent. }
  cbn. rewrite Hcall. cbn. apply IH; [done | done |]. by apply Htail.
Qed.

Lemma create_consistent : ip_index_consistent create.
Proof.
  split.
  - intros ip p. unfold peersOfIP, create. cbn [peerIPs peerStats].
    rewrite lookup_empty. cbn [default]. split.
    + by intros ?%not_elem_of_empty.
    + intros (ps & Hps & _). by rewrite lookup_empty in Hps.
  - intros ip. unfold create. cbn [peerIPs]. by rewrite lookup_empty.
Qed.
End IndexConsistency.

(** C4: the claimed consistency of [peerIPs] with the [ips] lists fails
    when [addPeer] is called for an id that already has an entry, with
    other addresses: the first call leaves the index consistent, the
    second replaces the entry by a new one with an empty [ips] and
    reconciles against that, so the old address keeps the peer in its
    bucket while the peer's [ips] no longer contains it. *)
Theorem addPeer_again_stale_index :
  let st1 := addPeer Ex.cm1 "A" create in
  let st2 := addPeer Ex.cm2 "A" st1 in
  ip_index_consistent st1
  ∧ "A" ∈ peersOfIP (peerIPs st2) "1.2.3.4"
  ∧ ips <$> peerStats st2 !! "A" = Some ["5.6.7.8"]
  ∧ ¬ ip_index_consistent st2.
Proof.
  intros st1 st2.
  assert ("A" ∈ peersOfIP (peerIPs st2) "1.2.3.4") as Hin.
  { refine (bool_decide_unpack _ _). vm_compute. exact I. }
  split; [| split; [done | split; [reflexivity |]]].
  - apply addPeer_fresh_consistent; [reflexivity | apply create_consistent].
  - intros [Hidx _]. apply Hidx in Hin as (ps & Hps & Hip).
    vm_compute in Hps. injection Hps as <-.
    apply list_elem_of_singleton in Hip. discriminate.
Qed.

(** ** The decay law *)

Set Warnings "-inexact-float".


Section DecayLawOfRefresh.
Variable params : PeerScoreParams.
Local Open Scope Q_scope.

End DecayLawOfRefresh.


(** ** Retention of a disconnected peer *)

Section Retention.
Variable params : PeerScoreParams.

End Retention.


(** ** Hooks called with an unknown peer *)

(** The claim fails as stated: a duplicate from a peer the engine does not
    know creates a delivery record (and its queue entry) on a new
    engine. *)
Lemma unknown_peer_duplicate_counterexample :
  peerStats create !! "A" = None
  ∧ receivedFrom Ex.msgA = "A"
  ∧ duplicateMessage Ex.params Ex.msgId Ex.TimeCacheDuration 1 Ex.msgA create
    ≠ Some create.
Proof.
  split; [reflexivity |]. split; [reflexivity |].
  intros H.
  apply (f_equal (option_map (λ st, MessageDeliveries.queue (deliveryRecords st)))) in H.
  vm_compute in H. discriminate.
Qed.

Section UnknownPeer.
Variable params : PeerScoreParams.
Variable msgId : InMessage → string.
Variable TimeCacheDuration : Z.

(** C7 (amended): with a peer id that has no [PeerStats] entry,
    [removePeer], [graft], [prune], [addPenalty] and [rejectMessage] with
    a signature reason change nothing at all. [deliverMessage],
    [rejectMessage] and [duplicateMessage] create no [PeerStats] entry
    for that peer and leave [peerIPs] as it is ([duplicateMessage] leaves
    all of [peerStats] as it is), but they do create or update the
    delivery record of the message. (The engine is well formed, as in
    every state a new engine can reach.) *)
Theorem unknown_peer_hooks (st : PeerScore) (id : string) :
  peerStats st !! id = None →
  well_formed params st →
  (∀ now, removePeer params now id st = Some st)
  ∧ (∀ now topic, graft params now id topic st = st)
  ∧ (∀ topic, prune params id topic st = Some st)
  ∧ (∀ penalty, addPenalty id penalty st = st)
  ∧ (∀ now msg, receivedFrom msg = id →
       (∀ reason, isSignatureError reason = true →
          rejectMessage params msgId TimeCacheDuration now msg reason st = st)
       ∧ (∃ st', deliverMessage params msgId TimeCacheDuration now msg st
                 = Some st'
                 ∧ peerStats st' !! id = None ∧ peerIPs st' = peerIPs st)
       ∧ (∀ reason,
            let st' := rejectMessage params msgId TimeCacheDuration now msg
                         reason st in
            peerStats st' !! id = None ∧ peerIPs st' = peerIPs st)
       ∧ (∃ st', duplicateMessage params msgId TimeCacheDuration now msg st
                 = Some st'
                 ∧ peerStats st' = peerStats st ∧ peerIPs st' = peerIPs st)).
Proof.
  intros Hid Hwf. repeat split.
  - unfold removePeer. by rewrite Hid.
  - unfold graft. by rewrite Hid.
  - unfold prune. by rewrite Hid.
  - unfold addPenalty. by rewrite Hid.
  - intros reason Hsig. unfold rejectMessage. subst id.
    rewrite Hsig. by apply markInvalid_unknown.
  - subst id. unfold deliverMessage.
    rewrite markFirst_withPeer, withPeer_unknown by done. cbn.
    destruct (MessageDeliveries.ensureRecord _ _ _ _) as [drec md].
    case_bool_decide; [by eexists |].
    set (I := λ s : PeerScore,
           peerStats s !! receivedFrom msg = None
           ∧ peerIPs s = peerIPs st ∧ well_formed params s).
    match goal with |- ∃ st', forEachPeer ?f ?l ?s0 = _ ∧ _ =>
      assert (∀ p s s', f p s = Some s' → I s → I s') as Hpres;
      [| assert (∀ p s, I s → is_Some (f p s)) as Htot;
         [| assert (I s0) as HI by done;
            destruct (forEachPeer_total I f l Hpres Htot s0 HI) as [st' Hst'];
            exists st'; split; [done |];
            destruct (forEachPeer_invariant I f l Hpres _ _ Hst' HI)
              as (? & ? & _); done ] ]
    end.
    + intros p s s'. cbn. case_bool_decide; [| by intros [= <-]].
      intros Hm (Hn & Hips & Hw).
      destruct (withPeer_frame _ _ _ _ Hm) as (Hips' & _ & _ & _ & Hnone).
      split; [by apply Hnone |]. split; [congruence |].
      by eapply markDuplicate_well_formed.
    + intros p s (_ & _ & Hw). cbn. case_bool_decide; [| done].
      apply markDuplicate_total. intros ps Hps. by eapply Hw.
  - subst id. unfold rejectMessage.
    destruct (isSignatureError reason).
    { by rewrite markInvalid_unknown. }
    destruct (MessageDeliveries.ensureRecord _ _ _ _) as [drec md].
    case_bool_decide; [done |]. case_bool_decide; [done |].
    apply (foldl_invariant
             (λ s, peerStats s !! receivedFrom msg = None)).
    + intros s p Hs. by apply markInvalid_frame.
    + by rewrite markInvalid_unknown.
  - subst id. unfold rejectMessage.
    destruct (isSignatureError reason).
    { by rewrite markInvalid_unknown. }
    destruct (MessageDeliveries.ensureRecord _ _ _ _) as [drec md].
    case_bool_decide; [done |]. case_bool_decide; [done |].
    apply (foldl_invariant (λ s, peerIPs s = peerIPs st)).
    + intros s p Hs.
      destruct (markInvalid_frame params p msg s) as (-> & _). done.
    + by rewrite markInvalid_unknown.
  - subst id. unfold duplicateMessage.
    destruct (MessageDeliveries.ensureRecord _ _ _ _) as [drec md].
    case_bool_decide; [by eexists |].
    destruct (status drec).
    + by eexists.
    + rewrite markDuplicate_withPeer, withPeer_unknown by done. by eexists.
    + rewrite markInvalid_unknown by done. by eexists.
    + by eexists.
Qed.
End UnknownPeer.

(** The hypotheses hold on an engine that knows [B] but not [A]. *)
Lemma unknown_peer_hooks_witness :
  let st := Ex.after [AddPeer Ex.cm1 "B"; Graft 0 "B" "T";
                      ValidateMessage 1 Ex.msgA; DuplicateMessage 2 Ex.msgB] in
  peerStats st !! "A" = None
  ∧ removePeer Ex.params 5 "A" st = Some st
  ∧ ∃ st', deliverMessage Ex.params Ex.msgId Ex.TimeCacheDuration 3 Ex.msgA st
           = Some st'
           ∧ peerStats st' !! "A" = None ∧ peerIPs st' = peerIPs st.
Proof.
  intros st.
  assert (peerStats st !! "A" = None) as Hid by reflexivity.
  assert (well_formed Ex.params st) as Hwf.
  { refine (bool_decide_unpack _ _). vm_compute. exact I. }
  destruct (unknown_peer_hooks Ex.params Ex.msgId Ex.TimeCacheDuration st "A"
              Hid Hwf) as (Hrm & _ & _ & _ & Hmsg).
  split; [exact Hid |]. split; [apply Hrm |].
  destruct (Hmsg 3 Ex.msgA eq_refl) as (_ & Hdel & _). exact Hdel.
Defined.

(** ** The promise tracker *)

(** C8: in the promise tracker, [deliverMessage] removes every promise
    entry of the message's id; [rejectMessage] with a reason other than
    [ERR_MISSING_SIGNATURE] and [ERR_INVALID_SIGNATURE] does the same; with
    one of these two reasons it leaves the promise map as it is. The
    entries of other message ids are never touched. *)
Theorem promises_deliver_reject (getMsgId : InMessage → string)
    (tr : IWantTracer.t) (msg : InMessage) :
  IWantTracer.promises (IWantTracer.deliverMessage getMsgId msg tr)
    !! getMsgId msg = None
  ∧ (∀ reason, reason ≠ ERR_MISSING_SIGNATURE → reason ≠ ERR_INVALID_SIGNATURE →
       IWantTracer.promises (IWantTracer.rejectMessage getMsgId msg reason tr)
         !! getMsgId msg = None)
  ∧ (∀ reason, reason = ERR_MISSING_SIGNATURE ∨ reason = ERR_INVALID_SIGNATURE →
       IWantTracer.rejectMessage getMsgId msg reason tr = tr)
  ∧ (∀ reason other, other ≠ getMsgId msg →
       IWantTracer.promises (IWantTracer.deliverMessage getMsgId msg tr)
         !! other = IWantTracer.promises tr !! other
       ∧ IWantTracer.promises (IWantTracer.rejectMessage getMsgId msg reason tr)
           !! other = IWantTracer.promises tr !! other).
Proof.
  repeat split.
  - apply lookup_delete_eq.
  - intros reason Hm Hi. unfold IWantTracer.rejectMessage, isSignatureError.
    rewrite !bool_decide_eq_false_2 by done. apply lookup_delete_eq.
  - intros reason [-> | ->]; reflexivity.
  - cbn. by rewrite lookup_delete_ne.
  - unfold IWantTracer.rejectMessage.
    destruct (isSignatureError reason); [done |].
    cbn. by rewrite lookup_delete_ne.
Qed.

(** The three cases on a tracker with one promise. *)
Lemma promises_deliver_reject_witness :
  let tr := IWantTracer.mk {[ "m1" := {[ "A" := 3000 ]} ]} in
  IWantTracer.promises
    (IWantTracer.rejectMessage Ex.msgId Ex.msgA ERR_TOPIC_VALIDATOR_REJECT tr)
    !! "m1" = None
  ∧ IWantTracer.rejectMessage Ex.msgId Ex.msgA ERR_INVALID_SIGNATURE tr = tr
  ∧ IWantTracer.promises
      (IWantTracer.rejectMessage Ex.msgId Ex.msgA ERR_INVALID_SIGNATURE tr)
      !! "m0" = IWantTracer.promises tr !! "m0".
Proof.
  intros tr.
  destruct (promises_deliver_reject Ex.msgId tr Ex.msgA) as (_ & H1 & H2 & H3).
  split; [| split].
  - apply (H1 ERR_TOPIC_VALIDATOR_REJECT); discriminate.
  - apply (H2 ERR_INVALID_SIGNATURE); right; reflexivity.
  - apply (H3 ERR_INVALID_SIGNATURE "m0"); discriminate.
Defined.

(** ** Stopping the engine *)

(** The claim fails as stated: on an engine that was never started,
    [stop()] leaves the peer that was added in [peerStats]. *)
Lemma stop_not_running_counterexample :
  let st := addPeer Ex.cm1 "A" create in
  _backgroundInterval st = None ∧ ¬ stopped (stop st).
Proof.
  split; [reflexivity |].
  intros (_ & Hstats & _). cbn in Hstats.
  apply (f_equal (λ m : gmap string PeerStats, m !! "A")) in Hstats.
  rewrite lookup_empty in Hstats. vm_compute in Hstats. discriminate.
Qed.

(** C9 (amended): [stop()] on a running engine (one whose ticker is set)
    cancels the ticker and empties [peerStats], [peerIPs] and
    [deliveryRecords]; on an engine that is not running it changes
    nothing. *)
Theorem stop_running_clears (st : PeerScore) :
  (is_Some (_backgroundInterval st) → stopped (stop st))
  ∧ (_backgroundInterval st = None → stop st = st).
Proof.
  split.
  - intros [h Hh]. unfold stop. rewrite Hh. by unfold stopped.
  - intros Hn. unfold stop. by rewrite Hn.
Qed.

(** Both cases, on an engine with one peer. *)
Lemma stop_running_clears_witness :
  stopped (stop (start 7%nat (addPeer Ex.cm1 "A" create)))
  ∧ stop (addPeer Ex.cm1 "A" create) = addPeer Ex.cm1 "A" create.
Proof.
  split.
  - apply (proj1 (stop_running_clears (start 7%nat (addPeer Ex.cm1 "A" create)))).
    cbn. eauto.
  - apply (proj2 (stop_running_clears (addPeer Ex.cm1 "A" create))).
    reflexivity.
Defined.

(** ** Duplicates of an invalid message *)

(** The claim fails as stated: [A] is known and the record is Invalid, but
    [A] entered the record's peer set with a duplicate sent during
    validation, and a further duplicate from [A] is not counted. *)
Lemma duplicate_of_invalid_counterexample :
  let st := Ex.after [AddPeer Ex.cm1 "A"; AddPeer Ex.cm1 "B";
                      ValidateMessage 1 Ex.msgB; DuplicateMessage 2 Ex.msgA;
                      RejectMessage 3 Ex.msgB ERR_TOPIC_VALIDATOR_REJECT] in
  status <$> recordOf st "m1" = Some invalid
  ∧ is_Some (peerStats st !! "A")
  ∧ invalidMessageDeliveries (topicStatsOf st "A" "T") = 1%Q
  ∧ ∃ st', duplicateMessage Ex.params Ex.msgId Ex.TimeCacheDuration 4 Ex.msgA st
           = Some st'
           ∧ invalidMessageDeliveries (topicStatsOf st' "A" "T") = 1%Q.
Proof.
  split; [reflexivity |]. split; [by eexists |]. split; [reflexivity |].
  eexists. split; [vm_compute; reflexivity |]. reflexivity.
Qed.

Section InvalidDuplicates.
Variable params : PeerScoreParams.
Variable msgId : InMessage → string.
Variable TimeCacheDuration : Z.

(** One duplicate of an invalid message from a peer outside the
    record's peer set. *)
Lemma duplicate_of_invalid_once st now msg drec ps :
  recordOf st (msgId msg) = Some drec →
  status drec = invalid →
  receivedFrom msg ∉ peers drec →
  peerStats st !! receivedFrom msg = Some ps →
  ∃ st' ps',
    duplicateMessage params msgId TimeCacheDuration now msg st = Some st'
    ∧ deliveryRecords st' = deliveryRecords st
    ∧ peerStats st' !! receivedFrom msg = Some ps'
    ∧ ∀ T tp, topicParams params !! T = Some tp →
        statsOn ps' T
        = Nat.iter (occurrences T (topicIDs msg)) creditInvalid (statsOn ps T).
Proof.
  intros Hrec Hst Hni Hps. unfold duplicateMessage.
  rewrite (ensureRecord_existing _ now _ _ drec) by done.
  rewrite bool_decide_eq_false_2 by done. rewrite Hst.
  rewrite set_deliveryRecords_same.
  pose proof (markInvalid_withPeer params (receivedFrom msg) msg st) as Hm.
  symmetry in Hm.
  destruct (withPeer_frame _ _ _ _ Hm) as (_ & Hrecs & _).
  apply withPeer_Some in Hm
    as [[Hid _] | (ps0 & ps' & Hid & Hloop & Heq)]; [congruence |].
  replace ps0 with ps in * by congruence.
  eexists _, ps'. split; [done |]. split; [done |]. split.
  - rewrite Heq. cbn. by rewrite lookup_insert_eq.
  - intros T tp Htp.
    eapply (forEachTopic_stats params _ (λ _, creditInvalid)); [| done | done].
    intros t p p' T' tp' [= <-] Htp'. by eapply markInvalidTopic_stats.
Qed.

(** C10 (amended): for a known peer [p] that is not in the peer set of
    the record, and a message whose record is Invalid, every
    [duplicateMessage] call with [receivedFrom = p] leaves the record as
    it is and adds 1 to [p]'s [invalidMessageDeliveries] on every scored
    topic of the message, once per occurrence of the topic in
    [topicIDs]; so [n] such calls, at any times, add [n] times that. *)
Theorem duplicate_of_invalid (st : PeerScore) (msg : InMessage)
    (drec : DeliveryRecord) (ps : PeerStats) (times : list Z) :
  recordOf st (msgId msg) = Some drec →
  status drec = invalid →
  receivedFrom msg ∉ peers drec →
  peerStats st !! receivedFrom msg = Some ps →
  ∃ st',
    calls params msgId TimeCacheDuration
      (map (λ now, DuplicateMessage now msg) times) st = Some st'
    ∧ deliveryRecords st' = deliveryRecords st
    ∧ ∀ T tp, topicParams params !! T = Some tp →
        (invalidMessageDeliveries (topicStatsOf st' (receivedFrom msg) T)
         == invalidMessageDeliveries (topicStatsOf st (receivedFrom msg) T)
            + inject_Z (Z.of_nat (length times
                                  * occurrences T (topicIDs msg))))%Q.
Proof.
  revert st ps. induction times as [| now times IH]; intros st ps Hrec Hst Hni Hps.
  - exists st. split; [done |]. split; [done |]. intros T tp _.
    change (inject_Z (Z.of_nat (length [] * occurrences T (topicIDs msg))))
      with 0%Q. lra.
  - destruct (duplicate_of_invalid_once st now msg drec ps Hrec Hst Hni Hps)
      as (st1 & ps1 & Hdup & Hrecs1 & Hps1 & Hstats1).
    destruct (IH st1 ps1) as (st' & Hcalls & Hrecs' & Hstats');
      [by unfold recordOf; rewrite Hrecs1 | done | done | done |].
    exists st'. split; [| split].
    + cbn. rewrite Hdup. cbn. exact Hcalls.
    + congruence.
    + intros T tp Htp. rewrite (Hstats' T tp Htp).
      unfold topicStatsOf. rewrite Hps1, Hps. cbn.
      rewrite (Hstats1 T tp Htp), iter_creditInvalid.
      rewrite Nat2Z.inj_add, inject_Z_plus. lra.
Qed.
End InvalidDuplicates.

(** Three duplicates from [A], which is not in the peer set. *)
Lemma duplicate_of_invalid_witness :
  let st := Ex.after [AddPeer Ex.cm1 "A"; AddPeer Ex.cm1 "B";
                      ValidateMessage 1 Ex.msgB;
                      RejectMessage 3 Ex.msgB ERR_TOPIC_VALIDATOR_REJECT] in
  ∃ st',
    calls Ex.params Ex.msgId Ex.TimeCacheDuration
      [DuplicateMessage 4 Ex.msgA; DuplicateMessage 5 Ex.msgA;
       DuplicateMessage 6 Ex.msgA] st = Some st'
    ∧ deliveryRecords st' = deliveryRecords st
    ∧ ∀ T tp, topicParams Ex.params !! T = Some tp →
        (invalidMessageDeliveries (topicStatsOf st' "A" T)
         == invalidMessageDeliveries (topicStatsOf st "A" T)
            + inject_Z (Z.of_nat (3 * occurrences T ["T"])))%Q.
Proof.
  intros st.
  refine (duplicate_of_invalid Ex.params Ex.msgId Ex.TimeCacheDuration st
            Ex.msgA (mkDeliveryRecord invalid 1 0 ∅)
            (mkPeerStats true 0 ∅ 0 ["1.2.3.4"]) [4; 5; 6] _ _ _ _).
  - reflexivity.
  - reflexivity.
  - apply not_elem_of_empty.
  - reflexivity.
Defined.

(** * Further properties *)

(** ** The promise tracker: [addPromise] and [getBrokenPromises] *)

Lemma expiredFor_insert now p q e (m : gmap string Z) :
  expiredFor now p (<[q := e]> m)
  = if decide (q = p) then bool_decide (e < now) else expiredFor now p m.
Proof.
  unfold expiredFor. case_decide as Hq; [subst; by rewrite lookup_insert_eq |].
  by rewrite lookup_insert_ne.
Qed.

Lemma unexpired_lookup now (peers : gmap string Z) p :
  unexpired now peers !! p
  = if expiredFor now p peers then None else peers !! p.
Proof.
  unfold unexpired, expiredFor. rewrite map_lookup_filter.
  destruct (peers !! p) as [e|]; [cbn | done].
  case_bool_decide; [by rewrite option_guard_False by (cbn; lia) |].
  by rewrite option_guard_True.
Qed.

(** The inner loop of [getBrokenPromises]. *)
Lemma brokenPeer_fold now (peers0 : gmap string Z) (result0 : gmap string nat)
    (m : gmap string Z) :
  m ⊆ peers0 →
  let acc := map_fold (IWantTracer.brokenPeer now) (result0, peers0) m in
  (∀ p, acc.1 !! p = if expiredFor now p m
                     then Some (default 0 (result0 !! p) + 1)%nat
                     else result0 !! p)
  ∧ (∀ p, acc.2 !! p = if expiredFor now p m then None else peers0 !! p).
Proof.
  cbn. apply (map_fold_weak_ind (λ acc m,
    m ⊆ peers0 →
    (∀ p, acc.1 !! p = if expiredFor now p m
                       then Some (default 0 (result0 !! p) + 1)%nat
                       else result0 !! p)
    ∧ (∀ p, acc.2 !! p = if expiredFor now p m then None else peers0 !! p)));
    clear m.
  - intros _. by split.
  - intros q e m acc Hq IH Hsub.
    assert (peers0 !! q = Some e) as Hq0.
    { eapply lookup_weaken; [| exact Hsub]. apply lookup_insert_eq. }
    destruct IH as [Hres Hprs].
    { etrans; [| exact Hsub]. by apply insert_subseteq. }
    assert (expiredFor now q m = false) as Hnq.
    { unfold expiredFor. by rewrite Hq. }
    unfold IWantTracer.brokenPeer. split; intros p; rewrite expiredFor_insert.
    + case_bool_decide as He; cbn.
      * destruct (decide (q = p)) as [<- |].
        -- rewrite lookup_insert_eq, Hres, Hnq. done.
        -- by rewrite lookup_insert_ne.
      * destruct (decide (q = p)) as [<- |]; [| done].
        by rewrite Hres, Hnq.
    + case_bool_decide as He; cbn.
      * destruct (decide (q = p)) as [<- |].
        -- by rewrite lookup_delete_eq.
        -- by rewrite lookup_delete_ne.
      * destruct (decide (q = p)) as [<- |]; [| done].
        by rewrite Hprs, Hnq.
Qed.

Lemma brokenPeer_loop now (peers : gmap string Z) (result0 : gmap string nat) :
  let acc := map_fold (IWantTracer.brokenPeer now) (result0, peers) peers in
  (∀ p, acc.1 !! p = if expiredFor now p peers
                     then Some (default 0 (result0 !! p) + 1)%nat
                     else result0 !! p)
  ∧ acc.2 = unexpired now peers.
Proof.
  destruct (brokenPeer_fold now peers result0 peers) as [Hres Hprs]; [done |].
  split; [done |]. apply map_eq. intros p.
  by rewrite Hprs, unexpired_lookup.
Qed.

Lemma brokenCount_insert now (m : gmap string (gmap string Z)) mid peers p :
  m !! mid = None →
  brokenCount now (<[mid := peers]> m) p
  = ((if expiredFor now p peers then 1 else 0) + brokenCount now m p)%nat.
Proof.
  intros Hmid. unfold brokenCount.
  destruct (expiredFor now p peers) eqn:He.
  - rewrite map_filter_insert_True by (cbn [snd]; rewrite He; exact I).
    rewrite map_size_insert_None; [done |].
    apply map_lookup_filter_None. by left.
  - rewrite map_filter_insert_False by (cbn [snd]; rewrite He; exact id).
    by rewrite delete_id.
Qed.

(** The outer loop of [getBrokenPromises]. *)
Lemma brokenMsg_fold now (proms0 m : gmap string (gmap string Z)) :
  m ⊆ proms0 →
  let acc := map_fold (IWantTracer.brokenMsg now) (∅, proms0) m in
  (∀ p, acc.1 !! p = if decide (brokenCount now m p = 0%nat) then None
                     else Some (brokenCount now m p))
  ∧ (∀ mid, acc.2 !! mid
            = match m !! mid with
              | Some peers =>
                  if decide (unexpired now peers = ∅) then None
                  else Some (unexpired now peers)
              | None => proms0 !! mid
              end).
Proof.
  cbn. revert m.
  apply (map_fold_weak_ind (λ acc m0,
    m0 ⊆ proms0 →
    (∀ p, acc.1 !! p = if decide (brokenCount now m0 p = 0%nat) then None
                       else Some (brokenCount now m0 p))
    ∧ (∀ mid, acc.2 !! mid
              = match m0 !! mid with
                | Some peers =>
                    if decide (unexpired now peers = ∅) then None
                    else Some (unexpired now peers)
                | None => proms0 !! mid
                end))).
  - intros _. split; [| done]. intros p.
    unfold brokenCount. by rewrite map_filter_empty, map_size_empty.
  - intros mid peers m acc Hmid IH Hsub.
    destruct IH as [Hres Hproms].
    { etrans; [| exact Hsub]. by apply insert_subseteq. }
    unfold IWantTracer.brokenMsg.
    destruct (brokenPeer_loop now peers acc.1) as [Hres1 Hprs1].
    destruct (map_fold (IWantTracer.brokenPeer now) (acc.1, peers) peers)
      as [result peers'] eqn:Hfold.
    cbn in Hres1, Hprs1. subst peers'. split.
    + intros p. cbn. rewrite Hres1, (brokenCount_insert _ _ _ _ _ Hmid), Hres.
      destruct (expiredFor now p peers).
      * repeat case_decide; cbn; try lia; f_equal; lia.
      * done.
    + intros mid'. cbn.
      destruct (decide (mid = mid')) as [<- |].
      * rewrite lookup_insert_eq.
        destruct (decide (size (unexpired now peers) = 0%nat)) as [Hsz | Hsz].
        -- rewrite lookup_delete_eq.
           by rewrite decide_True by by apply map_size_empty_inv.
        -- rewrite lookup_insert_eq. rewrite decide_False; [done |].
           intros Hemp. apply Hsz. by rewrite Hemp, map_size_empty.
      * rewrite (lookup_insert_ne m) by done.
        destruct (decide (size (unexpired now peers) = 0%nat));
          [rewrite lookup_delete_ne by done | rewrite lookup_insert_ne by done];
          apply Hproms.
Qed.

Lemma getBrokenPromises_spec now tr :
  let r := IWantTracer.getBrokenPromises now tr in
  (∀ p, r.1 !! p
        = if decide (brokenCount now (IWantTracer.promises tr) p = 0%nat)
          then None
          else Some (brokenCount now (IWantTracer.promises tr) p))
  ∧ (∀ mid, IWantTracer.promises r.2 !! mid
            = peers ← IWantTracer.promises tr !! mid;
              if decide (unexpired now peers = ∅) then None
              else Some (unexpired now peers)).
Proof.
  destruct (brokenMsg_fold now (IWantTracer.promises tr)
              (IWantTracer.promises tr)) as [Hres Hproms]; [done |].
  unfold IWantTracer.getBrokenPromises.
  destruct (map_fold _ _ _) as [result proms]. cbn in *.
  split; [done |]. intros mid. rewrite Hproms.
  by destruct (IWantTracer.promises tr !! mid).
Qed.

(** X1: the map [getBrokenPromises] returns gives each peer the number of
    message ids for which its promise expired before [now], and has no
    entry for a peer without such a promise. *)
Theorem getBrokenPromises_counts (now : Z) (tr : IWantTracer.t) (p : string) :
  let n := brokenCount now (IWantTracer.promises tr) p in
  (IWantTracer.getBrokenPromises now tr).1 !! p
  = if decide (n = 0%nat) then None else Some n.
Proof. apply getBrokenPromises_spec. Qed.

(** X2: after [getBrokenPromises], the promises left are exactly those
    that had not expired ([expire >= now]), with their expiry unchanged,
    and no message id is left with an empty map of promises. *)
Theorem getBrokenPromises_cleanup (now : Z) (tr : IWantTracer.t) :
  let tr' := (IWantTracer.getBrokenPromises now tr).2 in
  (∀ mid p, promiseOf tr' mid p
            = e ← promiseOf tr mid p;
              if bool_decide (e < now) then None else Some e)
  ∧ (∀ mid, IWantTracer.promises tr' !! mid ≠ Some ∅).
Proof.
  destruct (getBrokenPromises_spec now tr) as [_ Hproms]. cbn. split.
  - intros mid p. unfold promiseOf. rewrite Hproms.
    destruct (IWantTracer.promises tr !! mid) as [peers|]; [cbn | done].
    case_decide as Hemp; cbn.
    + pose proof (unexpired_lookup now peers p) as Hl.
      rewrite Hemp, lookup_empty in Hl. unfold expiredFor in Hl.
      destruct (peers !! p) as [e|]; cbn in *; [| done].
      by destruct (bool_decide (e < now)).
    + rewrite unexpired_lookup. unfold expiredFor.
      destruct (peers !! p) as [e|]; cbn; [| done].
      by destruct (bool_decide (e < now)).
  - intros mid. rewrite Hproms.
    destruct (IWantTracer.promises tr !! mid) as [peers|]; [cbn | done].
    case_decide; [done |]. congruence.
Qed.

(** X3: a broken promise is reported once: a second [getBrokenPromises],
    at the same time or an earlier one, returns an empty map and leaves
    the tracer as the first call left it. *)
Theorem getBrokenPromises_once (now now' : Z) (tr : IWantTracer.t) :
  now' ≤ now →
  let tr' := (IWantTracer.getBrokenPromises now tr).2 in
  IWantTracer.getBrokenPromises now' tr' = (∅, tr').
Proof.
  intros Hle tr'.
  destruct (getBrokenPromises_spec now tr) as [_ Hproms]. fold tr' in Hproms.
  assert (∀ mid peers, IWantTracer.promises tr' !! mid = Some peers →
            peers ≠ ∅ ∧ unexpired now' peers = peers) as Hleft.
  { intros mid peers. rewrite Hproms.
    destruct (IWantTracer.promises tr !! mid) as [peers0|]; [cbn | done].
    case_decide as Hemp; [done |]. intros [= <-]. split; [done |].
    apply map_eq. intros p. rewrite unexpired_lookup. unfold expiredFor.
    destruct (unexpired now peers0 !! p) as [e|] eqn:He; cbn; [| done].
    apply map_lookup_filter_Some in He as [_ He]. cbn in He.
    by rewrite bool_decide_eq_false_2 by lia. }
  destruct (getBrokenPromises_spec now' tr') as [Hres' Hproms'].
  destruct (IWantTracer.getBrokenPromises now' tr') as [result [proms]].
  cbn in Hres', Hproms'. f_equal.
  - apply map_eq. intros p. rewrite Hres', lookup_empty.
    rewrite decide_True; [done |]. unfold brokenCount.
    apply map_size_empty_iff, map_empty. intros mid.
    apply map_lookup_filter_None. right. intros peers Hpeers. cbn.
    destruct (Hleft mid peers Hpeers) as [_ Hun].
    unfold expiredFor.
    destruct (peers !! p) as [e|] eqn:He; cbn; [| exact id].
    assert (unexpired now' peers !! p = Some e) as Hl by by rewrite Hun.
    apply map_lookup_filter_Some in Hl as [_ Hl]. cbn in Hl.
    rewrite bool_decide_eq_false_2 by done. exact id.
  - destruct tr' as [proms'] eqn:Htr'. f_equal. apply map_eq. intros mid.
    rewrite Hproms'. cbn.
    destruct (proms' !! mid) as [peers|] eqn:Hmid; [cbn | done].
    destruct (Hleft mid peers Hmid) as [Hne ->]. by rewrite decide_False.
Qed.

Lemma getBrokenPromises_once_witness :
  let tr := IWantTracer.mk {[ "m1" := {[ "A" := 3000; "B" := 9000 ]};
                              "m2" := {[ "A" := 4000 ]} ]} in
  let tr' := (IWantTracer.getBrokenPromises 5000 tr).2 in
  IWantTracer.getBrokenPromises 5000 tr' = (∅, tr').
Proof.
  intros tr tr'. apply (getBrokenPromises_once 5000 5000 tr). lia.
Defined.

Section AddPromise.
Variable GossipsubIWantFollowupTime : Z.

(** X4: [addPromise] returns and tracks the message id drawn from the
    list for the peer: a promise the peer already has for that id keeps
    its expiry, a new one expires at [now + GossipsubIWantFollowupTime];
    no other promise, of this peer or of another, is touched. *)
Theorem addPromise_tracks (now : Z) (ix : nat) (p mid : string)
    (msgIds : list string) (tr : IWantTracer.t) :
  msgIds !! ix = Some mid →
  ∃ tr', IWantTracer.addPromise GossipsubIWantFollowupTime now ix p msgIds tr
         = Some tr'
    ∧ promiseOf tr' mid p
      = Some (default (now + GossipsubIWantFollowupTime) (promiseOf tr mid p))
    ∧ ∀ mid' p', (mid', p') ≠ (mid, p) →
        promiseOf tr' mid' p' = promiseOf tr mid' p'.
Proof.
  intros Hix. unfold IWantTracer.addPromise. rewrite Hix. cbn.
  eexists. split; [reflexivity |].
  unfold promiseOf. cbn. split.
  - rewrite lookup_insert_eq. cbn.
    destruct (IWantTracer.promises tr !! mid) as [peers|] eqn:Hmid; cbn.
    + destruct (peers !! p) as [e|] eqn:Hp; [done |].
      by rewrite lookup_insert_eq.
    + rewrite lookup_empty. by rewrite lookup_insert_eq.
  - intros mid' p' Hne.
    destruct (decide (mid = mid')) as [<- |]; [| by rewrite lookup_insert_ne].
    rewrite lookup_insert_eq. cbn.
    assert (p ≠ p') as Hp by congruence.
    destruct (IWantTracer.promises tr !! mid) as [peers|] eqn:Hmid; cbn.
    + destruct (peers !! p) as [e|]; [done |]. by rewrite lookup_insert_ne.
    + rewrite lookup_empty. by rewrite lookup_insert_ne.
Qed.

Lemma brokenCount_entry now (m : gmap string (gmap string Z)) mid peers p :
  brokenCount now (<[mid := peers]> m) p
  = ((if expiredFor now p peers then 1 else 0)
     + brokenCount now (delete mid m) p)%nat.
Proof.
  rewrite <- (insert_delete_eq m mid peers).
  apply brokenCount_insert, lookup_delete_eq.
Qed.

(** X5: a new promise of a peer is reported as broken by
    [getBrokenPromises] at time [t] exactly when its follow-up time has
    gone by: after [addPromise] at time [now] for a message the peer had
    no promise for, the count of the peer is one more than it would have
    been without the promise if [now + GossipsubIWantFollowupTime < t],
    and the same otherwise. *)
Theorem addPromise_then_broken (now t : Z) (ix : nat) (p mid : string)
    (msgIds : list string) (tr tr' : IWantTracer.t) :
  msgIds !! ix = Some mid →
  promiseOf tr mid p = None →
  IWantTracer.addPromise GossipsubIWantFollowupTime now ix p msgIds tr
  = Some tr' →
  brokenCount t (IWantTracer.promises tr') p
  = ((if bool_decide (now + GossipsubIWantFollowupTime < t)%Z then 1 else 0)
     + brokenCount t (IWantTracer.promises tr) p)%nat.
Proof.
  intros Hix Hnone. unfold IWantTracer.addPromise. rewrite Hix. cbn.
  intros [= <-]. cbn. rewrite brokenCount_entry.
  unfold promiseOf in Hnone.
  destruct (IWantTracer.promises tr !! mid) as [peers|] eqn:Hmid;
    cbn in Hnone |- *.
  - rewrite Hnone.
    rewrite <- (insert_id (IWantTracer.promises tr) mid peers) at 2 by done.
    rewrite (brokenCount_entry _ (IWantTracer.promises tr)).
    rewrite expiredFor_insert, decide_True by done.
    assert (expiredFor t p peers = false) as ->; [| done].
    unfold expiredFor. by rewrite Hnone.
  - rewrite lookup_empty, (delete_id _ _ Hmid).
    by rewrite expiredFor_insert, decide_True.
Qed.
End AddPromise.

Lemma addPromise_tracks_witness :
  let tr := IWantTracer.mk {[ "m1" := {[ "A" := 3000 ]} ]} in
  ∃ tr', IWantTracer.addPromise 3000 5000 1 "A" ["m0"; "m1"] tr = Some tr'
    ∧ promiseOf tr' "m1" "A" = Some 3000.
Proof.
  intros tr.
  destruct (addPromise_tracks 3000 5000 1 "A" "m1" ["m0"; "m1"] tr eq_refl)
    as (tr' & Hadd & Hp & _).
  exists tr'. split; [exact Hadd | exact Hp].
Defined.

Lemma addPromise_then_broken_witness :
  let tr := IWantTracer.mk {[ "m1" := {[ "B" := 3000 ]} ]} in
  ∃ tr', IWantTracer.addPromise 3000 1000 1 "A" ["m0"; "m1"] tr = Some tr'
    ∧ brokenCount 4001 (IWantTracer.promises tr') "A"
      = (1 + brokenCount 4001 (IWantTracer.promises tr) "A")%nat.
Proof.
  intros tr. eexists. split; [reflexivity |].
  apply (addPromise_then_broken 3000 1000 4001 1 "A" "m1" ["m0"; "m1"] tr);
    reflexivity.
Defined.

(** ** Starting, grafting, pruning, removing *)

(** X6: [start] sets the ticker of an engine that has none and touches
    nothing else; on a running engine it keeps the ticker there is; and
    [stop] after [start] always leaves the engine stopped and empty. *)
Theorem start_then_stop (h h' : Timeout) (st : PeerScore) :
  peerStats (start h st) = peerStats st
  ∧ peerIPs (start h st) = peerIPs st
  ∧ deliveryRecords (start h st) = deliveryRecords st
  ∧ is_Some (_backgroundInterval (start h st))
  ∧ start h' (start h st) = start h st
  ∧ stopped (stop (start h st)).
Proof.
  unfold start, stop, stopped.
  destruct (_backgroundInterval st) as [h0|] eqn:Hh; cbn; rewrite ?Hh; cbn;
    repeat split; eauto.
Qed.

Lemma topicStatsOf_putPeer id ps st q T :
  topicStatsOf (putPeer id ps st) q T
  = if decide (id = q) then statsOn ps T else topicStatsOf st q T.
Proof.
  unfold topicStatsOf. cbn. case_decide; [subst; by rewrite lookup_insert_eq |].
  by rewrite lookup_insert_ne.
Qed.

Section MeshHooks.
Variable params : PeerScoreParams.
Local Open Scope Q_scope.

(** The entry [graft] leaves for a known peer on a scored topic. *)
Lemma graft_known now id topic st ps tp :
  peerStats st !! id = Some ps →
  topicParams params !! topic = Some tp →
  ∃ ps1 ts1,
    peerStats (graft params now id topic st) !! id = Some ps1
    ∧ connected ps1 = connected ps
    ∧ topics ps1 !! topic = Some ts1
    ∧ ts1 = set_meshMessageDeliveriesActive false
              (set_meshTime 0%Z
                 (set_graftTime now (set_inMesh true (statsOn ps topic)))).
Proof.
  intros Hps Htp. unfold graft. rewrite Hps.
  destruct (ensureTopicStats params topic ps) as [[ts p1]|] eqn:Hens.
  2:{ apply ensureTopicStats_None in Hens as [_ ?]. congruence. }
  pose proof (ensureTopicStats_Some _ _ _ _ _ Hens) as (-> & _).
  destruct (same_peer_ensure_put params _ _ _ _
              (set_meshMessageDeliveriesActive false
                 (set_meshTime 0%Z
                    (set_graftTime now (set_inMesh true (statsOn ps topic)))))
              Hens) as (Hconn & _).
  eexists _, _. cbn. rewrite lookup_insert_eq. split; [done |].
  split; [exact Hconn |]. split; [cbn; apply lookup_insert_eq | done].
Qed.

(** The statistics [prune] leaves for a known peer on a scored topic. *)
Lemma prune_known id topic st ps tp :
  peerStats st !! id = Some ps →
  topicParams params !! topic = Some tp →
  let ts := statsOn ps topic in
  let deficit := meshMessageDeliveriesThreshold tp - meshMessageDeliveries ts in
  ∃ st', prune params id topic st = Some st'
    ∧ topicStatsOf st' id topic
      = set_inMesh false
          (if meshMessageDeliveriesActive ts
              && Qltb (meshMessageDeliveries ts)
                   (meshMessageDeliveriesThreshold tp)
           then set_meshFailurePenalty
                  (meshFailurePenalty ts + deficit * deficit) ts
           else ts).
Proof.
  intros Hps Htp ts deficit. subst ts deficit. unfold prune. rewrite Hps.
  destruct (ensureTopicStats params topic ps) as [[ts ps1]|] eqn:Hens.
  2:{ apply ensureTopicStats_None in Hens as [_ ?]. congruence. }
  pose proof (ensureTopicStats_Some _ _ _ _ _ Hens) as (-> & _).
  rewrite Htp. cbn. eexists. split; [done |].
  rewrite topicStatsOf_putPeer, decide_True by done.
  by rewrite (statsOn_ensure_put _ _ _ _ _ _ _ Hens), decide_True by done.
Qed.

(** X7: [graft] of a known peer on a scored topic puts the peer in the
    mesh with [graftTime = now], [meshTime = 0] and the delivery threshold
    disarmed, keeps the four counters, and touches no other topic, no
    other peer, no IP bucket and no delivery record; on a topic that is
    not scored (and has no entry) it changes nothing. *)
Theorem graft_enters_mesh (now : Z) (id topic : string) (st : PeerScore)
    (ps : PeerStats) :
  peerStats st !! id = Some ps →
  let st' := graft params now id topic st in
  (is_Some (topicParams params !! topic) →
     topicStatsOf st' id topic
     = set_meshMessageDeliveriesActive false
         (set_meshTime 0%Z
            (set_graftTime now (set_inMesh true (topicStatsOf st id topic))))
     ∧ (∀ T, T ≠ topic → topicStatsOf st' id T = topicStatsOf st id T)
     ∧ (∀ q, q ≠ id → peerStats st' !! q = peerStats st !! q)
     ∧ peerIPs st' = peerIPs st
     ∧ deliveryRecords st' = deliveryRecords st)
  ∧ (topicParams params !! topic = None → topics ps !! topic = None →
     st' = st).
Proof.
  intros Hps st'. subst st'. unfold graft. rewrite Hps. split.
  - intros [tp Htp].
    destruct (ensureTopicStats params topic ps) as [[ts ps1]|] eqn:Hens.
    2:{ apply ensureTopicStats_None in Hens as [_ ?]. congruence. }
    pose proof (ensureTopicStats_Some _ _ _ _ _ Hens) as (-> & _).
    rewrite topicStatsOf_putPeer, decide_True by done.
    rewrite (statsOn_ensure_put _ _ _ _ _ _ _ Hens), decide_True by done.
    assert (topicStatsOf st id topic = statsOn ps topic) as ->.
    { unfold topicStatsOf. by rewrite Hps. }
    split; [done |]. split; [| split; [| done]].
    + intros T HT. rewrite topicStatsOf_putPeer, decide_True by done.
      rewrite (statsOn_ensure_put _ _ _ _ _ _ _ Hens), decide_False by done.
      unfold topicStatsOf. by rewrite Hps.
    + intros q Hq. cbn. by rewrite lookup_insert_ne.
  - intros Hnp Hnt. unfold ensureTopicStats. by rewrite Hnt, Hnp.
Qed.

(** X8: [prune] of a known peer on a scored topic takes the peer out of
    the mesh and adds [(threshold - meshMessageDeliveries)²] to
    [meshFailurePenalty] exactly when the threshold is armed
    ([meshMessageDeliveriesActive]) and the deliveries are below it,
    whether or not the peer was in the mesh; the penalty never goes down
    and the other counters are kept. *)
Theorem prune_penalty (id topic : string) (st : PeerScore) (ps : PeerStats)
    (tp : TopicScoreParams) :
  peerStats st !! id = Some ps →
  topicParams params !! topic = Some tp →
  ∃ st', prune params id topic st = Some st'
    ∧ let old := topicStatsOf st id topic in
      let new := topicStatsOf st' id topic in
      let threshold := meshMessageDeliveriesThreshold tp in
      let deficit := threshold - meshMessageDeliveries old in
      inMesh new = false
      ∧ meshFailurePenalty new
        = (if meshMessageDeliveriesActive old
              && Qltb (meshMessageDeliveries old) threshold
           then meshFailurePenalty old + deficit * deficit
           else meshFailurePenalty old)
      ∧ meshFailurePenalty old <= meshFailurePenalty new
      ∧ firstMessageDeliveries new = firstMessageDeliveries old
      ∧ meshMessageDeliveries new = meshMessageDeliveries old
      ∧ invalidMessageDeliveries new = invalidMessageDeliveries old
      ∧ meshMessageDeliveriesActive new = meshMessageDeliveriesActive old
      ∧ (∀ q, q ≠ id → peerStats st' !! q = peerStats st !! q)
      ∧ peerIPs st' = peerIPs st.
Proof.
  intros Hps Htp. unfold prune. rewrite Hps.
  destruct (ensureTopicStats params topic ps) as [[ts ps1]|] eqn:Hens.
  2:{ apply ensureTopicStats_None in Hens as [_ ?]. congruence. }
  pose proof (ensureTopicStats_Some _ _ _ _ _ Hens) as (-> & _).
  rewrite Htp. cbn. eexists. split; [done |].
  rewrite topicStatsOf_putPeer, decide_True by done.
  rewrite (statsOn_ensure_put _ _ _ _ _ _ _ Hens), decide_True by done.
  assert (topicStatsOf st id topic = statsOn ps topic) as ->.
  { unfold topicStatsOf. by rewrite Hps. }
  set (ts := statsOn ps topic).
  assert (∀ q, q ≠ id →
            <[id := putTopicStats topic
                      (set_inMesh false
                         (if meshMessageDeliveriesActive ts
                             && Qltb (meshMessageDeliveries ts)
                                  (meshMessageDeliveriesThreshold tp)
                          then set_meshFailurePenalty
                                 (meshFailurePenalty ts
                                  + (meshMessageDeliveriesThreshold tp
                                     - meshMessageDeliveries ts)
                                    * (meshMessageDeliveriesThreshold tp
                                       - meshMessageDeliveries ts)) ts
                          else ts)) ps1]> (peerStats st) !! q
            = peerStats st !! q) as Hoth.
  { intros q Hq. by rewrite lookup_insert_ne. }
  pose proof (deficit_penalty_nonneg 0 (meshMessageDeliveriesThreshold tp)
                (meshMessageDeliveries ts) ltac:(lra)) as Hsq.
  destruct (meshMessageDeliveriesActive ts
            && Qltb (meshMessageDeliveries ts)
                 (meshMessageDeliveriesThreshold tp)) eqn:Hc; cbn.
  - split; [done |]. split; [done |]. split; [lra |]. by repeat split.
  - split; [done |]. split; [done |]. split; [lra |]. by repeat split.
Qed.

(** X9: [graft] disarms the threshold, so a peer pruned before the next
    [_refreshScores] after its graft gets no mesh failure penalty,
    whatever its deliveries. *)
Theorem graft_then_prune (now : Z) (id topic : string) (st : PeerScore)
    (ps : PeerStats) (tp : TopicScoreParams) :
  peerStats st !! id = Some ps →
  topicParams params !! topic = Some tp →
  ∃ st', prune params id topic (graft params now id topic st) = Some st'
    ∧ meshFailurePenalty (topicStatsOf st' id topic)
      = meshFailurePenalty (topicStatsOf st id topic)
    ∧ inMesh (topicStatsOf st' id topic) = false.
Proof.
  intros Hps Htp.
  destruct (graft_known now id topic st ps tp Hps Htp)
    as (ps1 & ts1 & Hps1 & _ & Hts1 & Heq).
  destruct (prune_known id topic _ ps1 tp Hps1 Htp) as (st' & Hpr & Hstats).
  exists st'. split; [exact Hpr |]. rewrite Hstats.
  unfold statsOn. rewrite Hts1, Heq. cbn.
  unfold topicStatsOf. by rewrite Hps.
Qed.
End MeshHooks.

Lemma graft_enters_mesh_witness :
  let st := Ex.after [AddPeer Ex.cm1 "A"; ValidateMessage 1 Ex.msgA;
                      DeliverMessage 2 Ex.msgA] in
  let st' := graft Ex.params 7 "A" "T" st in
  inMesh (topicStatsOf st' "A" "T") = true
  ∧ graftTime (topicStatsOf st' "A" "T") = 7
  ∧ firstMessageDeliveries (topicStatsOf st' "A" "T") = 1%Q
  ∧ graft Ex.params 7 "A" "U" st = st.
Proof.
  intros st st'.
  destruct (graft_enters_mesh Ex.params 7 "A" "T" st
              (mkPeerStats true 0
                 {[ "T" := mkTopicStats false 0 0 (0 + 1) 0 false 0 0 ]} 0
                 ["1.2.3.4"])) as [Hs _]; [vm_compute; reflexivity |].
  destruct Hs as (Hstats & _); [by eexists |].
  fold st' in Hstats. rewrite Hstats.
  split; [reflexivity |]. split; [reflexivity |]. split; [reflexivity |].
  destruct (graft_enters_mesh Ex.params 7 "A" "U" st
              (mkPeerStats true 0
                 {[ "T" := mkTopicStats false 0 0 (0 + 1) 0 false 0 0 ]} 0
                 ["1.2.3.4"])) as [_ Hu]; [vm_compute; reflexivity |].
  apply Hu; reflexivity.
Defined.

Lemma prune_penalty_witness :
  let st := Ex.after [AddPeer Ex.cm1 "B"; Graft 0 "B" "T";
                      RefreshScores 1010] in
  ∃ st', prune Ex.params "B" "T" st = Some st'
    ∧ (meshFailurePenalty (topicStatsOf st' "B" "T") == 400)%Q
    ∧ inMesh (topicStatsOf st' "B" "T") = false.
Proof.
  intros st.
  destruct (prune_penalty Ex.params "B" "T" st
              (mkPeerStats true 0
                 {[ "T" := mkTopicStats true 0 1010 0 0 true 0 0 ]} 0
                 ["1.2.3.4"]) Ex.tparams)
    as (st' & Hpr & Hin & Hmfp & _).
  - vm_compute. reflexivity.
  - reflexivity.
  - exists st'. split; [exact Hpr |]. split; [| exact Hin].
    rewrite Hmfp. vm_compute. reflexivity.
Defined.

Lemma graft_then_prune_witness :
  let st := Ex.after [AddPeer Ex.cm1 "B"; Graft 0 "B" "T";
                      RefreshScores 1010] in
  ∃ st', prune Ex.params "B" "T" (graft Ex.params 1020 "B" "T" st) = Some st'
    ∧ meshFailurePenalty (topicStatsOf st' "B" "T")
      = meshFailurePenalty (topicStatsOf st "B" "T").
Proof.
  intros st.
  destruct (graft_then_prune Ex.params 1020 "B" "T" st
              (mkPeerStats true 0
                 {[ "T" := mkTopicStats true 0 1010 0 0 true 0 0 ]} 0
                 ["1.2.3.4"]) Ex.tparams)
    as (st' & Hpr & Hmfp & _).
  - vm_compute. reflexivity.
  - reflexivity.
  - exists st'. split; [exact Hpr | exact Hmfp].
Defined.

(** ** Removal with a positive score, and time in the mesh *)

Section RemoveAndRefresh.
Variable params : PeerScoreParams.
Local Open Scope Q_scope.

(** X10: a peer removed while its score is positive is forgotten at once
    (nothing is retained): its entry is deleted, so its score reads 0, and
    it is taken out of the bucket of each of its addresses; no other peer
    loses its entry or a bucket membership, and the call cannot throw. *)
Theorem removePeer_positive (now : Z) (id : string) (st : PeerScore)
    (ps : PeerStats) :
  peerStats st !! id = Some ps →
  0 < score params id st →
  ∃ st', removePeer params now id st = Some st'
    ∧ peerStats st' !! id = None
    ∧ score params id st' = 0
    ∧ (∀ ip, ip ∈ ips ps → id ∉ peersOfIP (peerIPs st') ip)
    ∧ (∀ q, q ≠ id →
         peerStats st' !! q = peerStats st !! q
         ∧ ∀ ip, q ∈ peersOfIP (peerIPs st') ip
                 ↔ q ∈ peersOfIP (peerIPs st) ip)
    ∧ deliveryRecords st' = deliveryRecords st.
Proof.
  intros Hps Hpos. unfold removePeer. rewrite Hps.
  destruct (Qlt_le_dec 0 (score params id st)) as [_ | Hle]; [| lra].
  eexists. split; [done |]. cbn.
  split; [apply lookup_delete_eq |]. split.
  { unfold score. cbn. by rewrite lookup_delete_eq. }
  split; [| split; [| done]].
  - intros ip Hip Hin. apply _removeIPs_elem in Hin as [_ Hno]. by apply Hno.
  - intros q Hq. split; [by rewrite lookup_delete_ne |].
    intros ip. rewrite _removeIPs_elem. split; [by intros [? _] |].
    intros ?. split; [done |]. by intros [? _].
Qed.

(** X11: on a connected peer, [_refreshScores] at time [now] leaves
    [inMesh] and [graftTime] of a scored topic as they are; in the mesh it
    sets [meshTime] to [now - graftTime] and arms the delivery threshold
    once that exceeds [meshMessageDeliveriesActivation], never disarming
    it; out of the mesh it leaves both as they are. *)
Theorem refresh_mesh_time (now : Z) (st : PeerScore) (p T : string)
    (ps : PeerStats) (tp : TopicScoreParams) (ts : TopicStats) :
  peerStats st !! p = Some ps →
  connected ps = true →
  topicParams params !! T = Some tp →
  topics ps !! T = Some ts →
  let new := topicStatsOf (_refreshScores params now st) p T in
  inMesh new = inMesh ts
  ∧ graftTime new = graftTime ts
  ∧ (inMesh ts = true →
       meshTime new = (now - graftTime ts)%Z
       ∧ meshMessageDeliveriesActive new
         = meshMessageDeliveriesActive ts
           || bool_decide (meshMessageDeliveriesActivation tp
                           < now - graftTime ts)%Z)
  ∧ (inMesh ts = false →
       meshTime new = meshTime ts
       ∧ meshMessageDeliveriesActive new = meshMessageDeliveriesActive ts).
Proof.
  intros Hps Hc Htp Hts new. subst new. unfold topicStatsOf.
  rewrite (refresh_connected params now st p ps Hps Hc). cbn.
  unfold statsOn. rewrite decayPeer_topics, Hts. cbn.
  unfold refreshTopic. rewrite Htp. cbn.
  destruct (inMesh ts) eqn:Hmesh; cbn.
  - case_bool_decide; cbn; rewrite ?Hmesh;
      (split; [done |]; split; [done |]; split; [| done]);
      intros _; (split; [done |]);
      by rewrite ?orb_true_r, ?orb_false_r.
  - rewrite Hmesh. split; [done |]. split; [done |]. split; [done |].
    by intros _.
Qed.

(** X12: the delivery threshold of a grafted peer is armed by the first
    [_refreshScores] that runs more than
    [meshMessageDeliveriesActivation] after the graft, and not before. *)
Theorem graft_then_refresh (t0 now : Z) (id topic : string) (st : PeerScore)
    (ps : PeerStats) (tp : TopicScoreParams) :
  peerStats st !! id = Some ps →
  connected ps = true →
  topicParams params !! topic = Some tp →
  let st' := _refreshScores params now (graft params t0 id topic st) in
  inMesh (topicStatsOf st' id topic) = true
  ∧ meshTime (topicStatsOf st' id topic) = (now - t0)%Z
  ∧ meshMessageDeliveriesActive (topicStatsOf st' id topic)
    = bool_decide (meshMessageDeliveriesActivation tp < now - t0)%Z.
Proof.
  intros Hps Hc Htp st'. subst st'.
  destruct (graft_known params t0 id topic st ps tp Hps Htp)
    as (ps1 & ts1 & Hps1 & Hc1 & Hts1 & Heq).
  rewrite Hc in Hc1. unfold topicStatsOf.
  rewrite (refresh_connected params now _ id ps1 Hps1 Hc1). cbn.
  unfold statsOn. rewrite decayPeer_topics, Hts1. cbn.
  unfold refreshTopic. rewrite Htp, Heq. cbn.
  case_bool_decide; cbn; by repeat split.
Qed.
End RemoveAndRefresh.

Lemma removePeer_positive_witness :
  let st := Ex.after [AddPeer Ex.cm1 "A"; ValidateMessage 1 Ex.msgA;
                      DeliverMessage 2 Ex.msgA] in
  ∃ st', removePeer Ex.params 5 "A" st = Some st'
    ∧ peerStats st' !! "A" = None
    ∧ "A" ∉ peersOfIP (peerIPs st') "1.2.3.4".
Proof.
  intros st.
  destruct (removePeer_positive Ex.params 5 "A" st
              (mkPeerStats true 0
                 {[ "T" := mkTopicStats false 0 0 (0 + 1) 0 false 0 0 ]} 0
                 ["1.2.3.4"]))
    as (st' & Hrm & Hnone & _ & Hips & _).
  - vm_compute. reflexivity.
  - vm_compute. reflexivity.
  - exists st'. split; [exact Hrm |]. split; [exact Hnone |].
    apply Hips. apply list_elem_of_here.
Defined.

Lemma refresh_mesh_time_witness :
  let st := Ex.after [AddPeer Ex.cm1 "B"; Graft 5 "B" "T"] in
  meshTime (topicStatsOf (_refreshScores Ex.params 1010 st) "B" "T") = 1005
  ∧ meshMessageDeliveriesActive
      (topicStatsOf (_refreshScores Ex.params 1010 st) "B" "T") = true.
Proof.
  intros st.
  destruct (refresh_mesh_time Ex.params 1010 st "B" "T"
              (mkPeerStats true 0
                 {[ "T" := mkTopicStats true 5 0 0 0 false 0 0 ]} 0
                 ["1.2.3.4"]) Ex.tparams
              (mkTopicStats true 5 0 0 0 false 0 0))
    as (_ & _ & Hmesh & _).
  - vm_compute. reflexivity.
  - reflexivity.
  - reflexivity.
  - reflexivity.
  - destruct (Hmesh eq_refl) as [Hmt Hact]. split; [exact Hmt | exact Hact].
Defined.

Lemma graft_then_refresh_witness :
  let st := Ex.after [AddPeer Ex.cm1 "B"] in
  meshMessageDeliveriesActive
    (topicStatsOf (_refreshScores Ex.params 1000
                     (graft Ex.params 0 "B" "T" st)) "B" "T") = false
  ∧ meshMessageDeliveriesActive
      (topicStatsOf (_refreshScores Ex.params 1001
                       (graft Ex.params 0 "B" "T" st)) "B" "T") = true.
Proof.
  intros st. split.
  - destruct (graft_then_refresh Ex.params 0 1000 "B" "T" st
                (mkPeerStats true 0 ∅ 0 ["1.2.3.4"]) Ex.tparams)
      as (_ & _ & Hact); [vm_compute; reflexivity | reflexivity | reflexivity |].
    exact Hact.
  - destruct (graft_then_refresh Ex.params 0 1001 "B" "T" st
                (mkPeerStats true 0 ∅ 0 ["1.2.3.4"]) Ex.tparams)
      as (_ & _ & Hact); [vm_compute; reflexivity | reflexivity | reflexivity |].
    exact Hact.
Defined.

(** ** Rejections, duplicates and first deliveries *)

Lemma ensureRecord_cases tcd now mid md drec md' :
  MessageDeliveries.ensureRecord tcd now mid md = (drec, md') →
  status drec = from_option status unknown (MessageDeliveries.records md !! mid)
  ∧ peers drec = from_option peers ∅ (MessageDeliveries.records md !! mid)
  ∧ MessageDeliveries.records md' !! mid = Some drec
  ∧ (∀ m, m ≠ mid →
       MessageDeliveries.records md' !! m = MessageDeliveries.records md !! m)
  ∧ (is_Some (MessageDeliveries.records md !! mid) → md' = md).
Proof.
  unfold MessageDeliveries.ensureRecord.
  destruct (MessageDeliveries.records md !! mid) as [d|] eqn:Hd.
  - intros [= <- <-]. cbn. by repeat split.
  - intros [= <- <-]. cbn. rewrite lookup_insert_eq.
    repeat split; try done.
    all: try (intros m Hm; by rewrite lookup_insert_ne).
    all: try (by intros [? ?]).
Qed.

Lemma forEachPeer_foldl (h : string → PeerScore → PeerScore) l : ∀ st,
  forEachPeer (λ p st, Some (h p st)) l st
  = Some (foldl (λ st p, h p st) st l).
Proof. induction l as [| p l IH]; intros st; cbn; [done | apply IH]. Qed.

(** A loop over distinct peers that runs a marking loop on the statistics
    of the peers selected by [c]. *)
Lemma forEachPeer_lookup (c : string → bool)
    (loop : PeerStats → option PeerStats)
    (f : string → PeerScore → option PeerScore) (l : list string) :
  (∀ p st, f p st = if c p then withPeer p loop st else Some st) →
  NoDup l →
  ∀ st st', forEachPeer f l st = Some st' →
    (∀ q, peerStats st' !! q
          = if decide (q ∈ l ∧ c q = true) then peerStats st !! q ≫= loop
            else peerStats st !! q)
    ∧ peerIPs st' = peerIPs st
    ∧ deliveryRecords st' = deliveryRecords st
    ∧ _backgroundInterval st' = _backgroundInterval st.
Proof.
  intros Hf. induction 1 as [| p l Hp Hnd IH]; intros st st'; cbn.
  - intros [= <-]. split; [| done]. intros q.
    rewrite decide_False; [done |]. intros [?%elem_of_nil _]. done.
  - destruct (f p st) as [st1|] eqn:Hp1; [cbn | done]. intros Hl.
    destruct (IH st1 st' Hl) as (Hstats & Hips & Hrecs & Hint).
    rewrite Hf in Hp1.
    assert (peerIPs st1 = peerIPs st ∧ deliveryRecords st1 = deliveryRecords st
            ∧ _backgroundInterval st1 = _backgroundInterval st
            ∧ (∀ q, q ≠ p → peerStats st1 !! q = peerStats st !! q)
            ∧ peerStats st1 !! p
              = if c p then peerStats st !! p ≫= loop else peerStats st !! p)
      as (Hips1 & Hrecs1 & Hint1 & Hoth1 & Hp1').
    { destruct (c p).
      - destruct (withPeer_frame _ _ _ _ Hp1) as (? & ? & ? & ? & _).
        repeat split; try done.
        apply withPeer_Some in Hp1
          as [[Hid ->] | (ps & ps' & Hid & Hloop & ->)].
        + by rewrite Hid.
        + cbn. by rewrite lookup_insert_eq, Hid.
      - injection Hp1 as <-. by repeat split. }
    split; [| split; [congruence | split; congruence]].
    intros q. rewrite Hstats. destruct (decide (q = p)) as [-> |].
    + rewrite (decide_False (P := p ∈ l ∧ _)) by (by intros [? _]).
      rewrite Hp1'. destruct (c p) eqn:Hc.
      * rewrite decide_True; [done |]. split; [apply list_elem_of_here | done].
      * rewrite decide_False; [done |]. by intros [_ ?].
    + rewrite Hoth1 by done.
      destruct (decide (q ∈ l ∧ c q = true)) as [[Hin Hc] | Hno].
      * rewrite decide_True; [done |]. split; [by right | done].
      * rewrite decide_False; [done |].
        intros [[? | ?]%elem_of_cons ?]; [done |]. by apply Hno.
Qed.

Section MarkingLoops.
Variable params : PeerScoreParams.

(** The loop of [_markInvalidMessageDelivery] on [pstats]. *)
Lemma markInvalid_loop_stats l ps ps' T tp :
  forEachTopic (λ t ps, Some (markInvalidTopic params t ps)) l ps = Some ps' →
  topicParams params !! T = Some tp →
  statsOn ps' T = Nat.iter (occurrences T l) creditInvalid (statsOn ps T).
Proof.
  intros Hl Htp.
  eapply (forEachTopic_stats params _ (λ _, creditInvalid)); [| done | done].
  intros t p p' T' tp' [= <-] Htp'. by eapply markInvalidTopic_stats.
Qed.

Lemma markInvalid_loop_total l ps :
  is_Some (forEachTopic (λ t ps, Some (markInvalidTopic params t ps)) l ps).
Proof. rewrite forEachTopic_foldl. by eexists. Qed.

(** [_markInvalidMessageDelivery] on the statistics the engine holds. *)
Lemma markInvalid_topicStatsOf id msg st q T tp :
  topicParams params !! T = Some tp →
  is_Some (peerStats st !! q) →
  topicStatsOf (_markInvalidMessageDelivery params id msg st) q T
  = if decide (q = id)
    then Nat.iter (occurrences T (topicIDs msg)) creditInvalid
           (topicStatsOf st q T)
    else topicStatsOf st q T.
Proof.
  intros Htp [ps Hps].
  pose proof (markInvalid_withPeer params id msg st) as Hm. symmetry in Hm.
  destruct (withPeer_frame _ _ _ _ Hm) as (_ & _ & _ & Hoth & _).
  case_decide as Hq.
  - subst q. apply withPeer_Some in Hm
      as [[Hid _] | (ps0 & ps' & Hid & Hloop & ->)]; [congruence |].
    replace ps0 with ps in * by congruence.
    rewrite topicStatsOf_putPeer, decide_True by done.
    unfold topicStatsOf. rewrite Hps. cbn.
    by eapply markInvalid_loop_stats.
  - unfold topicStatsOf. by rewrite Hoth.
Qed.
End MarkingLoops.

Section Rejections.
Variable params : PeerScoreParams.
Variable msgId : InMessage → string.
Variable TimeCacheDuration : Z.
Local Open Scope Q_scope.

(** X13: a [rejectMessage] with a reason other than the two signature
    reasons, for a message whose record already has a terminal status, is
    a no-op: the engine is left exactly as it was (no counter of any peer
    changes, unlike a second [deliverMessage]). *)
Theorem reject_terminal_noop (st : PeerScore) (now : Z) (msg : InMessage)
    (reason : string) (drec : DeliveryRecord) :
  recordOf st (msgId msg) = Some drec →
  status drec ≠ unknown →
  isSignatureError reason = false →
  rejectMessage params msgId TimeCacheDuration now msg reason st = st.
Proof.
  intros Hrec Hst Hsig. unfold rejectMessage. rewrite Hsig.
  rewrite (ensureRecord_existing _ now _ _ drec) by done.
  rewrite bool_decide_eq_true_2 by done.
  apply set_deliveryRecords_same.
Qed.

(** X14: a [rejectMessage] with [ERR_MISSING_SIGNATURE] or
    [ERR_INVALID_SIGNATURE] never looks at the delivery records: they are
    left as they are (no record is created, no status is set), and only
    [receivedFrom] is penalised, by 1 on [invalidMessageDeliveries] per
    occurrence of each scored topic; so every such rejection of the same
    message counts again. *)
Theorem reject_signature (st : PeerScore) (now : Z) (msg : InMessage)
    (reason : string) :
  isSignatureError reason = true →
  let st' := rejectMessage params msgId TimeCacheDuration now msg reason st in
  deliveryRecords st' = deliveryRecords st
  ∧ peerIPs st' = peerIPs st
  ∧ (∀ q, q ≠ receivedFrom msg → peerStats st' !! q = peerStats st !! q)
  ∧ ∀ T tp, topicParams params !! T = Some tp →
      is_Some (peerStats st !! receivedFrom msg) →
      invalidMessageDeliveries (topicStatsOf st' (receivedFrom msg) T)
      == invalidMessageDeliveries (topicStatsOf st (receivedFrom msg) T)
         + inject_Z (Z.of_nat (occurrences T (topicIDs msg))).
Proof.
  intros Hsig st'. subst st'. unfold rejectMessage. rewrite Hsig.
  destruct (markInvalid_frame params (receivedFrom msg) msg st)
    as (Hips & Hrecs & _ & Hoth & _).
  split; [done |]. split; [done |]. split; [done |].
  intros T tp Htp Hknown.
  rewrite (markInvalid_topicStatsOf params _ _ _ _ _ tp Htp Hknown).
  rewrite decide_True by done. apply iter_creditInvalid.
Qed.

(** X15: a [rejectMessage] with [ERR_TOPIC_VALIDATOR_IGNORE] for a message
    that is not yet delivered or rejected sets the status of its record
    to Ignored and changes no statistics; after it, a duplicate of the
    message from a peer that is not in the record's peer set changes
    nothing at all. *)
Theorem reject_ignore (st : PeerScore) (now now' : Z) (msg dup : InMessage) :
  from_option status unknown (recordOf st (msgId msg)) = unknown →
  msgId dup = msgId msg →
  receivedFrom dup ∉ from_option peers ∅ (recordOf st (msgId msg)) →
  let st' := rejectMessage params msgId TimeCacheDuration now msg
               ERR_TOPIC_VALIDATOR_IGNORE st in
  peerStats st' = peerStats st
  ∧ peerIPs st' = peerIPs st
  ∧ status <$> recordOf st' (msgId msg) = Some ignored
  ∧ duplicateMessage params msgId TimeCacheDuration now' dup st' = Some st'.
Proof.
  intros Hst Hmid Hni st'. subst st'. unfold rejectMessage.
  assert (isSignatureError ERR_TOPIC_VALIDATOR_IGNORE = false) as -> by done.
  destruct (MessageDeliveries.ensureRecord TimeCacheDuration now (msgId msg)
              (deliveryRecords st)) as [drec md] eqn:Hens.
  destruct (ensureRecord_cases _ _ _ _ _ _ Hens) as (Hs & Hp & _).
  unfold recordOf in Hst, Hni. rewrite Hst in Hs. rewrite <- Hp in Hni.
  rewrite bool_decide_eq_false_2 by (by intros ?).
  rewrite bool_decide_eq_true_2 by done.
  split; [done |]. split; [done |]. split.
  { unfold recordOf. cbn. by rewrite lookup_insert_eq. }
  unfold duplicateMessage. rewrite Hmid.
  rewrite (ensureRecord_existing _ now' _ _ (set_status ignored drec))
    by (cbn; apply lookup_insert_eq).
  cbn. rewrite bool_decide_eq_false_2 by done. done.
Qed.
End Rejections.

Lemma reject_terminal_noop_witness :
  let st := Ex.after [AddPeer Ex.cm1 "A"; ValidateMessage 1 Ex.msgA;
                      DeliverMessage 2 Ex.msgA] in
  rejectMessage Ex.params Ex.msgId Ex.TimeCacheDuration 3 Ex.msgA
    ERR_TOPIC_VALIDATOR_REJECT st = st.
Proof.
  intros st.
  apply (reject_terminal_noop Ex.params Ex.msgId Ex.TimeCacheDuration st 3
           Ex.msgA ERR_TOPIC_VALIDATOR_REJECT (mkDeliveryRecord valid 1 2 ∅)).
  - reflexivity.
  - discriminate.
  - reflexivity.
Defined.

Lemma reject_signature_witness :
  let st := Ex.after [AddPeer Ex.cm1 "A"; ValidateMessage 1 Ex.msgA;
                      DeliverMessage 2 Ex.msgA] in
  let st' := rejectMessage Ex.params Ex.msgId Ex.TimeCacheDuration 3 Ex.msgA
               ERR_INVALID_SIGNATURE st in
  deliveryRecords st' = deliveryRecords st
  ∧ (invalidMessageDeliveries (topicStatsOf st' "A" "T")
     == invalidMessageDeliveries (topicStatsOf st "A" "T") + 1)%Q.
Proof.
  intros st st'.
  destruct (reject_signature Ex.params Ex.msgId Ex.TimeCacheDuration st 3
              Ex.msgA ERR_INVALID_SIGNATURE eq_refl)
    as (Hrecs & _ & _ & Hinv).
  split; [exact Hrecs |].
  apply (Hinv "T" Ex.tparams); [reflexivity |]. vm_compute. eauto.
Defined.

Lemma reject_ignore_witness :
  let st := Ex.after [AddPeer Ex.cm1 "A"; AddPeer Ex.cm1 "B";
                      ValidateMessage 1 Ex.msgA] in
  let st' := rejectMessage Ex.params Ex.msgId Ex.TimeCacheDuration 2 Ex.msgA
               ERR_TOPIC_VALIDATOR_IGNORE st in
  peerStats st' = peerStats st
  ∧ duplicateMessage Ex.params Ex.msgId Ex.TimeCacheDuration 3 Ex.msgB st'
    = Some st'.
Proof.
  intros st st'.
  destruct (reject_ignore Ex.params Ex.msgId Ex.TimeCacheDuration st 2 3
              Ex.msgA Ex.msgB) as (Hstats & _ & _ & Hdup).
  - reflexivity.
  - reflexivity.
  - apply not_elem_of_empty.
  - split; [exact Hstats | exact Hdup].
Defined.

(** ** Who is credited and who is penalised *)

Lemma withPeer_lookup id loop st st' q :
  withPeer id loop st = Some st' →
  peerStats st' !! q
  = if decide (q = id) then peerStats st !! q ≫= loop else peerStats st !! q.
Proof.
  intros Hw. destruct (withPeer_frame _ _ _ _ Hw) as (_ & _ & _ & Hoth & _).
  case_decide as Hq; [subst q | by apply Hoth].
  apply withPeer_Some in Hw as [[Hid ->] | (ps & ps' & Hid & Hloop & ->)].
  - by rewrite Hid.
  - cbn. by rewrite lookup_insert_eq, Hid.
Qed.

Section CreditIterations.
Local Open Scope Q_scope.

Lemma incrCapped_min cap x : incrCapped cap x == Qmin (x + 1) cap.
Proof.
  unfold incrCapped. cbn zeta.
  destruct (Qlt_le_dec cap (x + 1)) as [Hlt | Hle].
  - symmetry. apply Q.min_r. lra.
  - symmetry. by apply Q.min_l.
Qed.

Lemma incrCapped_proper cap x y : x == y → incrCapped cap x == incrCapped cap y.
Proof. intros H. by rewrite !incrCapped_min, H. Qed.

(** [n ≥ 1] capped increments are one capped addition of [n]. *)
Lemma iter_incrCapped_min cap n x :
  (0 < n)%nat →
  Nat.iter n (incrCapped cap) x == Qmin (x + inject_Z (Z.of_nat n)) cap.
Proof.
  intros Hn. destruct n as [| n]; [lia | clear Hn].
  induction n as [| n IH].
  - cbn [Nat.iter nat_rect]. rewrite incrCapped_min.
    change (inject_Z (Z.of_nat 1)) with 1. reflexivity.
  - rewrite Nat.iter_succ, (incrCapped_proper _ _ _ IH), incrCapped_min.
    rewrite (Nat2Z.inj_succ (S n)). unfold Z.succ. rewrite inject_Z_plus.
    change (inject_Z 1) with 1.
    set (k := inject_Z (Z.of_nat (S n))).
    pose proof (Q.min_spec (x + k) cap) as Ha.
    set (a := Qmin (x + k) cap) in *.
    pose proof (Q.min_spec (a + 1) cap) as Hb.
    set (b := Qmin (a + 1) cap) in *.
    pose proof (Q.min_spec (x + (k + 1)) cap) as Hc.
    set (c := Qmin (x + (k + 1)) cap) in *.
    destruct Ha as [[? ?] | [? ?]]; destruct Hb as [[? ?] | [? ?]];
      destruct Hc as [[? ?] | [? ?]]; lra.
Qed.

Lemma iter_creditFirst tp n ts :
  firstMessageDeliveries (Nat.iter n (creditFirst tp) ts)
  = Nat.iter n (incrCapped (firstMessageDeliveriesCap tp))
      (firstMessageDeliveries ts)
  ∧ meshMessageDeliveries (Nat.iter n (creditFirst tp) ts)
    = (if inMesh ts
       then Nat.iter n (incrCapped (meshMessageDeliveriesCap tp))
              (meshMessageDeliveries ts)
       else meshMessageDeliveries ts)
  ∧ inMesh (Nat.iter n (creditFirst tp) ts) = inMesh ts
  ∧ invalidMessageDeliveries (Nat.iter n (creditFirst tp) ts)
    = invalidMessageDeliveries ts
  ∧ meshFailurePenalty (Nat.iter n (creditFirst tp) ts)
    = meshFailurePenalty ts.
Proof.
  induction n as [| n (IH1 & IH2 & IH3 & IH4 & IH5)].
  - cbn. by destruct (inMesh ts).
  - rewrite !Nat.iter_succ. unfold creditFirst at 1 3 5 7 9. cbn.
    rewrite IH3. destruct (inMesh ts); cbn; rewrite ?IH1, ?IH2; done.
Qed.
End CreditIterations.

Section FanOut.
Variable params : PeerScoreParams.
Variable msgId : InMessage → string.
Variable TimeCacheDuration : Z.
Local Open Scope Q_scope.

(** X16: a [rejectMessage] with a reason that is neither a signature
    reason nor [ERR_TOPIC_VALIDATOR_IGNORE], for a message not yet
    delivered or rejected, sets the record's status to Invalid and
    penalises [receivedFrom] and every peer of the record's peer set (the
    peers that sent a duplicate during validation): on each scored topic
    a known peer's [invalidMessageDeliveries] grows by the number of
    occurrences of the topic in [topicIDs], once for being
    [receivedFrom] and once more for being in the peer set, so a
    [receivedFrom] that is also in the peer set pays twice; all other
    peers keep their count. *)
Theorem reject_penalises_forwarders (st : PeerScore) (now : Z)
    (msg : InMessage) (reason : string) :
  isSignatureError reason = false →
  reason ≠ ERR_TOPIC_VALIDATOR_IGNORE →
  from_option status unknown (recordOf st (msgId msg)) = unknown →
  let forwarders := from_option peers ∅ (recordOf st (msgId msg)) in
  let st' := rejectMessage params msgId TimeCacheDuration now msg reason st in
  status <$> recordOf st' (msgId msg) = Some invalid
  ∧ peerIPs st' = peerIPs st
  ∧ ∀ q T tp,
      is_Some (peerStats st !! q) → topicParams params !! T = Some tp →
      invalidMessageDeliveries (topicStatsOf st' q T)
      == invalidMessageDeliveries (topicStatsOf st q T)
         + inject_Z (Z.of_nat
             (((if decide (q = receivedFrom msg) then 1 else 0)
               + (if decide (q ∈ forwarders) then 1 else 0))
              * occurrences T (topicIDs msg))).
Proof.
  intros Hsig Hign Hst forwarders st'. subst forwarders st'.
  unfold rejectMessage. rewrite Hsig.
  destruct (MessageDeliveries.ensureRecord TimeCacheDuration now (msgId msg)
              (deliveryRecords st)) as [drec md] eqn:Hens.
  destruct (ensureRecord_cases _ _ _ _ _ _ Hens) as (Hs & Hp & _).
  unfold recordOf in *. rewrite Hst in Hs. rewrite <- Hp. clear Hp Hst Hens.
  rewrite bool_decide_eq_false_2 by (by intros ?).
  rewrite bool_decide_eq_false_2 by done.
  set (loop := forEachTopic (λ t ps, Some (markInvalidTopic params t ps))
                 (topicIDs msg)).
  set (stA := set_deliveryRecords _ (set_deliveryRecords md st)).
  set (stB := _markInvalidMessageDelivery params (receivedFrom msg) msg stA).
  assert (withPeer (receivedFrom msg) loop stA = Some stB) as HB
    by (symmetry; apply markInvalid_withPeer).
  match goal with |- context [foldl ?h stB ?l] =>
    set (stC := foldl h stB l) end.
  assert (forEachPeer
            (λ p s, Some (_markInvalidMessageDelivery params p msg s))
            (elements (peers (set_status invalid drec))) stB = Some stC) as HC
    by apply forEachPeer_foldl.
  apply (forEachPeer_lookup (λ _, true) loop) in HC
    as (HstatsC & HipsC & HrecsC & _);
    [| intros p s; apply markInvalid_withPeer | apply NoDup_elements].
  destruct (withPeer_frame _ _ _ _ HB) as (HipsB & HrecsB & _).
  split; [| split].
  - rewrite HrecsC, HrecsB. cbn. by rewrite lookup_insert_eq.
  - by rewrite HipsC, HipsB.
  - intros q T tp [ps Hps] Htp.
    assert (∀ p, is_Some (loop p)) as Htot
      by (intros p; apply markInvalid_loop_total).
    assert (∀ p p', loop p = Some p' →
              invalidMessageDeliveries (statsOn p' T)
              == invalidMessageDeliveries (statsOn p T)
                 + inject_Z (Z.of_nat (occurrences T (topicIDs msg))))
      as Hcount.
    { intros p p' Hl.
      rewrite (markInvalid_loop_stats params _ _ _ _ tp Hl Htp).
      apply iter_creditInvalid. }
    assert (peerStats stA !! q = Some ps) as HpsA by exact Hps.
    pose proof (withPeer_lookup _ _ _ _ q HB) as HqB. rewrite HpsA in HqB.
    specialize (HstatsC q). unfold topicStatsOf at 1 2. rewrite Hps.
    cbn [from_option].
    destruct (Htot ps) as [ps1 Hl1]. destruct (Htot ps1) as [ps2 Hl2].
    pose proof (Hcount _ _ Hl1) as Hc1. pose proof (Hcount _ _ Hl2) as Hc2.
    destruct (decide (q = receivedFrom msg)) as [Hq | Hq].
    + cbn in HqB. rewrite Hl1 in HqB. rewrite HqB in HstatsC.
      destruct (decide (q ∈ peers drec)) as [Hin | Hin].
      * rewrite decide_True in HstatsC
          by (split; [by apply elem_of_elements | done]).
        cbn in HstatsC. rewrite Hl2 in HstatsC. rewrite HstatsC.
        cbn [from_option Nat.add Nat.mul].
        rewrite Nat.add_0_r, Nat2Z.inj_add, inject_Z_plus. lra.
      * rewrite decide_False in HstatsC
          by (intros [Hin'%elem_of_elements _]; by apply Hin).
        rewrite HstatsC. cbn [from_option Nat.add Nat.mul].
        rewrite Nat.add_0_r. lra.
    + rewrite HqB in HstatsC.
      destruct (decide (q ∈ peers drec)) as [Hin | Hin].
      * rewrite decide_True in HstatsC
          by (split; [by apply elem_of_elements | done]).
        cbn in HstatsC. rewrite Hl1 in HstatsC. rewrite HstatsC.
        cbn [from_option Nat.add Nat.mul].
        rewrite Nat.add_0_r. lra.
      * rewrite decide_False in HstatsC
          by (intros [Hin'%elem_of_elements _]; by apply Hin).
        rewrite HstatsC. cbn [from_option Nat.add Nat.mul].
        change (inject_Z (Z.of_nat 0)) with 0. lra.
Qed.

(** X17: unless the record of the message is Invalid afterwards, a
    [duplicateMessage] is idempotent: a second duplicate of the same
    message from the same peer, at any later time, changes nothing (the
    peer is in the record's peer set after the first, or the record is
    Ignored). *)
Theorem duplicate_twice (st st1 : PeerScore) (now now' : Z)
    (msg : InMessage) :
  duplicateMessage params msgId TimeCacheDuration now msg st = Some st1 →
  status <$> recordOf st1 (msgId msg) ≠ Some invalid →
  duplicateMessage params msgId TimeCacheDuration now' msg st1 = Some st1.
Proof.
  unfold duplicateMessage at 1.
  destruct (MessageDeliveries.ensureRecord TimeCacheDuration now (msgId msg)
              (deliveryRecords st)) as [drec md] eqn:Hens.
  destruct (ensureRecord_cases _ _ _ _ _ _ Hens) as (_ & _ & Hmid & _).
  assert (∀ d s, recordOf s (msgId msg) = Some d →
            receivedFrom msg ∈ peers d ∨ status d = ignored →
            duplicateMessage params msgId TimeCacheDuration now' msg s
            = Some s) as Hnoop.
  { intros d s Hd Hor. unfold duplicateMessage.
    rewrite (ensureRecord_existing _ now' _ _ d) by exact Hd.
    rewrite set_deliveryRecords_same.
    case_bool_decide as Hin; [done |].
    destruct Hor as [? | ->]; done. }
  case_bool_decide as Hin.
  { intros [= <-] _. apply (Hnoop drec); [exact Hmid | by left]. }
  destruct (status drec) eqn:Hs.
  - intros [= <-] _.
    eapply Hnoop; [unfold recordOf; cbn; apply lookup_insert_eq |].
    left. cbn. set_solver.
  - intros Hm _. rewrite markDuplicate_withPeer in Hm.
    destruct (withPeer_frame _ _ _ _ Hm) as (_ & Hrecs & _).
    eapply Hnoop; [unfold recordOf; rewrite Hrecs; cbn; apply lookup_insert_eq |].
    left. cbn. set_solver.
  - intros [= <-] Hninv. exfalso. apply Hninv.
    destruct (markInvalid_frame params (receivedFrom msg) msg
                (set_deliveryRecords md st)) as (_ & Hrecs & _).
    unfold recordOf. rewrite Hrecs. cbn. by rewrite Hmid, <- Hs.
  - intros [= <-] _. apply (Hnoop drec); [exact Hmid | by right].
Qed.

(** X18: the first [deliverMessage] of a message (no record, or a record
    still Unknown) on a well-formed engine returns, marks the record
    Valid with [validated] the time of the call, credits [receivedFrom]
    with a first delivery, and credits every other known peer of the
    record's peer set (the peers whose duplicate arrived during
    validation) with a mesh delivery on the topics for which it is in the
    mesh, with no window check ([validatedTime] is passed as 0); known
    peers outside the peer set keep their statistics. *)
Theorem deliver_credits_forwarders (st : PeerScore) (now : Z)
    (msg : InMessage) :
  well_formed params st →
  from_option status unknown (recordOf st (msgId msg)) = unknown →
  let forwarders := from_option peers ∅ (recordOf st (msgId msg)) in
  let n T := occurrences T (topicIDs msg) in
  ∃ st', deliverMessage params msgId TimeCacheDuration now msg st = Some st'
    ∧ (∃ drec, recordOf st' (msgId msg) = Some drec ∧ status drec = valid
               ∧ validated drec = now ∧ peers drec = forwarders)
    ∧ peerIPs st' = peerIPs st
    ∧ ∀ q T tp,
        is_Some (peerStats st !! q) → topicParams params !! T = Some tp →
        topicStatsOf st' q T
        = if decide (q = receivedFrom msg)
          then Nat.iter (n T) (creditFirst tp) (topicStatsOf st q T)
          else if decide (q ∈ forwarders)
          then Nat.iter (n T) (creditDuplicate tp 0 0) (topicStatsOf st q T)
          else topicStatsOf st q T.
Proof.
  intros Hwf Hst forwarders n. subst forwarders n.
  destruct (well_formed_deliver params msgId TimeCacheDuration now msg st Hwf)
    as (st' & Hdel & _).
  exists st'. split; [exact Hdel |].
  unfold deliverMessage in Hdel. rewrite markFirst_withPeer in Hdel.
  set (loopF := forEachTopic (markFirstTopic params) (topicIDs msg)) in *.
  destruct (withPeer (receivedFrom msg) loopF st) as [st1|] eqn:H1;
    [cbn in Hdel | done].
  destruct (withPeer_frame _ _ _ _ H1) as (Hips1 & Hrecs1 & _).
  rewrite Hrecs1 in Hdel.
  destruct (MessageDeliveries.ensureRecord TimeCacheDuration now (msgId msg)
              (deliveryRecords st)) as [drec md] eqn:Hens.
  destruct (ensureRecord_cases _ _ _ _ _ _ Hens) as (Hs & Hp & _).
  unfold recordOf in *. rewrite Hst in Hs. rewrite <- Hp. clear Hp Hst Hens.
  rewrite bool_decide_eq_false_2 in Hdel by (by intros ?).
  set (loopD := forEachTopic (markDuplicateTopic params 0 0) (topicIDs msg)).
  apply (forEachPeer_lookup (λ p, bool_decide (p ≠ receivedFrom msg)) loopD)
    in Hdel as (Hstats & Hips & Hrecs & _);
    [| intros p s; by destruct (bool_decide (p ≠ receivedFrom msg))
     | apply NoDup_elements].
  split; [| split].
  - rewrite Hrecs. cbn. rewrite lookup_insert_eq. by eexists.
  - by rewrite Hips.
  - intros q T tp [ps Hps] Htp. specialize (Hstats q). cbn in Hstats.
    pose proof (withPeer_lookup _ _ _ _ q H1) as Hq1. rewrite Hps in Hq1.
    pose proof (Hwf q ps Hps) as Hsc.
    unfold topicStatsOf at 1 2 3 4. rewrite Hps. cbn [from_option].
    destruct (decide (q = receivedFrom msg)) as [Hq | Hq].
    + rewrite decide_False in Hstats
        by (intros [_ Hne%bool_decide_eq_true]; by apply Hne).
      destruct (markFirst_loop_total params (topicIDs msg) ps Hsc)
        as [ps1 Hl1].
      cbn in Hq1. fold loopF in Hl1. rewrite Hl1 in Hq1.
      rewrite Hstats, Hq1. cbn.
      eapply (forEachTopic_stats params _ creditFirst); [| exact Hl1 | done].
      apply markFirstTopic_stats.
    + rewrite Hq1 in Hstats.
      destruct (decide (q ∈ peers drec)) as [Hin | Hin].
      * rewrite decide_True in Hstats
          by (split; [by apply elem_of_elements | by apply bool_decide_eq_true]).
        destruct (markDuplicate_loop_total params 0 0 (topicIDs msg) ps Hsc)
          as [ps1 Hl1].
        cbn in Hstats. fold loopD in Hl1. rewrite Hl1 in Hstats.
        rewrite Hstats. cbn.
        eapply (forEachTopic_stats params _ (λ tp, creditDuplicate tp 0 0));
          [| exact Hl1 | done].
        intros. by eapply markDuplicateTopic_stats.
      * rewrite decide_False in Hstats
          by (intros [Hin'%elem_of_elements _]; by apply Hin).
        by rewrite Hstats.
Qed.

(** X19: [_markFirstMessageDelivery] for a known peer with well-formed
    statistics returns, and on each scored topic of the message: the
    peer's [firstMessageDeliveries] becomes min(old + n, cap) for n the
    number of occurrences of the topic in [topicIDs] and cap the topic's
    [firstMessageDeliveriesCap]; [meshMessageDeliveries] becomes
    min(old + n, [meshMessageDeliveriesCap]) if the peer is in the mesh
    for the topic and is unchanged otherwise; [invalidMessageDeliveries],
    [meshFailurePenalty] and [inMesh] are unchanged. *)
Theorem markFirst_counts (st : PeerScore) (id : string) (msg : InMessage)
    (ps : PeerStats) (T : string) (tp : TopicScoreParams) :
  peerStats st !! id = Some ps →
  topics_scored params ps →
  topicParams params !! T = Some tp →
  T ∈ topicIDs msg →
  let n := inject_Z (Z.of_nat (occurrences T (topicIDs msg))) in
  let old := statsOn ps T in
  ∃ st', _markFirstMessageDelivery params id msg st = Some st'
    ∧ firstMessageDeliveries (topicStatsOf st' id T)
      == Qmin (firstMessageDeliveries old + n) (firstMessageDeliveriesCap tp)
    ∧ (if inMesh old
       then meshMessageDeliveries (topicStatsOf st' id T)
            == Qmin (meshMessageDeliveries old + n)
                 (meshMessageDeliveriesCap tp)
       else meshMessageDeliveries (topicStatsOf st' id T)
            = meshMessageDeliveries old)
    ∧ inMesh (topicStatsOf st' id T) = inMesh old
    ∧ invalidMessageDeliveries (topicStatsOf st' id T)
      = invalidMessageDeliveries old
    ∧ meshFailurePenalty (topicStatsOf st' id T) = meshFailurePenalty old.
Proof.
  intros Hps Hsc Htp HT n old. subst n old.
  pose proof (occurrences_elem_of _ _ HT) as Hocc.
  destruct (markFirst_loop_total params (topicIDs msg) ps Hsc) as [ps1 Hl1].
  exists (putPeer id ps1 st). split.
  { unfold _markFirstMessageDelivery. rewrite Hps. cbn. by rewrite Hl1. }
  rewrite topicStatsOf_putPeer, decide_True by done.
  rewrite (forEachTopic_stats params _ creditFirst
             (markFirstTopic_stats params) _ _ _ _ _ Hl1 Htp).
  destruct (iter_creditFirst tp (occurrences T (topicIDs msg)) (statsOn ps T))
    as (-> & -> & -> & -> & ->).
  split; [by apply iter_incrCapped_min |].
  split; [| done].
  destruct (inMesh (statsOn ps T)); [by apply iter_incrCapped_min | done].
Qed.
End FanOut.

Lemma reject_penalises_forwarders_witness :
  let st := Ex.after [AddPeer Ex.cm1 "A"; AddPeer Ex.cm1 "B";
                      ValidateMessage 1 Ex.msgA; DuplicateMessage 2 Ex.msgB] in
  let st' := rejectMessage Ex.params Ex.msgId Ex.TimeCacheDuration 3 Ex.msgA
               ERR_TOPIC_VALIDATOR_REJECT st in
  status <$> recordOf st' "m1" = Some invalid
  ∧ (invalidMessageDeliveries (topicStatsOf st' "B" "T")
     == invalidMessageDeliveries (topicStatsOf st "B" "T") + 1)%Q.
Proof.
  intros st st'.
  destruct (reject_penalises_forwarders Ex.params Ex.msgId
              Ex.TimeCacheDuration st 3 Ex.msgA ERR_TOPIC_VALIDATOR_REJECT)
    as (Hstatus & _ & Hcount).
  - reflexivity.
  - discriminate.
  - vm_compute. reflexivity.
  - split; [exact Hstatus |].
    assert (is_Some (peerStats st !! "B")) as Hknown
      by (vm_compute; eauto).
    pose proof (Hcount "B" "T" Ex.tparams Hknown eq_refl) as HB.
    vm_compute in HB. vm_compute. exact HB.
Defined.

Lemma duplicate_twice_witness :
  let st := Ex.after [AddPeer Ex.cm1 "A"; AddPeer Ex.cm1 "B";
                      Graft 0 "B" "T"; ValidateMessage 1 Ex.msgA;
                      DeliverMessage 2 Ex.msgA] in
  let st1 := Ex.after [AddPeer Ex.cm1 "A"; AddPeer Ex.cm1 "B";
                       Graft 0 "B" "T"; ValidateMessage 1 Ex.msgA;
                       DeliverMessage 2 Ex.msgA; DuplicateMessage 3 Ex.msgB] in
  duplicateMessage Ex.params Ex.msgId Ex.TimeCacheDuration 3 Ex.msgB st
  = Some st1
  ∧ duplicateMessage Ex.params Ex.msgId Ex.TimeCacheDuration 4 Ex.msgB st1
    = Some st1.
Proof.
  intros st st1.
  assert (duplicateMessage Ex.params Ex.msgId Ex.TimeCacheDuration 3 Ex.msgB st
          = Some st1) as H1 by (vm_compute; reflexivity).
  split; [exact H1 |].
  apply (duplicate_twice Ex.params Ex.msgId Ex.TimeCacheDuration st st1 3 4
           Ex.msgB H1).
  vm_compute. discriminate.
Defined.

Lemma deliver_credits_forwarders_witness :
  let st := Ex.after [AddPeer Ex.cm1 "A"; AddPeer Ex.cm1 "B";
                      Graft 0 "B" "T"; ValidateMessage 1 Ex.msgA;
                      DuplicateMessage 2 Ex.msgB] in
  ∃ st', deliverMessage Ex.params Ex.msgId Ex.TimeCacheDuration 3 Ex.msgA st
         = Some st'
    ∧ firstMessageDeliveries (topicStatsOf st' "A" "T") = (0 + 1)%Q
    ∧ meshMessageDeliveries (topicStatsOf st' "B" "T") = (0 + 1)%Q.
Proof.
  intros st.
  destruct (deliver_credits_forwarders Ex.params Ex.msgId
              Ex.TimeCacheDuration st 3 Ex.msgA)
    as (st' & Hdel & _ & _ & Hstats).
  - refine (bool_decide_unpack _ _). vm_compute. exact I.
  - vm_compute. reflexivity.
  - exists st'. split; [exact Hdel |]. split.
    + rewrite (Hstats "A" "T" Ex.tparams); [| vm_compute; eauto | reflexivity].
      vm_compute. reflexivity.
    + rewrite (Hstats "B" "T" Ex.tparams); [| vm_compute; eauto | reflexivity].
      vm_compute. reflexivity.
Defined.

Lemma markFirst_counts_witness :
  let st := Ex.after [AddPeer Ex.cm1 "A"] in
  ∃ st', _markFirstMessageDelivery Ex.params "A" Ex.msgA st = Some st'
    ∧ (firstMessageDeliveries (topicStatsOf st' "A" "T") == 1)%Q.
Proof.
  intros st.
  destruct (markFirst_counts Ex.params st "A" Ex.msgA
              (mkPeerStats true 0 ∅ 0 ["1.2.3.4"]) "T" Ex.tparams)
    as (st' & Hm & Hfirst & _).
  - vm_compute. reflexivity.
  - refine (bool_decide_unpack _ _). vm_compute. exact I.
  - reflexivity.
  - apply list_elem_of_here.
  - exists st'. split; [exact Hm |]. rewrite Hfirst. vm_compute. reflexivity.
Defined.

(** ** The IP index under all the calls *)

Lemma ips_frame_refl st : ips_frame st st.
Proof. by split. Qed.

Lemma ips_frame_trans st1 st2 st3 :
  ips_frame st1 st2 → ips_frame st2 st3 → ips_frame st1 st3.
Proof.
  intros [H1 H1'] [H2 H2']. split; [congruence |].
  intros p. by rewrite H2', H1'.
Qed.

Lemma ips_frame_consistent st st' :
  ips_frame st st' → ip_index_consistent st → ip_index_consistent st'.
Proof.
  intros [Hidx Hips] [Hc Hne]. split; [| by rewrite Hidx].
  intros ip p. rewrite Hidx, Hc. specialize (Hips p).
  split; intros (ps & Hps & Hin); rewrite Hps in Hips; cbn in Hips.
  - destruct (peerStats st' !! p) as [ps'|]; [| done].
    injection Hips as Hips. exists ps'. by rewrite Hips.
  - destruct (peerStats st !! p) as [ps'|]; [| done].
    injection Hips as Hips. exists ps'. by rewrite <- Hips.
Qed.

Lemma ips_frame_putPeer id ps ps' st :
  peerStats st !! id = Some ps → ips ps' = ips ps →
  ips_frame st (putPeer id ps' st).
Proof.
  intros Hps Hips. split; [done |]. intros p. cbn.
  destruct (decide (p = id)) as [-> |].
  - by rewrite lookup_insert_eq, Hps; cbn; rewrite Hips.
  - by rewrite lookup_insert_ne.
Qed.

Lemma ips_frame_deliveryRecords md st :
  ips_frame st (set_deliveryRecords md st).
Proof. by split. Qed.

Lemma withPeer_ips_frame id loop st st' :
  (∀ ps ps', loop ps = Some ps' → same_peer ps ps') →
  withPeer id loop st = Some st' → ips_frame st st'.
Proof.
  intros Hloop [[_ ->] | (ps & ps' & Hid & Hl & ->)]%withPeer_Some.
  - apply ips_frame_refl.
  - apply (ips_frame_putPeer _ ps); [done |].
    by destruct (Hloop _ _ Hl) as (_ & _ & _ & ?).
Qed.

Section IndexUnderCalls.
Variable params : PeerScoreParams.
Variable msgId : InMessage → string.
Variable TimeCacheDuration : Z.

Lemma markInvalid_ips_frame id msg st :
  ips_frame st (_markInvalidMessageDelivery params id msg st).
Proof.
  eapply withPeer_ips_frame; [| symmetry; apply markInvalid_withPeer].
  apply forEachTopic_frame. intros t ps ps' [= <-].
  apply markInvalidTopic_frame.
Qed.

Lemma markFirst_ips_frame id msg st st' :
  _markFirstMessageDelivery params id msg st = Some st' → ips_frame st st'.
Proof.
  rewrite markFirst_withPeer. apply withPeer_ips_frame.
  apply forEachTopic_frame. apply markFirstTopic_frame.
Qed.

Lemma markDuplicate_ips_frame clock id msg v st st' :
  _markDuplicateMessageDelivery params clock id msg v st = Some st' →
  ips_frame st st'.
Proof.
  rewrite markDuplicate_withPeer. apply withPeer_ips_frame.
  apply forEachTopic_frame. apply markDuplicateTopic_frame.
Qed.

Lemma graft_ips_frame now id topic st :
  ips_frame st (graft params now id topic st).
Proof.
  unfold graft. destruct (peerStats st !! id) as [ps|] eqn:Hps;
    [| apply ips_frame_refl].
  destruct (ensureTopicStats params topic ps) as [[ts ps1]|] eqn:Hens;
    [| apply ips_frame_refl].
  apply (ips_frame_putPeer _ ps); [done |].
  by destruct (same_peer_ensure_put params _ _ _ _
                 (set_meshMessageDeliveriesActive false
                    (set_meshTime 0 (set_graftTime now (set_inMesh true ts))))
                 Hens) as (_ & _ & _ & ?).
Qed.

Lemma prune_ips_frame id topic st st' :
  prune params id topic st = Some st' → ips_frame st st'.
Proof.
  unfold prune. destruct (peerStats st !! id) as [ps|] eqn:Hps;
    [| intros [= <-]; apply ips_frame_refl].
  destruct (ensureTopicStats params topic ps) as [[ts ps1]|] eqn:Hens;
    [| intros [= <-]; apply ips_frame_refl].
  destruct (topicParams params !! topic) as [tp|]; [cbn | done].
  intros [= <-]. apply (ips_frame_putPeer _ ps); [done |].
  match goal with |- ips (putTopicStats _ ?ts' _) = _ =>
    by destruct (same_peer_ensure_put params _ _ _ _ ts' Hens)
         as (_ & _ & _ & ?) end.
Qed.

Lemma addPenalty_ips_frame id penalty st :
  ips_frame st (addPenalty id penalty st).
Proof.
  unfold addPenalty. destruct (peerStats st !! id) as [ps|] eqn:Hps;
    [| apply ips_frame_refl].
  by apply (ips_frame_putPeer _ ps).
Qed.

Lemma deliver_ips_frame now msg st st' :
  deliverMessage params msgId TimeCacheDuration now msg st = Some st' →
  ips_frame st st'.
Proof.
  unfold deliverMessage.
  destruct (_markFirstMessageDelivery params _ msg st) as [st1|] eqn:H1;
    [cbn | done].
  apply markFirst_ips_frame in H1.
  destruct (MessageDeliveries.ensureRecord _ _ _ _) as [drec md].
  case_bool_decide.
  - intros [= <-]. eapply ips_frame_trans; [exact H1 |].
    apply ips_frame_deliveryRecords.
  - intros Hl.
    eapply (forEachPeer_invariant (ips_frame st)); [| exact Hl |].
    + intros p s s' Hp Hs. cbn beta in Hp.
      destruct (bool_decide (p ≠ receivedFrom msg)).
      * eapply ips_frame_trans; [exact Hs |].
        by eapply markDuplicate_ips_frame.
      * by injection Hp as <-.
    + eapply ips_frame_trans; [exact H1 |].
      eapply ips_frame_trans; apply ips_frame_deliveryRecords.
Qed.

Lemma reject_ips_frame now msg reason st :
  ips_frame st (rejectMessage params msgId TimeCacheDuration now msg reason st).
Proof.
  unfold rejectMessage. destruct (isSignatureError reason);
    [apply markInvalid_ips_frame |].
  destruct (MessageDeliveries.ensureRecord _ _ _ _) as [drec md].
  case_bool_decide; [apply ips_frame_deliveryRecords |].
  case_bool_decide.
  - eapply ips_frame_trans; apply ips_frame_deliveryRecords.
  - apply (foldl_invariant (ips_frame st)).
    + intros s p Hs. eapply ips_frame_trans; [exact Hs |].
      apply markInvalid_ips_frame.
    + eapply ips_frame_trans; [| apply markInvalid_ips_frame].
      eapply ips_frame_trans; apply ips_frame_deliveryRecords.
Qed.

Lemma duplicate_ips_frame now msg st st' :
  duplicateMessage params msgId TimeCacheDuration now msg st = Some st' →
  ips_frame st st'.
Proof.
  unfold duplicateMessage.
  destruct (MessageDeliveries.ensureRecord _ _ _ _) as [drec md].
  case_bool_decide; [intros [= <-]; apply ips_frame_deliveryRecords |].
  destruct (status drec).
  - intros [= <-]. eapply ips_frame_trans; apply ips_frame_deliveryRecords.
  - intros Hm. apply markDuplicate_ips_frame in Hm.
    eapply ips_frame_trans; [| exact Hm].
    eapply ips_frame_trans; apply ips_frame_deliveryRecords.
  - intros [= <-]. eapply ips_frame_trans; [| apply markInvalid_ips_frame].
    apply ips_frame_deliveryRecords.
  - intros [= <-]. apply ips_frame_deliveryRecords.
Qed.

Lemma decayPeer_ips now ps : ips (decayPeer params now ps) = ips ps.
Proof. done. Qed.

(** [_refreshScores] takes an expired peer out of the index together
    with its entry. *)
Lemma refresh_consistent now st :
  ip_index_consistent st → ip_index_consistent (_refreshScores params now st).
Proof.
  intros [Hc Hne]. split; [| by apply refresh_nonempty].
  intros ip p. rewrite refresh_peerIPs, refresh_lookup, Hc. split.
  - intros [(ps & Hps & Hin) Hno]. rewrite Hps. cbn. unfold refreshEntry.
    destruct (connected ps) eqn:Hconn; [by eexists |].
    case_bool_decide as Hexp; [| by eexists].
    exfalso. apply Hno. by exists ps.
  - intros (ps' & Hps' & Hin).
    destruct (peerStats st !! p) as [ps|] eqn:Hps; [cbn in Hps' | done].
    unfold refreshEntry in Hps'.
    destruct (connected ps) eqn:Hconn.
    + injection Hps' as <-. split; [by exists ps |].
      intros (ps0 & [= <-] & ? & _). congruence.
    + case_bool_decide as Hexp; [done |]. injection Hps' as <-.
      split; [by exists ps |].
      intros (ps0 & [= <-] & _ & ? & _). lia.
Qed.

Lemma call_consistent c st st' :
  match c with AddPeer _ id => peerStats st !! id = None | _ => True end →
  call params msgId TimeCacheDuration c st = Some st' →
  ip_index_consistent st → ip_index_consistent st'.
Proof.
  intros Hnew Hcall Hc. destruct c; cbn [call] in Hcall.
  - injection Hcall as <-. by apply addPeer_fresh_consistent.
  - by eapply removePeer_consistent.
  - injection Hcall as <-.
    eapply ips_frame_consistent; [apply graft_ips_frame | done].
  - eapply ips_frame_consistent; [by eapply prune_ips_frame | done].
  - injection Hcall as <-. unfold validateMessage.
    destruct (MessageDeliveries.ensureRecord _ _ _ _).
    eapply ips_frame_consistent; [apply ips_frame_deliveryRecords | done].
  - eapply ips_frame_consistent; [by eapply deliver_ips_frame | done].
  - injection Hcall as <-.
    eapply ips_frame_consistent; [apply reject_ips_frame | done].
  - eapply ips_frame_consistent; [by eapply duplicate_ips_frame | done].
  - injection Hcall as <-.
    eapply ips_frame_consistent; [apply addPenalty_ips_frame | done].
  - injection Hcall as <-. by apply refresh_consistent.
  - injection Hcall as <-. by apply updateIPs_consistent.
Qed.

(** X20: no call of the engine throws on an engine built by the
    constructor: every sequence of calls of the hooks, [_refreshScores]
    and [_updateIPs] on a new engine runs to its end (the reads of
    [this.params.topics[topic]] never meet [undefined]), and in the state
    it reaches every entry of every [pstats.topics] is for a scored topic
    (the "should be unreachable" of [_refreshScores]). *)
Theorem calls_never_throw (cs : list Call) :
  ∃ st, calls params msgId TimeCacheDuration cs create = Some st
        ∧ ∀ p ps topic, peerStats st !! p = Some ps →
            is_Some (topics ps !! topic) →
            is_Some (topicParams params !! topic).
Proof.
  destruct (calls_well_formed params msgId TimeCacheDuration cs)
    as (st & Hcalls & Hwf).
  exists st. split; [exact Hcalls |].
  intros p ps topic Hps [ts Hts]. exact (Hwf p ps Hps topic ts Hts).
Qed.

(** X21: the IP index is kept consistent by every call but an [addPeer]
    for an id that has an entry: after any sequence of calls on a new
    engine in which each [addPeer] is for an id without an entry,
    [peerIPs[ip]] holds exactly the peers whose [ips] contain [ip], and
    no bucket is empty. *)
Theorem ip_index_consistent_calls (cs : list Call) :
  adds_new (call params msgId TimeCacheDuration) cs create →
  ∃ st, calls params msgId TimeCacheDuration cs create = Some st
        ∧ ip_index_consistent st.
Proof.
  assert (∀ st, well_formed params st → ip_index_consistent st →
            adds_new (call params msgId TimeCacheDuration) cs st →
            ∃ st', calls params msgId TimeCacheDuration cs st = Some st'
                   ∧ ip_index_consistent st') as H.
  { induction cs as [| c cs IH]; intros st Hwf Hc Hnew; [by exists st |].
    destruct Hnew as [Hhead Htail].
    destruct (call_well_formed params msgId TimeCacheDuration c st Hwf)
      as (st1 & Hcall & Hwf1).
    cbn. rewrite Hcall. cbn. apply IH; [done | | by apply Htail].
    eapply call_consistent; [| exact Hcall | exact Hc].
    by destruct c. }
  apply H; [| apply create_consistent].
  unfold well_formed, create. cbn [peerStats]. apply map_Forall_empty.
Qed.
End IndexUnderCalls.

Lemma ip_index_consistent_calls_witness :
  ∃ st, calls Ex.params Ex.msgId Ex.TimeCacheDuration
          [AddPeer Ex.cm1 "A"; UpdateIPs Ex.cm2; AddPeer Ex.cm1 "B";
           RemovePeer 5 "A"]
          create = Some st
        ∧ ip_index_consistent st.
Proof.
  apply (ip_index_consistent_calls Ex.params Ex.msgId Ex.TimeCacheDuration).
  split; [reflexivity |].
  intros st1 H1. cbn [call] in H1. injection H1 as <-.
  split; [exact I |].
  intros st2 H2. cbn [call] in H2. injection H2 as <-.
  split; [vm_compute; reflexivity |].
  intros st3 H3. cbn [call] in H3. injection H3 as <-.
  split; [exact I |].
  intros st4 _. exact I.
Defined.

(** ** Reconciling the index with the connection manager *)

(** X22: [_setIPs(id, newIPs, oldIPs)] touches the membership of [id]
    only, and only in the buckets of the addresses of the two lists; if
    the index lists [id] under exactly the addresses of [oldIPs], it
    lists it under exactly those of [newIPs] afterwards; and it leaves
    no empty bucket if there was none. *)
Theorem setIPs_reconciles (id : string) (newIPs oldIPs : list string)
    (idx : gmap string (gset string)) :
  let idx' := _setIPs id newIPs oldIPs idx in
  (∀ ip q, q ≠ id ∨ (ip ∉ oldIPs ∧ ip ∉ newIPs) →
     q ∈ peersOfIP idx' ip ↔ q ∈ peersOfIP idx ip)
  ∧ ((∀ ip, id ∈ peersOfIP idx ip ↔ ip ∈ oldIPs) →
     ∀ ip, id ∈ peersOfIP idx' ip ↔ ip ∈ newIPs)
  ∧ ((∀ ip, idx !! ip ≠ Some ∅) → ∀ ip, idx' !! ip ≠ Some ∅).
Proof.
  intros idx'. subst idx'. split; [| split].
  - intros ip q Hq. rewrite _setIPs_elem. naive_solver.
  - intros Hold ip. rewrite _setIPs_elem, Hold.
    destruct (decide (ip ∈ oldIPs)); destruct (decide (ip ∈ newIPs));
      naive_solver.
  - apply _setIPs_nonempty.
Qed.

(** X23: [_removeIPs(id, ips)] takes [id] out of the bucket of each
    address of the list, changes no other membership, and deletes the
    buckets it empties. *)
Theorem removeIPs_forgets (id : string) (l : list string)
    (idx : gmap string (gset string)) :
  let idx' := _removeIPs id l idx in
  (∀ ip, ip ∈ l → id ∉ peersOfIP idx' ip)
  ∧ (∀ ip q, q ≠ id ∨ ip ∉ l →
       q ∈ peersOfIP idx' ip ↔ q ∈ peersOfIP idx ip)
  ∧ ((∀ ip, idx !! ip ≠ Some ∅) → ∀ ip, idx' !! ip ≠ Some ∅).
Proof.
  intros idx'. subst idx'. split; [| split].
  - intros ip Hip. rewrite _removeIPs_elem. naive_solver.
  - intros ip q Hq. rewrite _removeIPs_elem. naive_solver.
  - apply _removeIPs_nonempty.
Qed.

Section Reindex.
Variable params : PeerScoreParams.

(** X24: on a consistent index, [_updateIPs] sets the [ips] of every
    peer to what the connection manager reports for it, changes nothing
    else of the entry, and leaves [peerIPs[ip]] holding exactly the
    known peers for which the connection manager reports [ip], with no
    empty bucket. *)
Theorem updateIPs_reindexes (cm : string → list string) (st : PeerScore) :
  ip_index_consistent st →
  let st' := _updateIPs cm st in
  (∀ p, peerStats st' !! p = set_ips (cm p) <$> peerStats st !! p)
  ∧ (∀ ip p, p ∈ peersOfIP (peerIPs st') ip
             ↔ is_Some (peerStats st !! p) ∧ ip ∈ cm p)
  ∧ (∀ ip, peerIPs st' !! ip ≠ Some ∅).
Proof.
  intros Hc st'. subst st'.
  destruct (updateIPs_consistent cm st Hc) as [Hc' Hne'].
  split; [apply updateIPs_lookup |]. split; [| exact Hne'].
  intros ip p. rewrite Hc', updateIPs_lookup. split.
  - intros (ps' & Hps' & Hin).
    destruct (peerStats st !! p) as [ps|]; [| done].
    injection Hps' as <-. split; [by eexists | done].
  - intros [[ps Hps] Hin]. rewrite Hps. by eexists.
Qed.

(** X25: on a consistent index, one [background] tick leaves for each
    peer the entry [_refreshScores] computes (decayed if connected,
    dropped if disconnected and expired, kept otherwise) with [ips] set
    to the connection manager's report, and the index consistent with
    these entries. *)
Theorem background_tick (now : Z) (cm : string → list string)
    (st : PeerScore) :
  ip_index_consistent st →
  let st' := background params now cm st in
  (∀ p, peerStats st' !! p
        = set_ips (cm p) <$> (peerStats st !! p ≫= refreshEntry params now))
  ∧ ip_index_consistent st'
  ∧ _backgroundInterval st' = _backgroundInterval st.
Proof.
  intros Hc st'. subst st'. unfold background. cbn zeta.
  split; [| split].
  - intros p. cbn [peerStats set_deliveryRecords].
    by rewrite updateIPs_lookup, refresh_lookup.
  - eapply ips_frame_consistent; [apply ips_frame_deliveryRecords |].
    apply updateIPs_consistent. by apply refresh_consistent.
  - cbn.
    destruct (refresh_frame params now st) as [_ <-].
    unfold _updateIPs.
    generalize (_refreshScores params now st). intros s.
    apply (map_fold_weak_ind
             (λ r _, _backgroundInterval r = _backgroundInterval s)); done.
Qed.
End Reindex.

Lemma setIPs_reconciles_witness :
  let idx : gmap string (gset string) := {[ "1.2.3.4" := {[ "A"; "B" ]} ]} in
  let idx' := _setIPs "A" ["5.6.7.8"] ["1.2.3.4"] idx in
  ("A" ∈ peersOfIP idx' "5.6.7.8" ↔ "5.6.7.8" ∈ ["5.6.7.8"])
  ∧ idx' !! "1.2.3.4" ≠ Some ∅.
Proof.
  intros idx idx'.
  destruct (setIPs_reconciles "A" ["5.6.7.8"] ["1.2.3.4"] idx)
    as (_ & Hid & Hne).
  split.
  - apply Hid. intros ip. unfold idx, peersOfIP.
    destruct (decide (ip = "1.2.3.4")) as [-> | Hip].
    + rewrite lookup_singleton_eq. cbn. split; intros _.
      * apply list_elem_of_here.
      * apply elem_of_union_l, elem_of_singleton. reflexivity.
    + rewrite lookup_singleton_ne by (intros ?; by apply Hip). cbn. split.
      * intros []%not_elem_of_empty.
      * intros ->%list_elem_of_singleton. by destruct Hip.
  - apply Hne. intros ip. unfold idx.
    destruct (decide (ip = "1.2.3.4")) as [-> | Hip].
    + rewrite lookup_singleton_eq. discriminate.
    + rewrite lookup_singleton_ne by (intros ?; by apply Hip). discriminate.
Defined.

Lemma removeIPs_forgets_witness :
  let idx : gmap string (gset string) := {[ "1.2.3.4" := {[ "A" ]} ]} in
  _removeIPs "A" ["1.2.3.4"] idx !! "1.2.3.4" ≠ Some ∅.
Proof.
  intros idx.
  destruct (removeIPs_forgets "A" ["1.2.3.4"] idx) as (_ & _ & Hne).
  apply Hne. intros ip. unfold idx.
  destruct (decide (ip = "1.2.3.4")) as [-> | Hip].
  - rewrite lookup_singleton_eq. discriminate.
  - rewrite lookup_singleton_ne by (intros ?; by apply Hip). discriminate.
Defined.

Lemma updateIPs_reindexes_witness :
  let st := addPeer Ex.cm1 "A" create in
  "A" ∈ peersOfIP (peerIPs (_updateIPs Ex.cm2 st)) "5.6.7.8"
  ↔ is_Some (peerStats st !! "A") ∧ "5.6.7.8" ∈ Ex.cm2 "A".
Proof.
  intros st.
  destruct (updateIPs_reindexes Ex.cm2 st) as (_ & Hidx & _).
  - apply addPeer_fresh_consistent; [reflexivity | apply create_consistent].
  - apply Hidx.
Defined.

Lemma background_tick_witness :
  let st := addPeer Ex.cm1 "A" create in
  ip_index_consistent (background Ex.params 1000 Ex.cm2 st).
Proof.
  intros st.
  destruct (background_tick Ex.params 1000 Ex.cm2 st) as (_ & Hc & _).
  - apply addPeer_fresh_consistent; [reflexivity | apply create_consistent].
  - exact Hc.
Defined.

(** ** Retained peers *)

Section RetainedPeers.
Variable params : PeerScoreParams.
Local Open Scope Q_scope.

(** X26: when [removePeer] retains a peer (score at most 0), on each of
    its topics [firstMessageDeliveries] is reset to 0, the peer leaves
    the mesh, and [(threshold - meshMessageDeliveries)²] is added to
    [meshFailurePenalty] exactly when the peer was in the mesh with the
    threshold armed and its deliveries below it; [meshMessageDeliveries]
    and [invalidMessageDeliveries] are kept. *)
Theorem removePeer_retained_topics (now : Z) (id : string) (st : PeerScore)
    (ps : PeerStats) (T : string) (tp : TopicScoreParams) (ts : TopicStats) :
  peerStats st !! id = Some ps →
  topics_scored params ps →
  score params id st <= 0 →
  topicParams params !! T = Some tp →
  topics ps !! T = Some ts →
  ∃ st', removePeer params now id st = Some st'
    ∧ let new := topicStatsOf st' id T in
      let threshold := meshMessageDeliveriesThreshold tp in
      let deficit := threshold - meshMessageDeliveries ts in
      firstMessageDeliveries new = 0
      ∧ inMesh new = false
      ∧ meshFailurePenalty new
        = (if inMesh ts && meshMessageDeliveriesActive ts
              && Qltb (meshMessageDeliveries ts) threshold
           then meshFailurePenalty ts + deficit * deficit
           else meshFailurePenalty ts)
      ∧ meshMessageDeliveries new = meshMessageDeliveries ts
      ∧ invalidMessageDeliveries new = invalidMessageDeliveries ts.
Proof.
  intros Hps Hsc Hscore Htp Hts.
  rewrite (removePeer_retained params now id st ps Hps Hsc Hscore).
  eexists. split; [reflexivity |].
  rewrite topicStatsOf_putPeer, decide_True by done.
  unfold statsOn. cbn [topics set_expire set_connected set_topics].
  rewrite map_lookup_imap, Hts. cbn [mbind option_bind].
  unfold removePeerTopic. rewrite Htp. cbn.
  by destruct (inMesh ts && meshMessageDeliveriesActive ts
               && Qltb (meshMessageDeliveries ts)
                    (meshMessageDeliveriesThreshold tp)).
Qed.

(** X27: retention does not survive a reconnect: [addPeer] for a peer
    whose non-positive score was retained by [removePeer] replaces the
    retained entry by a new one (connected, no topic statistics, no
    behaviour penalty, [ips] as the connection manager reports), so the
    retained counters are gone. *)
Theorem reconnect_forgets (now : Z) (cm : string → list string)
    (id : string) (st : PeerScore) (ps : PeerStats) :
  peerStats st !! id = Some ps →
  topics_scored params ps →
  score params id st <= 0 →
  ∃ st1 ps1, removePeer params now id st = Some st1
    ∧ peerStats st1 !! id = Some ps1
    ∧ behaviourPenalty ps1 = behaviourPenalty ps
    ∧ dom (topics ps1) = dom (topics ps)
    ∧ let st2 := addPeer cm id st1 in
      peerStats st2 !! id = Some (set_ips (cm id) (createPeerStats true))
      ∧ (∀ T, topicStatsOf st2 id T = createTopicStats)
      ∧ (∀ q, q ≠ id → peerStats st2 !! q = peerStats st !! q).
Proof.
  intros Hps Hsc Hscore.
  rewrite (removePeer_retained params now id st ps Hps Hsc Hscore).
  eexists _, _. split; [reflexivity |]. cbn.
  rewrite lookup_insert_eq. split; [reflexivity |]. cbn.
  split; [done |]. split.
  { cbn. apply set_eq. intros T. rewrite !elem_of_dom, map_lookup_imap.
    destruct (topics ps !! T) as [ts|] eqn:Hts; cbn.
    - destruct (removePeerTopic_total params ps Hsc T ts Hts) as [ts' ->].
      split; by eexists.
    - split; by intros [? ?]. }
  unfold addPeer. cbn. rewrite lookup_insert_eq.
  split; [done |]. split.
  - intros T. unfold topicStatsOf. cbn. by rewrite lookup_insert_eq.
  - intros q Hq. by rewrite !lookup_insert_ne.
Qed.
End RetainedPeers.

Lemma removePeer_retained_topics_witness :
  let st := Ex.after [AddPeer Ex.cm1 "B"; Graft 0 "B" "T";
                      RefreshScores 1010] in
  ∃ st', removePeer Ex.params 2000 "B" st = Some st'
    ∧ inMesh (topicStatsOf st' "B" "T") = false
    ∧ (meshFailurePenalty (topicStatsOf st' "B" "T") == 400)%Q.
Proof.
  intros st.
  destruct (removePeer_retained_topics Ex.params 2000 "B" st
              (mkPeerStats true 0
                 {[ "T" := mkTopicStats true 0 1010 0 0 true 0 0 ]} 0
                 ["1.2.3.4"]) "T" Ex.tparams
              (mkTopicStats true 0 1010 0 0 true 0 0))
    as (st' & Hrm & _ & Hin & Hmfp & _).
  - vm_compute. reflexivity.
  - refine (bool_decide_unpack _ _). vm_compute. exact I.
  - vm_compute. discriminate.
  - reflexivity.
  - reflexivity.
  - exists st'. split; [exact Hrm |]. split; [exact Hin |].
    rewrite Hmfp. vm_compute. reflexivity.
Defined.

Lemma reconnect_forgets_witness :
  let st := Ex.after [AddPeer Ex.cm1 "A"; AddPenalty "A" 2] in
  ∃ st1 ps1, removePeer Ex.params 2000 "A" st = Some st1
    ∧ peerStats st1 !! "A" = Some ps1
    ∧ behaviourPenalty ps1 = (0 + 2)%Q
    ∧ behaviourPenalty <$> peerStats (addPeer Ex.cm2 "A" st1) !! "A"
      = Some 0%Q.
Proof.
  intros st.
  destruct (reconnect_forgets Ex.params 2000 Ex.cm2 "A" st
              (mkPeerStats true 0 ∅ (0 + 2) ["1.2.3.4"]))
    as (st1 & ps1 & Hrm & Hps1 & Hbp & _ & Hnew & _).
  - vm_compute. reflexivity.
  - refine (bool_decide_unpack _ _). vm_compute. exact I.
  - vm_compute. discriminate.
  - exists st1, ps1. split; [exact Hrm |]. split; [exact Hps1 |].
    split; [exact Hbp |]. rewrite Hnew. reflexivity.
Defined.
